(** * Dub siren: audio engine, control surface, reverb and sample player

    A shallow embedding of the C++ sources of the dub siren
    (AudioEngine.cpp, GPIOController.cpp, the two Reverb.cpp variants and
    SamplePlayer.cpp) together with the properties of its specification.

    Numeric model.  The C++ types [float] and [double] are modelled by the
    rationals [Q]: arithmetic is exact, and IEEE rounding, infinities and
    NaN are outside the model.  C++ [int] is modelled by [Z]; [%] is the
    truncating remainder [Z.rem], [static_cast<int>] of a float is
    truncation towards zero.  [std::vector<float>] is [list Q]; a read
    through [operator[]] is [nth] with default 0 and a write is [upd]. *)

From Stdlib Require Import String ZArith QArith Qround Qabs List Bool Lia Lqa.
From Stdlib Require Import SpecFloat.
Import ListNotations.
Open Scope Z_scope.

(* ====================================================================== *)
(** * Common.h: shared types and utilities                                 *)
(* ====================================================================== *)

Module Common.

(** The comparison [x < y] of two floats, as a boolean. *)
Definition Qltb (x y : Q) : bool := negb (Qle_bool y x).

(** [std::clamp(v, lo, hi)] of the C++ standard library:
    [(v < lo) ? lo : (hi < v) ? hi : v]. *)
Definition std_clamp (v lo hi : Q) : Q :=
  if Qltb v lo then lo else if Qltb hi v then hi else v.

(** Modelled from the spec: [clamp] of Common.h, which is not part of the
    sources at hand ("clamped to [lo, hi]"); it is given the behaviour of
    [std::clamp], which the reverb sources of the same repository use for
    the same purpose. *)
Definition clamp (v lo hi : Q) : Q := std_clamp v lo hi.

(** Modelled from the spec: [clampSample] of Common.h, which is not part of
    the sources at hand ("writes always clamped to [-1, 1]"). *)
Definition clampSample (x : Q) : Q := clamp x (-1) 1.

(** [static_cast<int>(x)] for a float [x]: truncation towards zero. *)
Definition to_int (x : Q) : Z := Z.quot (Qnum x) (Zpos (Qden x)).

(** [std::floor(x)], the result again a float. *)
Definition floorf (x : Q) : Q := inject_Z (Qfloor x).

(** Modelled from the spec: [enum class Waveform] of Common.h, "tagged enum
    {Sine, Square, Saw, Triangle}, mapped by integer index 0..3".  A value
    of a C++ scoped enumeration is a value of its underlying type [int];
    the record keeps that integer, so that the result of a
    [static_cast<Waveform>] of any [int] is represented. *)
Record Waveform : Type := mkWaveform { tag : Z }.

Definition Sine     : Waveform := mkWaveform 0.
Definition Square   : Waveform := mkWaveform 1.
Definition Saw      : Waveform := mkWaveform 2.
Definition Triangle : Waveform := mkWaveform 3.

(** [static_cast<Waveform>(i)]. *)
Definition static_cast_Waveform (i : Z) : Waveform := mkWaveform i.

(** A waveform value that names one of the four enumerators. *)
Definition is_enumerator (w : Waveform) : Prop :=
  w = Sine \/ w = Square \/ w = Saw \/ w = Triangle.

(** Modelled from the spec: [enum class PitchEnvelopeMode] of Common.h,
    "tagged enum {None, Up, Down}". *)
Inductive PitchEnvelopeMode : Type := PitchNone | PitchUp | PitchDown.

(** Modelled from the spec: [AudioParameter<T>] of Common.h, "carrier
    holding a T with atomic set/get semantics". *)
Record AudioParameter (T : Type) : Type := mkParam { param_value : T }.
Arguments mkParam {T} _.
Arguments param_value {T} _.

Definition param_get {T} (p : AudioParameter T) : T := param_value p.
Definition param_set {T} (v : T) (_ : AudioParameter T) : AudioParameter T :=
  mkParam v.

(** Modelled from the spec: [SmoothedValue] of Common.h, "(target, current,
    coefficient); getNext() advances current toward target by coefficient".
    The coefficient is computed by the constructor, which is not part of
    the sources at hand, from the smoothing time. *)
Record SmoothedValue : Type := mkSmoothed {
  sv_target : Q;
  sv_current : Q;
  sv_coeff : Q
}.

Definition sv_setTarget (t : Q) (s : SmoothedValue) : SmoothedValue :=
  mkSmoothed t (sv_current s) (sv_coeff s).

(** [getNext()] returns the new current value and the advanced smoother. *)
Definition sv_getNext (s : SmoothedValue) : Q * SmoothedValue :=
  let c := (sv_current s + sv_coeff s * (sv_target s - sv_current s))%Q in
  (c, mkSmoothed (sv_target s) c (sv_coeff s)).

(** ** Vectors *)

(** [v[i] = x] on a [std::vector]; an index outside the vector is undefined
    behaviour in C++ and leaves the list unchanged here. *)
Fixpoint upd {A} (i : nat) (x : A) (l : list A) : list A :=
  match l, i with
  | [], _ => []
  | _ :: t, O => x :: t
  | h :: t, S j => h :: upd j x t
  end.

(** Reading [v[i]] for an [int] index. *)
Definition rd (l : list Q) (i : Z) : Q := nth (Z.to_nat i) l 0%Q.

(** Writing [v[i] = x] for an [int] index. *)
Definition wr (l : list Q) (i : Z) (x : Q) : list Q :=
  if i <? 0 then l else upd (Z.to_nat i) x l.

(** [static_cast<int>(v.size())]. *)
Definition size (l : list Q) : Z := Z.of_nat (length l).


(** [for (int i = 0; i < n; ++i) body(i)] threading a state. *)
Definition for_loop {S : Type} (n : nat) (body : Z -> S -> S) (s : S) : S :=
  fold_left (fun st i => body (Z.of_nat i) st) (seq 0 n) s.

(** Writing the first [n] elements of [src] to [dst[0 .. n)]. *)
Definition copy_into (n : nat) (src dst : list Q) : list Q :=
  for_loop n (fun i buf => wr buf i (rd src i)) dst.

(** [v.resize(n)] (new elements are zero). *)
Definition resize (l : list Q) (n : nat) : list Q :=
  firstn n l ++ repeat 0%Q (n - length l).

(** The functions of [<cmath>] and the constant [TWO_PI] of Common.h that the
    sources use.  They are not rational functions; the embedding takes them
    as parameters and no property below depends on their values. *)
Record MathLib : Type := mkMathLib {
  m_sin : Q -> Q;
  m_pow : Q -> Q -> Q;
  TWO_PI : Q
}.

End Common.
Export Common.

(* ====================================================================== *)
(** * IEEE binary32                                                         *)
(* ====================================================================== *)

(** The embedding computes with rationals.  This module gives the same few
    operations on IEEE binary32 numbers (round to nearest even, each
    operation rounded on its own), so that the properties which could depend
    on rounding are checked on them as well. *)
Module Binary32.

Definition prec : Z := 24.
Definition emax : Z := 128.

(** The float that an [int] converts to. *)
Definition of_int (z : Z) : spec_float := binary_normalize prec emax z 0 false.

(** The float of the decimal literal [n/d]: the quotient of two small
    integers, correctly rounded. *)
Definition literal (n d : Z) : spec_float :=
  SFdiv prec emax (of_int n) (of_int d).

Definition fadd : spec_float -> spec_float -> spec_float := SFadd prec emax.
Definition fsub : spec_float -> spec_float -> spec_float := SFsub prec emax.
Definition fmul : spec_float -> spec_float -> spec_float := SFmul prec emax.
Definition flt : spec_float -> spec_float -> bool := SFltb.
Definition fle : spec_float -> spec_float -> bool := SFleb.
Definition feq : spec_float -> spec_float -> bool := SFeqb.
Definition fabs : spec_float -> spec_float := SFabs.
Definition fopp : spec_float -> spec_float := SFopp.

(** The float just below. *)
Definition fpred : spec_float -> spec_float := SFpred prec emax.

Definition zero : spec_float := S754_zero false.
Definition half : spec_float := S754_finite false 8388608 (-24).
Definition one : spec_float := S754_finite false 8388608 (-23).
Definition two : spec_float := S754_finite false 8388608 (-22).
Definition three : spec_float := S754_finite false 12582912 (-22).

(** A binary32 number in its canonical representation. *)
Definition valid (x : spec_float) : bool := valid_binary prec emax x.

Definition is_nan (x : spec_float) : bool :=
  match x with S754_nan => true | _ => false end.

Definition is_finite (x : spec_float) : bool :=
  match x with S754_zero _ | S754_finite _ _ _ => true | _ => false end.

(** Below the topmost binade, where doubling does not overflow:
    [|x| < 2^127]. *)
Definition below_top (x : spec_float) : bool :=
  match x with S754_finite _ _ e => e <? 104 | _ => true end.

(** [clamp(v, lo, hi)] as in [Common.std_clamp]. *)
Definition clamp (v lo hi : spec_float) : spec_float :=
  if flt v lo then lo else if flt hi v then hi else v.

(** The last line of the chamber reverb's [process]:
    [input[i] * (1.0f - dryWet) + wet * dryWet]. *)
Definition chamber_mix (x wet dryWet : spec_float) : spec_float :=
  fadd (fmul x (fsub one dryWet)) (fmul wet dryWet).

(** The last lines of the Freeverb-style [process]:
    [(outL + outR) * 0.5f * wet * SCALE_WET
     + inSample * dry * SCALE_DRY * 0.5f] for the sum [outL + outR]. *)
Definition freeverb_mix (x sum wet dry : spec_float) : spec_float :=
  fadd (fmul (fmul (fmul sum half) wet) three)
       (fmul (fmul (fmul x dry) two) half).

(** The second half of [binary_round_aux]: the rounded mantissa [m2] at the
    exponent [e1] is shifted once more when the rounding carried into a new
    digit, then classified. *)
Definition round_tail (s : bool) (m2 e1 : Z) : spec_float :=
  let '(mrs, e2) := shr_fexp prec emax m2 e1 loc_Exact in
  match shr_m mrs with
  | Z0 => S754_zero s
  | Zpos m => if e2 <=? emax - prec then S754_finite s m e2 else S754_infinity s
  | Zneg _ => S754_nan
  end.

(** [0.4f + size * 0.45f] of [updateParameters]. *)
Definition baseFeedback (size : spec_float) : spec_float :=
  fadd (literal 4 10) (fmul size (literal 45 100)).

End Binary32.

(* ====================================================================== *)
(** * The chamber reverb (Reverb.h with its Reverb.cpp)                     *)
(* ====================================================================== *)

Module Reverb.

(** [static constexpr float ANTI_DENORMAL = 1e-20f]. *)
Definition ANTI_DENORMAL : Q := 1 # (10 ^ 20).

Definition NUM_EARLY_REFLECTIONS : nat := 8.
Definition NUM_COMB_FILTERS : nat := 6.

(** ** AllpassFilter *)

Record AllpassFilter : Type := mkAllpass {
  ap_buffer : list Q;
  ap_writePos : Z;
  ap_delaySamples : Z;
  ap_feedback : Q
}.

Definition AllpassFilter_new (delaySamples : Z) : AllpassFilter :=
  mkAllpass (repeat 0%Q (Z.to_nat delaySamples)) 0 delaySamples (1 # 2).

Definition AllpassFilter_process (a : AllpassFilter) (input : Q)
  : Q * AllpassFilter :=
  let n := size (ap_buffer a) in
  let readPos := Z.rem (ap_writePos a - ap_delaySamples a + n) n in
  let delayed := rd (ap_buffer a) readPos in
  let output := (- input + delayed + ap_feedback a * (input - delayed))%Q in
  let buffer' :=
    wr (ap_buffer a) (ap_writePos a)
       (clampSample (input + ap_feedback a * delayed) + ANTI_DENORMAL)%Q in
  let writePos' := Z.rem (ap_writePos a + 1) n in
  (output, mkAllpass buffer' writePos' (ap_delaySamples a) (ap_feedback a)).

(** ** DampedCombFilter *)

Record DampedCombFilter : Type := mkComb {
  cf_sampleRate : Z;
  cf_buffer : list Q;
  cf_writePos : Z;
  cf_delaySamples : Z;
  cf_feedback : Q;
  cf_damping : Q;
  cf_damperState : Q;
  cf_modDepthSamples : Q;
  cf_modRate : Q;
  cf_modPhase : Q
}.

(** The constructor draws the starting phase of the modulation from a random
    generator; the drawn value is the argument [phase0]. *)
Definition DampedCombFilter_new (sampleRate : Z) (delayTime phase0 : Q)
  : DampedCombFilter :=
  let n := to_int (delayTime * inject_Z sampleRate) in
  mkComb sampleRate (repeat 0%Q (Z.to_nat n)) 0 n
         (7 # 10) (1 # 2) 0 2 (3 # 10) phase0.

Definition cf_setFeedback (fb : Q) (c : DampedCombFilter) : DampedCombFilter :=
  mkComb (cf_sampleRate c) (cf_buffer c) (cf_writePos c) (cf_delaySamples c)
         fb (cf_damping c) (cf_damperState c) (cf_modDepthSamples c)
         (cf_modRate c) (cf_modPhase c).

Definition cf_setDamping (d : Q) (c : DampedCombFilter) : DampedCombFilter :=
  mkComb (cf_sampleRate c) (cf_buffer c) (cf_writePos c) (cf_delaySamples c)
         (cf_feedback c) d (cf_damperState c) (cf_modDepthSamples c)
         (cf_modRate c) (cf_modPhase c).

Definition DampedCombFilter_process (M : MathLib) (c : DampedCombFilter)
  (input : Q) : Q * DampedCombFilter :=
  let n := size (cf_buffer c) in
  (* Calculate modulated read position *)
  let modOffset := (cf_modDepthSamples c * m_sin M (cf_modPhase c))%Q in
  let phase1 :=
    (cf_modPhase c + TWO_PI M * cf_modRate c / inject_Z (cf_sampleRate c))%Q in
  let modPhase' :=
    if Qltb (TWO_PI M) phase1 then (phase1 - TWO_PI M)%Q else phase1 in
  (* Read from buffer with interpolation *)
  let pos0 :=
    (inject_Z (cf_writePos c) - inject_Z (cf_delaySamples c) + modOffset)%Q in
  let readPosFloat := if Qltb pos0 0 then (pos0 + inject_Z n)%Q else pos0 in
  let readPosInt := Z.rem (to_int readPosFloat) n in
  let readPosNext := Z.rem (readPosInt + 1) n in
  let frac := (readPosFloat - floorf readPosFloat)%Q in
  let delayed :=
    (rd (cf_buffer c) readPosInt * (1 - frac)
     + rd (cf_buffer c) readPosNext * frac)%Q in
  (* Apply damping (one-pole lowpass in feedback path) *)
  let dampingCoeff := (1 - cf_damping c * (1 # 2))%Q in
  let damperState' :=
    (clampSample (dampingCoeff * delayed
                  + (1 - dampingCoeff) * cf_damperState c)
     + ANTI_DENORMAL)%Q in
  (* Comb filter formula *)
  let output := delayed in
  let buffer' :=
    wr (cf_buffer c) (cf_writePos c)
       (clampSample (input + damperState' * cf_feedback c) + ANTI_DENORMAL)%Q in
  let writePos' := Z.rem (cf_writePos c + 1) n in
  (output,
   mkComb (cf_sampleRate c) buffer' writePos' (cf_delaySamples c)
          (cf_feedback c) (cf_damping c) damperState'
          (cf_modDepthSamples c) (cf_modRate c) modPhase').

(** ** ReverbEffect *)

Record ReverbEffect : Type := mkReverb {
  rv_sampleRate : Z;
  earlyReflectionTimes : list Q;
  earlyBuffers : list (list Q);
  earlyWritePos : list Z;
  earlyLevel : Q;
  inputDiffusion : list AllpassFilter;
  outputDiffusion : AllpassFilter;
  combFilters : list DampedCombFilter;
  rv_size : Q;
  rv_dryWet : Q;
  rv_damping : Q;
  earlyBuffer : list Q;
  diffusedBuffer : list Q;
  combOutputBuffer : list Q
}.

Definition with_combFilters (cs : list DampedCombFilter) (r : ReverbEffect)
  : ReverbEffect :=
  mkReverb (rv_sampleRate r) (earlyReflectionTimes r) (earlyBuffers r)
           (earlyWritePos r) (earlyLevel r) (inputDiffusion r)
           (outputDiffusion r) cs (rv_size r) (rv_dryWet r) (rv_damping r)
           (earlyBuffer r) (diffusedBuffer r) (combOutputBuffer r).

Definition with_size (s : Q) (r : ReverbEffect) : ReverbEffect :=
  mkReverb (rv_sampleRate r) (earlyReflectionTimes r) (earlyBuffers r)
           (earlyWritePos r) (earlyLevel r) (inputDiffusion r)
           (outputDiffusion r) (combFilters r) s (rv_dryWet r) (rv_damping r)
           (earlyBuffer r) (diffusedBuffer r) (combOutputBuffer r).

Definition with_dryWet (m : Q) (r : ReverbEffect) : ReverbEffect :=
  mkReverb (rv_sampleRate r) (earlyReflectionTimes r) (earlyBuffers r)
           (earlyWritePos r) (earlyLevel r) (inputDiffusion r)
           (outputDiffusion r) (combFilters r) (rv_size r) m (rv_damping r)
           (earlyBuffer r) (diffusedBuffer r) (combOutputBuffer r).

Definition with_damping (d : Q) (r : ReverbEffect) : ReverbEffect :=
  mkReverb (rv_sampleRate r) (earlyReflectionTimes r) (earlyBuffers r)
           (earlyWritePos r) (earlyLevel r) (inputDiffusion r)
           (outputDiffusion r) (combFilters r) (rv_size r) (rv_dryWet r) d
           (earlyBuffer r) (diffusedBuffer r) (combOutputBuffer r).

Definition updateParameters (r : ReverbEffect) : ReverbEffect :=
  (* Size controls feedback (decay time) *)
  let baseFeedback := ((4 # 10) + rv_size r * (45 # 100))%Q in
  with_combFilters
    (map (fun comb => cf_setDamping (rv_damping r) (cf_setFeedback baseFeedback comb))
         (combFilters r))
    r.

Definition combDelayTimes : list Q :=
  [297 # 10000; 371 # 10000; 411 # 10000; 437 # 10000; 503 # 10000;
   571 # 10000]%Q.

(** The constructor; [phases] are the six starting phases drawn for the comb
    filters. *)
Definition ReverbEffect_new (sampleRate : Z) (phases : list Q) : ReverbEffect :=
  let times := [13 # 1000; 19 # 1000; 23 # 1000; 29 # 1000; 37 # 1000;
                43 # 1000; 51 # 1000; 59 # 1000]%Q in
  let maxBufferSize := 1024%nat in
  updateParameters
    (mkReverb sampleRate times
       (map (fun t => repeat 0%Q (Z.to_nat (to_int (t * inject_Z sampleRate))))
            times)
       (repeat 0 NUM_EARLY_REFLECTIONS)
       (15 # 100)
       [AllpassFilter_new (to_int ((5 # 1000) * inject_Z sampleRate));
        AllpassFilter_new (to_int ((89 # 10000) * inject_Z sampleRate))]
       (AllpassFilter_new (to_int ((67 # 10000) * inject_Z sampleRate)))
       (map (fun i => DampedCombFilter_new sampleRate
                        (nth i combDelayTimes 0%Q) (nth i phases 0%Q))
            (seq 0 NUM_COMB_FILTERS))
       (1 # 2) 0 (1 # 2)
       (repeat 0%Q maxBufferSize) (repeat 0%Q maxBufferSize)
       (repeat 0%Q maxBufferSize)).

(** One pass of the inner loop of [processEarlyReflections] over the eight
    tap buffers, for the input sample [x]: the state is the sum so far, the
    buffers and the write positions. *)
Definition earlyTap (x : Q) (j : Z) (st : Q * list (list Q) * list Z)
  : Q * list (list Q) * list Z :=
  let '(earlySum, bufs, wps) := st in
  let buf := nth (Z.to_nat j) bufs [] in
  let wPos := nth (Z.to_nat j) wps 0 in
  (* Read delayed sample *)
  let earlySum' := (earlySum + rd buf wPos)%Q in
  (* Write input with attenuation *)
  let attenuation := ((7 # 10) - inject_Z j * (5 # 100))%Q in
  let buf' := wr buf wPos (clampSample (x * attenuation)) in
  (* Advance write position *)
  let wPos' := Z.rem (wPos + 1) (size buf) in
  (earlySum', upd (Z.to_nat j) buf' bufs, upd (Z.to_nat j) wPos' wps).

(** [processEarlyReflections(input, output, numSamples)] with
    [output = earlyBuffer.data()]. *)
Definition processEarlyReflections (r : ReverbEffect) (input : list Q)
  (numSamples : nat) : ReverbEffect :=
  let step (i : Z) (st : list (list Q) * list Z * list Q) :=
    let '(bufs, wps, out) := st in
    let '(earlySum, bufs', wps') :=
      for_loop NUM_EARLY_REFLECTIONS (earlyTap (rd input i)) (0%Q, bufs, wps) in
    (bufs', wps',
     wr out i (earlySum / inject_Z (Z.of_nat NUM_EARLY_REFLECTIONS))%Q) in
  let '(bufs, wps, out) :=
    for_loop numSamples step (earlyBuffers r, earlyWritePos r, earlyBuffer r) in
  mkReverb (rv_sampleRate r) (earlyReflectionTimes r) bufs wps (earlyLevel r)
           (inputDiffusion r) (outputDiffusion r) (combFilters r) (rv_size r)
           (rv_dryWet r) (rv_damping r) out (diffusedBuffer r)
           (combOutputBuffer r).

(** Passing one sample through a chain of allpass filters, each filter taking
    the output of the one before. *)
Fixpoint allpass_chain (aps : list AllpassFilter) (x : Q)
  : Q * list AllpassFilter :=
  match aps with
  | [] => (x, [])
  | a :: rest =>
      let '(y, a') := AllpassFilter_process a x in
      let '(z, rest') := allpass_chain rest y in
      (z, a' :: rest')
  end.

(** Feeding one sample to every comb filter and summing the outputs. *)
Fixpoint comb_bank (M : MathLib) (cs : list DampedCombFilter) (x : Q)
  (combSum : Q) : Q * list DampedCombFilter :=
  match cs with
  | [] => (combSum, [])
  | c :: rest =>
      let '(y, c') := DampedCombFilter_process M c x in
      let '(s, rest') := comb_bank M rest x (combSum + y)%Q in
      (s, c' :: rest')
  end.

(** [ReverbEffect::process(input, output, numSamples)]: the samples written
    to [output[0 .. numSamples)] and the reverb afterwards.  [input] and
    [output] are distinct buffers at the engine's call. *)
Definition process (M : MathLib) (r : ReverbEffect) (input : list Q)
  (numSamples : nat) : list Q * ReverbEffect :=
  (* Resize work buffers if needed *)
  let r1 :=
    if (length (earlyBuffer r) <? numSamples)%nat then
      mkReverb (rv_sampleRate r) (earlyReflectionTimes r) (earlyBuffers r)
               (earlyWritePos r) (earlyLevel r) (inputDiffusion r)
               (outputDiffusion r) (combFilters r) (rv_size r) (rv_dryWet r)
               (rv_damping r)
               (resize (earlyBuffer r) numSamples)
               (resize (diffusedBuffer r) numSamples)
               (resize (combOutputBuffer r) numSamples)
    else r in
  (* Early reflections *)
  let r2 := processEarlyReflections r1 input numSamples in
  (* Copy input for diffusion processing *)
  let diffused0 := copy_into numSamples input (diffusedBuffer r2) in
  (* Process through input diffusion (allpass filters) *)
  let '(diffused, inDiff) :=
    for_loop numSamples
      (fun i (st : list Q * list AllpassFilter) =>
         let '(buf, aps) := st in
         let '(y, aps') := allpass_chain aps (rd buf i) in
         (wr buf i y, aps'))
      (diffused0, inputDiffusion r2) in
  (* Process through parallel comb filters *)
  let '(combOut0, combs) :=
    for_loop numSamples
      (fun i (st : list Q * list DampedCombFilter) =>
         let '(buf, cs) := st in
         let '(combSum, cs') := comb_bank M cs (rd diffused i) 0%Q in
         (wr buf i (combSum / inject_Z (Z.of_nat NUM_COMB_FILTERS))%Q, cs'))
      (combOutputBuffer r2, combFilters r2) in
  (* Output diffusion *)
  let '(combOut, outDiff) :=
    for_loop numSamples
      (fun i (st : list Q * AllpassFilter) =>
         let '(buf, ap) := st in
         let '(y, ap') := AllpassFilter_process ap (rd buf i) in
         (wr buf i y, ap'))
      (combOut0, outputDiffusion r2) in
  (* Combine early reflections and reverb tail, mix with dry *)
  let output :=
    map (fun k =>
           let i := Z.of_nat k in
           let wet := (rd (earlyBuffer r2) i * earlyLevel r2 + rd combOut i)%Q in
           (rd input i * (1 - rv_dryWet r2) + wet * rv_dryWet r2)%Q)
        (seq 0 numSamples) in
  (output,
   mkReverb (rv_sampleRate r2) (earlyReflectionTimes r2) (earlyBuffers r2)
            (earlyWritePos r2) (earlyLevel r2) inDiff outDiff combs
            (rv_size r2) (rv_dryWet r2) (rv_damping r2)
            (earlyBuffer r2) diffused combOut).

Definition setSize (s : Q) (r : ReverbEffect) : ReverbEffect :=
  updateParameters (with_size (std_clamp s 0 1) r).

Definition setDryWet (mix : Q) (r : ReverbEffect) : ReverbEffect :=
  with_dryWet (std_clamp mix 0 1) r.

Definition setDamping (damp : Q) (r : ReverbEffect) : ReverbEffect :=
  updateParameters (with_damping (std_clamp damp 0 1) r).

Definition getSize (r : ReverbEffect) : Q := rv_size r.
Definition getDryWet (r : ReverbEffect) : Q := rv_dryWet r.

(** The dry/wet mix is 0. *)
Definition chamber_dry (r : ReverbEffect) : Prop := (getDryWet r == 0)%Q.

End Reverb.

(* ====================================================================== *)
(** * The Freeverb-style reverb (the other Reverb.cpp and its header)       *)
(* ====================================================================== *)

Module Freeverb.

Definition NUM_COMBS : nat := 8.
Definition NUM_ALLPASS : nat := 4.
Definition COMB_LENGTHS : list Z := [1116; 1188; 1277; 1356; 1422; 1491; 1557; 1617].
Definition ALLPASS_LENGTHS : list Z := [556; 441; 341; 225].
Definition STEREO_SPREAD : Z := 23.
Definition FIXED_GAIN : Q := 15 # 1000.
Definition SCALE_WET : Q := 3.
Definition SCALE_DRY : Q := 2.
Definition SCALE_DAMP : Q := 4 # 10.
Definition SCALE_ROOM : Q := 28 # 100.
Definition OFFSET_ROOM : Q := 7 # 10.

(** [std::abs] on floats. *)
Definition fabs (x : Q) : Q := Qabs x.

Record CombFilter : Type := mkComb {
  cb_buffer : list Q;
  cb_bufferSize : Z;
  cb_index : Z;
  cb_filterStore : Q
}.

Definition CombFilter_init (n : Z) : CombFilter :=
  mkComb (repeat 0%Q (Z.to_nat n)) n 0 0.

Definition CombFilter_process (c : CombFilter) (input feedback damp1 damp2 : Q)
  : Q * CombFilter :=
  let output := rd (cb_buffer c) (cb_index c) in
  (* One-pole lowpass in feedback path (damping) *)
  let store1 := (output * damp2 + cb_filterStore c * damp1)%Q in
  (* Clamp tiny values to zero (prevent denormals) *)
  let store := if Qltb (fabs store1) (1 # 10 ^ 10) then 0%Q else store1 in
  (* Write new sample *)
  let buffer' := wr (cb_buffer c) (cb_index c) (input + store * feedback)%Q in
  (* Advance index *)
  let index' := if cb_bufferSize c <=? cb_index c + 1 then 0 else cb_index c + 1 in
  (output, mkComb buffer' (cb_bufferSize c) index' store).

Record AllpassFilter : Type := mkAllpass {
  al_buffer : list Q;
  al_bufferSize : Z;
  al_index : Z
}.

Definition AllpassFilter_init (n : Z) : AllpassFilter :=
  mkAllpass (repeat 0%Q (Z.to_nat n)) n 0.

Definition AllpassFilter_process (a : AllpassFilter) (input : Q)
  : Q * AllpassFilter :=
  let bufOut := rd (al_buffer a) (al_index a) in
  (* Standard allpass with fixed feedback of 0.5 *)
  let output := (- input + bufOut)%Q in
  let w := (input + bufOut * (1 # 2))%Q in
  (* Clamp tiny values *)
  let w' := if Qltb (fabs w) (1 # 10 ^ 10) then 0%Q else w in
  let buffer' := wr (al_buffer a) (al_index a) w' in
  let index' := if al_bufferSize a <=? al_index a + 1 then 0 else al_index a + 1 in
  (output, mkAllpass buffer' (al_bufferSize a) index').

Record ReverbEffect : Type := mkReverb {
  fv_sampleRate : Z;
  combL : list CombFilter;
  combR : list CombFilter;
  allpassL : list AllpassFilter;
  allpassR : list AllpassFilter;
  roomSize : Q;
  fv_damping : Q;
  wet : Q;
  wet1 : Q;
  wet2 : Q;
  dry : Q;
  width : Q;
  fv_feedback : Q;
  damp1 : Q;
  damp2 : Q;
  workBuffer : list Q
}.

Definition updateCoefficients (r : ReverbEffect) : ReverbEffect :=
  (* Calculate feedback from room size *)
  let fb0 := (roomSize r * SCALE_ROOM + OFFSET_ROOM)%Q in
  (* Clamp feedback to prevent runaway *)
  let fb := if Qltb (98 # 100) fb0 then (98 # 100)%Q else fb0 in
  (* Calculate damping coefficients *)
  let d1 := (fv_damping r * SCALE_DAMP)%Q in
  let d2 := (1 - d1)%Q in
  (* Calculate wet gains for stereo *)
  let w1 := (wet r * (width r / 2 + (1 # 2)))%Q in
  let w2 := (wet r * ((1 - width r) / 2))%Q in
  mkReverb (fv_sampleRate r) (combL r) (combR r) (allpassL r) (allpassR r)
           (roomSize r) (fv_damping r) (wet r) w1 w2 (dry r) (width r)
           fb d1 d2 (workBuffer r).

Definition ReverbEffect_new (sampleRate : Z) : ReverbEffect :=
  (* Scale delay lengths for sample rate *)
  let scale := (inject_Z sampleRate / 44100)%Q in
  let len (n : Z) := to_int (inject_Z n * scale) in
  updateCoefficients
    (mkReverb sampleRate
       (map (fun n => CombFilter_init (len n)) COMB_LENGTHS)
       (map (fun n => CombFilter_init (len n + STEREO_SPREAD)) COMB_LENGTHS)
       (map (fun n => AllpassFilter_init (len n)) ALLPASS_LENGTHS)
       (map (fun n => AllpassFilter_init (len n + STEREO_SPREAD)) ALLPASS_LENGTHS)
       (1 # 2) (1 # 2) 0 0 0 1 1 0 0 0 (repeat 0%Q 1024)).

(** The filters and the two running sums during one sample of [process]. *)
Record Lanes : Type := mkLanes {
  outL : Q;
  outR : Q;
  ln_combL : list CombFilter;
  ln_combR : list CombFilter;
  ln_allpassL : list AllpassFilter;
  ln_allpassR : list AllpassFilter
}.

(** Body of the loop over the parallel comb filters. *)
Definition comb_step (scaledInput feedback d1 d2 : Q) (c : Z) (s : Lanes)
  : Lanes :=
  let k := Z.to_nat c in
  let '(yl, cl) :=
    CombFilter_process (nth k (ln_combL s) (CombFilter_init 0))
                       scaledInput feedback d1 d2 in
  let '(yr, cr) :=
    CombFilter_process (nth k (ln_combR s) (CombFilter_init 0))
                       scaledInput feedback d1 d2 in
  mkLanes (outL s + yl)%Q (outR s + yr)%Q
          (upd k cl (ln_combL s)) (upd k cr (ln_combR s))
          (ln_allpassL s) (ln_allpassR s).

(** Body of the loop over the series allpass filters. *)
Definition allpass_step (a : Z) (s : Lanes) : Lanes :=
  let k := Z.to_nat a in
  let '(yl, al) :=
    AllpassFilter_process (nth k (ln_allpassL s) (AllpassFilter_init 0)) (outL s) in
  let '(yr, ar) :=
    AllpassFilter_process (nth k (ln_allpassR s) (AllpassFilter_init 0)) (outR s) in
  mkLanes yl yr (ln_combL s) (ln_combR s)
          (upd k al (ln_allpassL s)) (upd k ar (ln_allpassR s)).

(** The body of the sample loop of [process]: the output sample for the
    input sample [inSample], and the filters afterwards. *)
Definition process_sample (r : ReverbEffect) (inSample : Q) : Q * ReverbEffect :=
  (* Input gain *)
  let scaledInput := (inSample * FIXED_GAIN)%Q in
  (* Parallel comb filters *)
  let s1 :=
    for_loop NUM_COMBS
      (comb_step scaledInput (fv_feedback r) (damp1 r) (damp2 r))
      (mkLanes 0 0 (combL r) (combR r) (allpassL r) (allpassR r)) in
  (* Series allpass filters for diffusion *)
  let s2 := for_loop NUM_ALLPASS allpass_step s1 in
  (* Mix wet/dry (output is mono, so average L+R) *)
  let wetMix := ((outL s2 + outR s2) * (1 # 2) * wet r * SCALE_WET)%Q in
  let dryMix := (inSample * dry r * SCALE_DRY * (1 # 2))%Q in
  ((wetMix + dryMix)%Q,
   mkReverb (fv_sampleRate r) (ln_combL s2) (ln_combR s2) (ln_allpassL s2)
            (ln_allpassR s2) (roomSize r) (fv_damping r) (wet r) (wet1 r)
            (wet2 r) (dry r) (width r) (fv_feedback r) (damp1 r) (damp2 r)
            (workBuffer r)).

(** [ReverbEffect::process(input, output, numSamples)]: the samples written
    to [output[0 .. numSamples)] and the reverb afterwards. *)
Definition process (r : ReverbEffect) (input : list Q) (numSamples : nat)
  : list Q * ReverbEffect :=
  for_loop numSamples
    (fun i (st : list Q * ReverbEffect) =>
       let '(out, r0) := st in
       let '(y, r1) := process_sample r0 (rd input i) in
       (out ++ [y], r1))
    ([], r).

Definition with_params (rs dm w d wd : Q) (r : ReverbEffect) : ReverbEffect :=
  mkReverb (fv_sampleRate r) (combL r) (combR r) (allpassL r) (allpassR r)
           rs dm w (wet1 r) (wet2 r) d wd (fv_feedback r) (damp1 r) (damp2 r)
           (workBuffer r).

Definition setSize (size : Q) (r : ReverbEffect) : ReverbEffect :=
  updateCoefficients
    (with_params (std_clamp size 0 1) (fv_damping r) (wet r) (dry r) (width r) r).

Definition setDryWet (mix : Q) (r : ReverbEffect) : ReverbEffect :=
  let w := std_clamp mix 0 1 in
  updateCoefficients
    (with_params (roomSize r) (fv_damping r) w (1 - w)%Q (width r) r).

Definition setDamping (damp : Q) (r : ReverbEffect) : ReverbEffect :=
  updateCoefficients
    (with_params (roomSize r) (std_clamp damp 0 1) (wet r) (dry r) (width r) r).

Definition setWidth (w : Q) (r : ReverbEffect) : ReverbEffect :=
  updateCoefficients
    (with_params (roomSize r) (fv_damping r) (wet r) (dry r) (std_clamp w 0 1) r).

Definition getSize (r : ReverbEffect) : Q := roomSize r.
Definition getDryWet (r : ReverbEffect) : Q := wet r.

(** The dry/wet mix is 0; the dry gain [1 - wet] is kept in a field of its
    own. *)
Definition freeverb_dry (fr : ReverbEffect) : Prop :=
  (getDryWet fr == 0 /\ dry fr == 1)%Q.

End Freeverb.

(* ====================================================================== *)
(** * DSP primitives whose sources are not at hand                          *)
(* ====================================================================== *)

Module Dsp.

(** The constructors below start every field whose initial value the spec
    does not give at zero; the engine's constructor then sets the values it
    configures. *)

(** Modelled from the spec: class [Oscillator] (DSP/Oscillator.h), "phase in
    [0,1); frequency (Hz); waveform", with setters that store their
    argument and [resetPhase()]. *)
Record Oscillator : Type := mkOsc {
  osc_sampleRate : Z;
  osc_frequency : Q;
  osc_phase : Q;
  osc_waveform : Waveform
}.

Definition Oscillator_new (sampleRate : Z) : Oscillator :=
  mkOsc sampleRate 0 0 Sine.
Definition osc_setFrequency (f : Q) (o : Oscillator) : Oscillator :=
  mkOsc (osc_sampleRate o) f (osc_phase o) (osc_waveform o).
Definition osc_setWaveform (w : Waveform) (o : Oscillator) : Oscillator :=
  mkOsc (osc_sampleRate o) (osc_frequency o) (osc_phase o) w.
Definition osc_resetPhase (o : Oscillator) : Oscillator :=
  mkOsc (osc_sampleRate o) (osc_frequency o) 0 (osc_waveform o).

(** Modelled from the spec: class [LFO] (DSP/LFO.h), "identical generation to
    Oscillator", with a depth that scales the output. *)
Record LFO : Type := mkLfo {
  lfo_sampleRate : Z;
  lfo_frequency : Q;
  lfo_depth : Q;
  lfo_phase : Q;
  lfo_waveform : Waveform
}.

Definition LFO_new (sampleRate : Z) : LFO := mkLfo sampleRate 0 0 0 Sine.
Definition lfo_setFrequency (f : Q) (l : LFO) : LFO :=
  mkLfo (lfo_sampleRate l) f (lfo_depth l) (lfo_phase l) (lfo_waveform l).
Definition lfo_setDepth (d : Q) (l : LFO) : LFO :=
  mkLfo (lfo_sampleRate l) (lfo_frequency l) d (lfo_phase l) (lfo_waveform l).
Definition lfo_setWaveform (w : Waveform) (l : LFO) : LFO :=
  mkLfo (lfo_sampleRate l) (lfo_frequency l) (lfo_depth l) (lfo_phase l) w.

(** Modelled from the spec: class [Envelope] (DSP/Envelope.h), "stage in
    {Idle, Attack, Sustain, Release}; current level; attack/release times
    (seconds)"; [trigger()] jumps to Attack and [release()] to Release from
    the current level, a release while Idle being a no-op. *)
Inductive Stage : Type := Idle | Attack | Sustain | Release.

Record Envelope : Type := mkEnv {
  env_sampleRate : Z;
  env_stage : Stage;
  env_level : Q;
  env_attack : Q;
  env_release : Q
}.

Definition Envelope_new (sampleRate : Z) : Envelope :=
  mkEnv sampleRate Idle 0 0 0.
Definition env_setAttack (t : Q) (e : Envelope) : Envelope :=
  mkEnv (env_sampleRate e) (env_stage e) (env_level e) t (env_release e).
Definition env_setRelease (t : Q) (e : Envelope) : Envelope :=
  mkEnv (env_sampleRate e) (env_stage e) (env_level e) (env_attack e) t.
Definition env_trigger (e : Envelope) : Envelope :=
  mkEnv (env_sampleRate e) Attack (env_level e) (env_attack e) (env_release e).
Definition env_do_release (e : Envelope) : Envelope :=
  match env_stage e with
  | Idle => e
  | _ => mkEnv (env_sampleRate e) Release (env_level e) (env_attack e)
               (env_release e)
  end.

(** Modelled from the spec: class [LowPassFilter] (DSP/Filter.h), "cutoff;
    resonance; internal z^-1 state", [setCutoff(fc)] clamped to
    [20, SR/2 * 0.9] and [setResonance(q)] clamped to [0, 0.95]. *)
Record LowPassFilter : Type := mkFilter {
  lp_sampleRate : Z;
  lp_cutoff : Q;
  lp_resonance : Q;
  lp_y1 : Q;
  lp_y2 : Q
}.

Definition LowPassFilter_new (sampleRate : Z) : LowPassFilter :=
  mkFilter sampleRate 0 0 0 0.
Definition lp_setCutoff (fc : Q) (f : LowPassFilter) : LowPassFilter :=
  mkFilter (lp_sampleRate f)
           (clamp fc 20 (inject_Z (lp_sampleRate f) / 2 * (9 # 10)))
           (lp_resonance f) (lp_y1 f) (lp_y2 f).
Definition lp_getCutoff (f : LowPassFilter) : Q := lp_cutoff f.
Definition lp_setResonance (q : Q) (f : LowPassFilter) : LowPassFilter :=
  mkFilter (lp_sampleRate f) (lp_cutoff f) (clamp q 0 (95 # 100))
           (lp_y1 f) (lp_y2 f).

(** Modelled from the spec: class [DelayEffect] (DSP/Delay.h), "circular
    float buffer; writePos; delayTime; feedback; dryWet", [setDelayTime(t)]
    clamped to [0.001, 2.0], [setFeedback(g)] to [0, 0.95] and
    [setDryWet(m)] to [0, 1]. *)
Record DelayEffect : Type := mkDelay {
  dl_sampleRate : Z;
  dl_buffer : list Q;
  dl_writePos : Z;
  dl_delayTime : Q;
  dl_feedback : Q;
  dl_dryWet : Q
}.

Definition DelayEffect_new (sampleRate : Z) : DelayEffect :=
  mkDelay sampleRate (repeat 0%Q (Z.to_nat (2 * sampleRate))) 0 0 0 0.
Definition dl_setDelayTime (t : Q) (d : DelayEffect) : DelayEffect :=
  mkDelay (dl_sampleRate d) (dl_buffer d) (dl_writePos d)
          (clamp t (1 # 1000) 2) (dl_feedback d) (dl_dryWet d).
Definition dl_setFeedback (g : Q) (d : DelayEffect) : DelayEffect :=
  mkDelay (dl_sampleRate d) (dl_buffer d) (dl_writePos d) (dl_delayTime d)
          (clamp g 0 (95 # 100)) (dl_dryWet d).
Definition dl_setDryWet (m : Q) (d : DelayEffect) : DelayEffect :=
  mkDelay (dl_sampleRate d) (dl_buffer d) (dl_writePos d) (dl_delayTime d)
          (dl_feedback d) (clamp m 0 1).

(** Modelled from the spec: class [DCBlocker] (DSP/Filter.h),
    "y[n] = x[n] - x[n-1] + 0.995 * y[n-1]". *)
Record DCBlocker : Type := mkDc { dc_x1 : Q; dc_y1 : Q }.

Definition DCBlocker_new : DCBlocker := mkDc 0 0.

Definition dc_processSample (d : DCBlocker) (x : Q) : Q * DCBlocker :=
  let y := (x - dc_x1 d + (995 # 1000) * dc_y1 d)%Q in
  (y, mkDc x y).

Fixpoint dc_process (d : DCBlocker) (input : list Q) : list Q * DCBlocker :=
  match input with
  | [] => ([], d)
  | x :: rest =>
      let '(y, d1) := dc_processSample d x in
      let '(ys, d2) := dc_process d1 rest in
      (y :: ys, d2)
  end.

(** The sample generation of the primitives above involves [sin], [exp] and
    [tanh] and is not part of the sources at hand.  The engine is embedded
    over any choice of these kernels; a block kernel yields the samples it
    writes, of which the engine uses the first [numFrames]. *)
Record Kernels : Type := mkKernels {
  math : MathLib;
  osc_generateSample : Oscillator -> Q * Oscillator;
  lfo_generate : LFO -> nat -> list Q * LFO;
  env_generate : Envelope -> nat -> list Q * Envelope;
  lp_processSample : LowPassFilter -> Q -> Q * LowPassFilter;
  dl_process : DelayEffect -> list Q -> nat -> list Q * DelayEffect
}.

End Dsp.
Export Dsp.

(* ====================================================================== *)
(** * AudioEngine (AudioEngine.h, AudioEngine.cpp)                          *)
(* ====================================================================== *)

Module AudioEngine.

Record AudioEngine : Type := mkEngine {
  sampleRate : Z;
  bufferSize : Z;
  (* DSP components *)
  oscillator : Oscillator;
  lfo : LFO;
  envelope : Envelope;
  filter : LowPassFilter;
  dcBlocker : DCBlocker;
  delay : DelayEffect;
  reverb : Reverb.ReverbEffect;
  (* Thread-safe parameters *)
  volume : AudioParameter Q;
  baseFrequency : AudioParameter Q;
  pitchEnvMode : AudioParameter PitchEnvelopeMode;
  (* Internal state *)
  currentFrequency : Q;
  frequencySmooth : SmoothedValue;
  (* Temporary buffers *)
  oscBuffer : list Q;
  envBuffer : list Q;
  lfoBuffer : list Q;
  filterBuffer : list Q;
  delayBuffer : list Q
}.

Definition with_oscillator (x : Oscillator) (e : AudioEngine) : AudioEngine :=
  mkEngine (sampleRate e) (bufferSize e) x (lfo e) (envelope e) (filter e)
    (dcBlocker e) (delay e) (reverb e) (volume e) (baseFrequency e)
    (pitchEnvMode e) (currentFrequency e) (frequencySmooth e) (oscBuffer e)
    (envBuffer e) (lfoBuffer e) (filterBuffer e) (delayBuffer e).

Definition with_lfo (x : LFO) (e : AudioEngine) : AudioEngine :=
  mkEngine (sampleRate e) (bufferSize e) (oscillator e) x (envelope e)
    (filter e) (dcBlocker e) (delay e) (reverb e) (volume e) (baseFrequency e)
    (pitchEnvMode e) (currentFrequency e) (frequencySmooth e) (oscBuffer e)
    (envBuffer e) (lfoBuffer e) (filterBuffer e) (delayBuffer e).

Definition with_envelope (x : Envelope) (e : AudioEngine) : AudioEngine :=
  mkEngine (sampleRate e) (bufferSize e) (oscillator e) (lfo e) x (filter e)
    (dcBlocker e) (delay e) (reverb e) (volume e) (baseFrequency e)
    (pitchEnvMode e) (currentFrequency e) (frequencySmooth e) (oscBuffer e)
    (envBuffer e) (lfoBuffer e) (filterBuffer e) (delayBuffer e).

Definition with_filter (x : LowPassFilter) (e : AudioEngine) : AudioEngine :=
  mkEngine (sampleRate e) (bufferSize e) (oscillator e) (lfo e) (envelope e) x
    (dcBlocker e) (delay e) (reverb e) (volume e) (baseFrequency e)
    (pitchEnvMode e) (currentFrequency e) (frequencySmooth e) (oscBuffer e)
    (envBuffer e) (lfoBuffer e) (filterBuffer e) (delayBuffer e).

Definition with_delay (x : DelayEffect) (e : AudioEngine) : AudioEngine :=
  mkEngine (sampleRate e) (bufferSize e) (oscillator e) (lfo e) (envelope e)
    (filter e) (dcBlocker e) x (reverb e) (volume e) (baseFrequency e)
    (pitchEnvMode e) (currentFrequency e) (frequencySmooth e) (oscBuffer e)
    (envBuffer e) (lfoBuffer e) (filterBuffer e) (delayBuffer e).

Definition with_reverb (x : Reverb.ReverbEffect) (e : AudioEngine) : AudioEngine :=
  mkEngine (sampleRate e) (bufferSize e) (oscillator e) (lfo e) (envelope e)
    (filter e) (dcBlocker e) (delay e) x (volume e) (baseFrequency e)
    (pitchEnvMode e) (currentFrequency e) (frequencySmooth e) (oscBuffer e)
    (envBuffer e) (lfoBuffer e) (filterBuffer e) (delayBuffer e).

Definition with_volume (x : AudioParameter Q) (e : AudioEngine) : AudioEngine :=
  mkEngine (sampleRate e) (bufferSize e) (oscillator e) (lfo e) (envelope e)
    (filter e) (dcBlocker e) (delay e) (reverb e) x (baseFrequency e)
    (pitchEnvMode e) (currentFrequency e) (frequencySmooth e) (oscBuffer e)
    (envBuffer e) (lfoBuffer e) (filterBuffer e) (delayBuffer e).

Definition with_baseFrequency (x : AudioParameter Q) (e : AudioEngine)
  : AudioEngine :=
  mkEngine (sampleRate e) (bufferSize e) (oscillator e) (lfo e) (envelope e)
    (filter e) (dcBlocker e) (delay e) (reverb e) (volume e) x
    (pitchEnvMode e) (currentFrequency e) (frequencySmooth e) (oscBuffer e)
    (envBuffer e) (lfoBuffer e) (filterBuffer e) (delayBuffer e).

Definition with_pitchEnvMode (x : AudioParameter PitchEnvelopeMode)
  (e : AudioEngine) : AudioEngine :=
  mkEngine (sampleRate e) (bufferSize e) (oscillator e) (lfo e) (envelope e)
    (filter e) (dcBlocker e) (delay e) (reverb e) (volume e) (baseFrequency e)
    x (currentFrequency e) (frequencySmooth e) (oscBuffer e)
    (envBuffer e) (lfoBuffer e) (filterBuffer e) (delayBuffer e).

(** ** Parameter setters and getters *)

Definition setVolume (vol : Q) (e : AudioEngine) : AudioEngine :=
  with_volume (param_set (clamp vol 0 1) (volume e)) e.

Definition setFrequency (freq : Q) (e : AudioEngine) : AudioEngine :=
  with_baseFrequency (param_set (clamp freq 20 20000) (baseFrequency e)) e.

Definition setWaveform (wf : Waveform) (e : AudioEngine) : AudioEngine :=
  with_oscillator (osc_setWaveform wf (oscillator e)) e.

(** [setWaveform(int index)]. *)
Definition setWaveform_int (index : Z) (e : AudioEngine) : AudioEngine :=
  setWaveform (static_cast_Waveform (Z.rem index 4)) e.

Definition setAttackTime (seconds : Q) (e : AudioEngine) : AudioEngine :=
  with_envelope (env_setAttack seconds (envelope e)) e.

Definition setReleaseTime (seconds : Q) (e : AudioEngine) : AudioEngine :=
  with_envelope (env_setRelease seconds (envelope e)) e.

Definition setLfoRate (rate : Q) (e : AudioEngine) : AudioEngine :=
  with_lfo (lfo_setFrequency rate (lfo e)) e.

Definition setLfoDepth (depth : Q) (e : AudioEngine) : AudioEngine :=
  with_lfo (lfo_setDepth depth (lfo e)) e.

Definition setLfoWaveform (wf : Waveform) (e : AudioEngine) : AudioEngine :=
  with_lfo (lfo_setWaveform wf (lfo e)) e.

(** [setLfoWaveform(int index)]. *)
Definition setLfoWaveform_int (index : Z) (e : AudioEngine) : AudioEngine :=
  setLfoWaveform (static_cast_Waveform (Z.rem index 4)) e.

Definition setFilterCutoff (freq : Q) (e : AudioEngine) : AudioEngine :=
  with_filter (lp_setCutoff freq (filter e)) e.

Definition setFilterResonance (res : Q) (e : AudioEngine) : AudioEngine :=
  with_filter (lp_setResonance res (filter e)) e.

Definition setDelayTime (seconds : Q) (e : AudioEngine) : AudioEngine :=
  with_delay (dl_setDelayTime seconds (delay e)) e.

Definition setDelayFeedback (feedback : Q) (e : AudioEngine) : AudioEngine :=
  with_delay (dl_setFeedback feedback (delay e)) e.

Definition setDelayMix (mix : Q) (e : AudioEngine) : AudioEngine :=
  with_delay (dl_setDryWet mix (delay e)) e.

Definition setReverbSize (size : Q) (e : AudioEngine) : AudioEngine :=
  with_reverb (Reverb.setSize size (reverb e)) e.

Definition setReverbMix (mix : Q) (e : AudioEngine) : AudioEngine :=
  with_reverb (Reverb.setDryWet mix (reverb e)) e.

Definition setReverbDamping (damping : Q) (e : AudioEngine) : AudioEngine :=
  with_reverb (Reverb.setDamping damping (reverb e)) e.

Definition setPitchEnvelopeMode (mode : PitchEnvelopeMode) (e : AudioEngine)
  : AudioEngine :=
  with_pitchEnvMode (param_set mode (pitchEnvMode e)) e.

Definition getVolume (e : AudioEngine) : Q := param_get (volume e).
Definition getFrequency (e : AudioEngine) : Q := param_get (baseFrequency e).
Definition getPitchEnvelopeMode (e : AudioEngine) : PitchEnvelopeMode :=
  param_get (pitchEnvMode e).

(** The waveform tags selected in the oscillator and in the LFO. *)
Definition waveformTag (e : AudioEngine) : Z := tag (osc_waveform (oscillator e)).
Definition lfoWaveformTag (e : AudioEngine) : Z := tag (lfo_waveform (lfo e)).

(** ** Trigger, release and the pitch-envelope mode *)

Definition trigger (e : AudioEngine) : AudioEngine :=
  let e1 := with_oscillator (osc_resetPhase (oscillator e)) e in
  with_envelope (env_trigger (envelope e1)) e1.

Definition release (e : AudioEngine) : AudioEngine :=
  with_envelope (env_do_release (envelope e)) e.

(** [cyclePitchEnvelope()]: the name it returns and the engine afterwards. *)
Definition cyclePitchEnvelope (e : AudioEngine) : string * AudioEngine :=
  let current := param_get (pitchEnvMode e) in
  let next :=
    match current with
    | PitchNone => PitchUp
    | PitchUp => PitchDown
    | PitchDown => PitchNone
    end in
  let e' := with_pitchEnvMode (param_set next (pitchEnvMode e)) e in
  (match next with
   | PitchNone => "none"
   | PitchUp => "up"
   | PitchDown => "down"
   end%string, e').

(** ** Construction *)

(** The constructor.  [smoothCoeff] is the coefficient that the constructor
    of [SmoothedValue] derives for [frequencySmooth(440.0f, 0.02f)], and
    [phases] are the starting phases drawn by the reverb's comb filters. *)
Definition AudioEngine_new (sampleRate bufferSize : Z) (smoothCoeff : Q)
  (phases : list Q) : AudioEngine :=
  let buf := repeat 0%Q (Z.to_nat bufferSize) in
  let e0 :=
    mkEngine sampleRate bufferSize
      (Oscillator_new sampleRate) (LFO_new sampleRate) (Envelope_new sampleRate)
      (LowPassFilter_new sampleRate) DCBlocker_new (DelayEffect_new sampleRate)
      (Reverb.ReverbEffect_new sampleRate phases)
      (mkParam (7 # 10)%Q) (mkParam 440%Q) (mkParam PitchNone)
      440 (mkSmoothed 440 440 smoothCoeff)
      buf buf buf buf buf in
  (* Set initial parameters *)
  let e1 := with_oscillator (osc_setWaveform Sine (oscillator e0)) e0 in
  let e2 := with_lfo (lfo_setDepth 0 (lfo_setFrequency 4 (lfo e1))) e1 in
  let e3 :=
    with_envelope
      (env_setRelease (1 # 2) (env_setAttack (1 # 100) (envelope e2))) e2 in
  let e4 := with_filter (lp_setCutoff 2000 (filter e3)) e3 in
  let e5 :=
    with_delay (dl_setFeedback (1 # 2) (dl_setDryWet (3 # 10) (delay e4))) e4 in
  with_reverb (Reverb.setDryWet (35 # 100) (reverb e5)) e5.

(** ** The audio callback *)

(** The work vectors hold [numFrames] samples.  [process] indexes them up to
    [numFrames] without a check; beyond their size that is undefined
    behaviour, for which the embedding has no result. *)
Definition fits (numFrames : nat) (e : AudioEngine) : bool :=
  ((numFrames <=? length (oscBuffer e)) && (numFrames <=? length (envBuffer e))
   && (numFrames <=? length (lfoBuffer e))
   && (numFrames <=? length (filterBuffer e))
   && (numFrames <=? length (delayBuffer e)))%nat.

(** Body of the oscillator loop: the smoother, the current frequency, the
    oscillator and [oscBuffer]. *)
Definition osc_step (K : Kernels) (i : Z)
  (st : SmoothedValue * Q * Oscillator * list Q)
  : SmoothedValue * Q * Oscillator * list Q :=
  let '(sm, _, osc, buf) := st in
  let '(freq, sm') := sv_getNext sm in
  let osc1 := osc_setFrequency freq osc in
  let '(y, osc2) := osc_generateSample K osc1 in
  (sm', freq, osc2, wr buf i y).

(** Body of the filter loop: the filter and [filterBuffer]. *)
Definition filter_step (K : Kernels) (baseCutoff : Q) (lfoBuf oscBuf : list Q)
  (i : Z) (st : LowPassFilter * list Q) : LowPassFilter * list Q :=
  let '(f, buf) := st in
  (* LFO modulates filter cutoff by +-2 octaves *)
  let modCutoff0 := (baseCutoff * m_pow (math K) 2 (rd lfoBuf i * 2))%Q in
  let modCutoff := clamp modCutoff0 100 8000 in
  let f1 := lp_setCutoff modCutoff f in
  let '(y, f2) := lp_processSample K f1 (rd oscBuf i) in
  (f2, wr buf i y).

(** Body of the envelope loop on [filterBuffer]. *)
Definition gate_step (envBuf : list Q) (i : Z) (buf : list Q) : list Q :=
  (* Hard gate at very low levels (prevents delay noise) *)
  if Qltb (rd envBuf i) (1 # 1000) then wr buf i 0%Q
  else wr buf i (rd buf i * rd envBuf i)%Q.

(** The stereo frame written for frame [i]: [output[2i]] and [output[2i+1]]. *)
Definition out_frame (buf : list Q) (vol : Q) (i : nat) : list Q :=
  let sample := clamp (rd buf (Z.of_nat i) * vol) (-1) 1 in
  [sample; sample].

(** [AudioEngine::process(output, numFrames)]: the samples written to
    [output[0 .. 2*numFrames)] and the engine afterwards. *)
Definition process (K : Kernels) (e : AudioEngine) (numFrames : nat)
  : option (list Q * AudioEngine) :=
  if negb (fits numFrames e) then None else
  (* Smooth frequency changes *)
  let sm0 := sv_setTarget (param_get (baseFrequency e)) (frequencySmooth e) in
  (* Generate oscillator *)
  let '(sm, curFreq, osc, oscBuf) :=
    for_loop numFrames (osc_step K)
             (sm0, currentFrequency e, oscillator e, oscBuffer e) in
  (* Generate LFO modulation *)
  let '(lfoOut, lfo') := lfo_generate K (lfo e) numFrames in
  let lfoBuf := copy_into numFrames lfoOut (lfoBuffer e) in
  (* Generate envelope *)
  let '(envOut, env') := env_generate K (envelope e) numFrames in
  let envBuf := copy_into numFrames envOut (envBuffer e) in
  (* Apply LFO to filter cutoff and process *)
  let baseCutoff := lp_getCutoff (filter e) in
  let '(flt1, filtBuf1) :=
    for_loop numFrames (filter_step K baseCutoff lfoBuf oscBuf)
             (filter e, filterBuffer e) in
  (* Restore base cutoff *)
  let flt := lp_setCutoff baseCutoff flt1 in
  (* Apply envelope *)
  let filtBuf2 := for_loop numFrames (gate_step envBuf) filtBuf1 in
  (* Apply delay *)
  let '(delayOut, delay') := dl_process K (delay e) filtBuf2 numFrames in
  let delayBuf := copy_into numFrames delayOut (delayBuffer e) in
  (* Apply reverb *)
  let '(revOut, reverb') :=
    Reverb.process (math K) (reverb e) delayBuf numFrames in
  let filtBuf3 := copy_into numFrames revOut filtBuf2 in
  (* Apply DC blocking *)
  let '(dcOut, dc') := dc_process (dcBlocker e) (firstn numFrames filtBuf3) in
  let filtBuf4 := copy_into numFrames dcOut filtBuf3 in
  (* Apply volume and convert to stereo interleaved *)
  let vol := param_get (volume e) in
  let output := flat_map (out_frame filtBuf4 vol) (seq 0 numFrames) in
  Some (output,
        mkEngine (sampleRate e) (bufferSize e) osc lfo' env' flt dc' delay'
                 reverb' (volume e) (baseFrequency e) (pitchEnvMode e)
                 curFreq sm oscBuf envBuf lfoBuf filtBuf4 delayBuf).

(** ** Notions used in the properties *)

(** The smoother after [n] calls of [getNext()]. *)
Fixpoint smooth_iter (n : nat) (s : SmoothedValue) : SmoothedValue :=
  match n with
  | O => s
  | S k => snd (sv_getNext (smooth_iter k s))
  end.

(** The engine from which the pitch-envelope scenario starts:
    [setPitchEnvelopeMode(m); setFrequency(f0); setAttackTime(att);
    trigger()]. *)
Definition triggered (m : PitchEnvelopeMode) (f0 att : Q) (e : AudioEngine)
  : AudioEngine :=
  trigger (setAttackTime att (setFrequency f0 (setPitchEnvelopeMode m e))).

End AudioEngine.

(* ====================================================================== *)
(** * GPIOController (GPIOController.h, GPIOController.cpp)                 *)
(* ====================================================================== *)

Module GPIOController.

Import AudioEngine.

(** Parameter bank enumeration. *)
Inductive Bank : Type :=
| A  (* Normal mode *)
| B. (* Shift held *)

(** [struct Parameters] with its default member initialisers. *)
Record Parameters : Type := mkParameters {
  (* Bank A *)
  p_volume : Q;
  p_filterFreq : Q;
  p_filterRes : Q;
  p_delayFeedback : Q;
  p_reverbMix : Q;
  (* Bank B *)
  p_release : Q;
  p_delayTime : Q;
  p_reverbSize : Q;
  p_oscWaveform : Z;
  p_lfoWaveform : Z
}.

Definition Parameters_default : Parameters :=
  mkParameters (7 # 10) 2000 1 (1 # 2) (35 # 100) (1 # 2) (2 # 10) (1 # 2) 0 0.

(** The control surface.  It holds a reference to the engine; the engine is
    carried in the state, so that the writes made through the reference are
    visible in it. *)
Record GPIOController : Type := mkController {
  engine : AudioEngine;
  running : bool;
  currentBank : Bank;
  shiftPressed : bool;
  params : Parameters
}.

Definition GPIOController_new (e : AudioEngine) : GPIOController :=
  mkController e false A false Parameters_default.

Definition getCurrentBank (g : GPIOController) : Bank := currentBank g.

Definition with_engine_params (e : AudioEngine) (p : Parameters)
  (g : GPIOController) : GPIOController :=
  mkController e (running g) (currentBank g) (shiftPressed g) p.

(** The field updates of [params] that [handleEncoder] makes. *)
Definition set_p_volume (v : Q) (p : Parameters) : Parameters :=
  mkParameters v (p_filterFreq p) (p_filterRes p) (p_delayFeedback p)
    (p_reverbMix p) (p_release p) (p_delayTime p) (p_reverbSize p)
    (p_oscWaveform p) (p_lfoWaveform p).
Definition set_p_filterFreq (v : Q) (p : Parameters) : Parameters :=
  mkParameters (p_volume p) v (p_filterRes p) (p_delayFeedback p)
    (p_reverbMix p) (p_release p) (p_delayTime p) (p_reverbSize p)
    (p_oscWaveform p) (p_lfoWaveform p).
Definition set_p_filterRes (v : Q) (p : Parameters) : Parameters :=
  mkParameters (p_volume p) (p_filterFreq p) v (p_delayFeedback p)
    (p_reverbMix p) (p_release p) (p_delayTime p) (p_reverbSize p)
    (p_oscWaveform p) (p_lfoWaveform p).
Definition set_p_delayFeedback (v : Q) (p : Parameters) : Parameters :=
  mkParameters (p_volume p) (p_filterFreq p) (p_filterRes p) v
    (p_reverbMix p) (p_release p) (p_delayTime p) (p_reverbSize p)
    (p_oscWaveform p) (p_lfoWaveform p).
Definition set_p_reverbMix (v : Q) (p : Parameters) : Parameters :=
  mkParameters (p_volume p) (p_filterFreq p) (p_filterRes p)
    (p_delayFeedback p) v (p_release p) (p_delayTime p) (p_reverbSize p)
    (p_oscWaveform p) (p_lfoWaveform p).
Definition set_p_release (v : Q) (p : Parameters) : Parameters :=
  mkParameters (p_volume p) (p_filterFreq p) (p_filterRes p)
    (p_delayFeedback p) (p_reverbMix p) v (p_delayTime p) (p_reverbSize p)
    (p_oscWaveform p) (p_lfoWaveform p).
Definition set_p_delayTime (v : Q) (p : Parameters) : Parameters :=
  mkParameters (p_volume p) (p_filterFreq p) (p_filterRes p)
    (p_delayFeedback p) (p_reverbMix p) (p_release p) v (p_reverbSize p)
    (p_oscWaveform p) (p_lfoWaveform p).
Definition set_p_reverbSize (v : Q) (p : Parameters) : Parameters :=
  mkParameters (p_volume p) (p_filterFreq p) (p_filterRes p)
    (p_delayFeedback p) (p_reverbMix p) (p_release p) (p_delayTime p) v
    (p_oscWaveform p) (p_lfoWaveform p).
Definition set_p_oscWaveform (v : Z) (p : Parameters) : Parameters :=
  mkParameters (p_volume p) (p_filterFreq p) (p_filterRes p)
    (p_delayFeedback p) (p_reverbMix p) (p_release p) (p_delayTime p)
    (p_reverbSize p) v (p_lfoWaveform p).
Definition set_p_lfoWaveform (v : Z) (p : Parameters) : Parameters :=
  mkParameters (p_volume p) (p_filterFreq p) (p_filterRes p)
    (p_delayFeedback p) (p_reverbMix p) (p_release p) (p_delayTime p)
    (p_reverbSize p) (p_oscWaveform p) v.

Definition bankAParams : list string :=
  ["volume"; "filter_freq"; "filter_res"; "delay_feedback"; "reverb_mix"]%string.
Definition bankBParams : list string :=
  ["release"; "delay_time"; "reverb_size"; "osc_waveform"; "lfo_waveform"]%string.

(** [strcmp(paramName, s) == 0]. *)
Definition is_param (paramName s : string) : bool := String.eqb paramName s.

(** [handleEncoder(encoderIndex, direction)].  The line it prints is not
    modelled.  The encoders call it with an index in 0..4; for another index
    the name looked up here is empty and nothing is changed. *)
Definition handleEncoder (encoderIndex direction : Z) (g : GPIOController)
  : GPIOController :=
  let bank := currentBank g in
  let names := match bank with A => bankAParams | B => bankBParams end in
  let paramName :=
    if encoderIndex <? 0 then EmptyString
    else nth (Z.to_nat encoderIndex) names EmptyString in
  let p := params g in
  let e := engine g in
  let dir := inject_Z direction in
  (* Update parameter based on type *)
  if is_param paramName "volume" then
    let step := ((2 # 100) * dir)%Q in
    let p' := set_p_volume (clamp (p_volume p + step) 0 1) p in
    with_engine_params (setVolume (p_volume p') e) p' g
  else if is_param paramName "filter_freq" then
    let step := (50 * dir)%Q in
    let p' := set_p_filterFreq (clamp (p_filterFreq p + step) 20 20000) p in
    with_engine_params (setFilterCutoff (p_filterFreq p') e) p' g
  else if is_param paramName "filter_res" then
    let step := ((2 # 100) * dir)%Q in
    let p' := set_p_filterRes (clamp (p_filterRes p + step) 0 (95 # 100)) p in
    with_engine_params (setFilterResonance (p_filterRes p') e) p' g
  else if is_param paramName "delay_feedback" then
    let step := ((2 # 100) * dir)%Q in
    let p' :=
      set_p_delayFeedback (clamp (p_delayFeedback p + step) 0 (95 # 100)) p in
    with_engine_params (setDelayFeedback (p_delayFeedback p') e) p' g
  else if is_param paramName "reverb_mix" then
    let step := ((2 # 100) * dir)%Q in
    let p' := set_p_reverbMix (clamp (p_reverbMix p + step) 0 1) p in
    with_engine_params (setReverbMix (p_reverbMix p') e) p' g
  else if is_param paramName "release" then
    let step := ((1 # 10) * dir)%Q in
    let p' := set_p_release (clamp (p_release p + step) (1 # 100) 5) p in
    with_engine_params (setReleaseTime (p_release p') e) p' g
  else if is_param paramName "delay_time" then
    let step := ((5 # 100) * dir)%Q in
    let p' := set_p_delayTime (clamp (p_delayTime p + step) (1 # 1000) 2) p in
    with_engine_params (setDelayTime (p_delayTime p') e) p' g
  else if is_param paramName "reverb_size" then
    let step := ((2 # 100) * dir)%Q in
    let p' := set_p_reverbSize (clamp (p_reverbSize p + step) 0 1) p in
    with_engine_params (setReverbSize (p_reverbSize p') e) p' g
  else if is_param paramName "osc_waveform" then
    let p' := set_p_oscWaveform (Z.rem (p_oscWaveform p + direction + 4) 4) p in
    with_engine_params (setWaveform_int (p_oscWaveform p') e) p' g
  else if is_param paramName "lfo_waveform" then
    let p' := set_p_lfoWaveform (Z.rem (p_lfoWaveform p + direction + 4) 4) p in
    with_engine_params (setLfoWaveform_int (p_lfoWaveform p') e) p' g
  else g.

(** [start()] without the GPIO hardware: apply the initial parameters. *)
Definition start (g : GPIOController) : GPIOController :=
  if running g then g
  else
    let p := params g in
    let e1 := setVolume (p_volume p) (engine g) in
    let e2 := setFilterCutoff (p_filterFreq p) e1 in
    let e3 := setFilterResonance (p_filterRes p) e2 in
    let e4 := setDelayFeedback (p_delayFeedback p) e3 in
    let e5 := setReverbMix (p_reverbMix p) e4 in
    let e6 := setReleaseTime (p_release p) e5 in
    let e7 := setDelayTime (p_delayTime p) e6 in
    let e8 := setReverbSize (p_reverbSize p) e7 in
    mkController e8 true (currentBank g) (shiftPressed g) p.

Definition stop (g : GPIOController) : GPIOController :=
  if running g
  then mkController (engine g) false (currentBank g) (shiftPressed g) (params g)
  else g.

Definition onTriggerPress (g : GPIOController) : GPIOController :=
  with_engine_params (trigger (engine g)) (params g) g.

Definition onTriggerRelease (g : GPIOController) : GPIOController :=
  with_engine_params (release (engine g)) (params g) g.

Definition onPitchEnvPress (g : GPIOController) : GPIOController :=
  with_engine_params (snd (cyclePitchEnvelope (engine g))) (params g) g.

Definition onShiftPress (g : GPIOController) : GPIOController :=
  mkController (engine g) (running g) B true (params g).

Definition onShiftRelease (g : GPIOController) : GPIOController :=
  mkController (engine g) (running g) A false (params g).

End GPIOController.

(* ====================================================================== *)
(** * SamplePlayer (SamplePlayer.h, SamplePlayer.cpp)                       *)
(* ====================================================================== *)

Module SamplePlayer.

(** In this class the indices are [size_t] values, modelled by [nat]; every
    one of them stays below the size of a vector plus two.  A read of a
    vector is checked: an index at or beyond the size is undefined behaviour
    in C++ and makes the embedded function return [None]. *)
Definition read (v : list Q) (i : nat) : option Q := nth_error v i.

Record SamplePlayer : Type := mkPlayer {
  sp_sampleRate : Z;
  sampleData : list Q;          (* Interleaved stereo samples *)
  sampleChannels : Z;
  sampleRateOriginal : Z;
  playing : bool;
  loop : bool;
  playbackPosition : nat;
  sp_volume : Q
}.

Definition SamplePlayer_new (sampleRate : Z) : SamplePlayer :=
  mkPlayer sampleRate [] 2 sampleRate false false 0 1.

Definition isPlaying (p : SamplePlayer) : bool := playing p.

Definition isLoaded (p : SamplePlayer) : bool :=
  match sampleData p with [] => false | _ => true end.

Definition with_playback (pl : bool) (pos : nat) (p : SamplePlayer)
  : SamplePlayer :=
  mkPlayer (sp_sampleRate p) (sampleData p) (sampleChannels p)
           (sampleRateOriginal p) pl (loop p) pos (sp_volume p).

Definition setLoop (shouldLoop : bool) (p : SamplePlayer) : SamplePlayer :=
  mkPlayer (sp_sampleRate p) (sampleData p) (sampleChannels p)
           (sampleRateOriginal p) (playing p) shouldLoop (playbackPosition p)
           (sp_volume p).

Definition setVolume (vol : Q) (p : SamplePlayer) : SamplePlayer :=
  mkPlayer (sp_sampleRate p) (sampleData p) (sampleChannels p)
           (sampleRateOriginal p) (playing p) (loop p) (playbackPosition p)
           (std_clamp vol 0 1).

(** [trigger()]: start playback from the beginning. *)
Definition trigger (p : SamplePlayer) : SamplePlayer :=
  if negb (isLoaded p) then p else with_playback true 0 p.

Definition stop (p : SamplePlayer) : SamplePlayer := with_playback false 0 p.

(** [std::memset(&output[start], 0, count * sizeof(float))]. *)
Fixpoint memset_zero (start count : nat) (out : list Q) : list Q :=
  match count with
  | O => out
  | S c => upd start 0%Q (memset_zero (S start) c out)
  end.

(** The frame loop of [process], from frame [frame] on, with [todo] frames
    left: the playing flag, the playhead and the output buffer at the end of
    the loop. *)
Fixpoint process_loop (data : list Q) (vol : Q) (looping : bool)
  (numFrames todo frame pos : nat) (out : list Q)
  : option (bool * nat * list Q) :=
  match todo with
  | O => Some (true, pos, out)
  | S todo' =>
      let totalSamples := length data in
      if (totalSamples <=? pos)%nat && negb looping then
        (* End of sample, output silence for remaining frames *)
        Some (false, pos,
              memset_zero (frame * 2) ((numFrames - frame) * 2) out)
      else
        (* Loop back to start *)
        let pos := if (totalSamples <=? pos)%nat then O else pos in
        (* Copy stereo samples with volume applied *)
        match read data (pos + 0), read data (pos + 1) with
        | Some l, Some r =>
            let out1 := upd (frame * 2 + 0) (l * vol)%Q out in
            let out2 := upd (frame * 2 + 1) (r * vol)%Q out1 in
            process_loop data vol looping numFrames todo' (S frame) (pos + 2)
                         out2
        | _, _ => None
        end
  end.

(** [SamplePlayer::process(output, numFrames)] on the caller's buffer
    [output]: the buffer and the player afterwards. *)
Definition process (p : SamplePlayer) (output : list Q) (numFrames : nat)
  : option (list Q * SamplePlayer) :=
  if negb (playing p) || negb (isLoaded p) then
    (* Output silence *)
    Some (memset_zero 0 (numFrames * 2) output, p)
  else
    match process_loop (sampleData p) (sp_volume p) (loop p) numFrames
                       numFrames 0 (playbackPosition p) output with
    | Some (pl, pos, out) => Some (out, with_playback pl pos p)
    | None => None
    end.

Definition needsResampling (p : SamplePlayer) : bool :=
  negb (sampleRateOriginal p =? sp_sampleRate p).

(** ** Resampling *)

(** The source frame and the interpolation weight that the loop body of
    [resample] settles on for the output frame [outFrame]. *)
Definition source_frame (ratio : Q) (inputFrames outFrame : nat) : nat * Q :=
  let srcPos := (inject_Z (Z.of_nat outFrame) / ratio)%Q in
  let srcFrame := Z.to_nat (to_int srcPos) in
  let frac := (srcPos - inject_Z (Z.of_nat srcFrame))%Q in
  if (inputFrames <=? srcFrame + 1)%nat then ((inputFrames - 1)%nat, 0%Q)
  else (srcFrame, frac).

(** The two indices at which the channel loop reads [input]. *)
Definition index1 (srcFrame channels ch : nat) : nat := srcFrame * channels + ch.
Definition index2 (srcFrame channels ch : nat) : nat :=
  (srcFrame + 1) * channels + ch.

(** Body of the channel loop. *)
Definition resample_channel (input : list Q) (channels srcFrame : nat)
  (frac : Q) (outFrame ch : nat) (output : list Q) : option (list Q) :=
  match read input (index1 srcFrame channels ch),
        read input (index2 srcFrame channels ch) with
  | Some sample1, Some sample2 =>
      let interpolated := (sample1 + frac * (sample2 - sample1))%Q in
      Some (upd (outFrame * channels + ch) interpolated output)
  | _, _ => None
  end.

(** A counted loop whose body may fail. *)
Fixpoint loop_opt {S : Type} (body : nat -> S -> option S) (idxs : list nat)
  (s : S) : option S :=
  match idxs with
  | [] => Some s
  | i :: rest =>
      match body i s with
      | Some s' => loop_opt body rest s'
      | None => None
      end
  end.

(** Body of the frame loop. *)
Definition resample_frame (input : list Q) (ratio : Q)
  (inputFrames channels outFrame : nat) (output : list Q) : option (list Q) :=
  let '(srcFrame, frac) := source_frame ratio inputFrames outFrame in
  loop_opt (resample_channel input channels srcFrame frac outFrame)
           (seq 0 channels) output.

(** [SamplePlayer::resample(input, output, inputRate, outputRate, channels)]:
    the vector [output] afterwards. *)
Definition resample (input : list Q) (inputRate outputRate : Z)
  (channels : nat) : option (list Q) :=
  if inputRate =? outputRate then Some input
  else
    (* Simple linear interpolation resampling *)
    let ratio := (inject_Z outputRate / inject_Z inputRate)%Q in
    let inputFrames := (length input / channels)%nat in
    let outputFrames :=
      Z.to_nat (to_int (inject_Z (Z.of_nat inputFrames) * ratio)) in
    let output0 := repeat 0%Q (outputFrames * channels) in
    loop_opt (resample_frame input ratio inputFrames channels)
             (seq 0 outputFrames) output0.

(** ** Notions used in the properties *)

(** The sample data consists of whole stereo frames and the playhead stands
    at the start of a frame; [loadMP3], [trigger] and [process] keep it so. *)
Definition frame_aligned (p : SamplePlayer) : Prop :=
  Nat.even (length (sampleData p)) = true
  /\ Nat.even (playbackPosition p) = true.

End SamplePlayer.

(* ====================================================================== *)
(** * RotaryEncoder and MomentarySwitch (GPIOController.cpp)                *)
(* ====================================================================== *)

Module RotaryEncoder.

(** [position] is a [std::atomic<int>]: [fetch_add] and [fetch_sub] wrap
    around at 32 bits. *)
Definition wrap_int (z : Z) : Z := (z + 2 ^ 31) mod 2 ^ 32 - 2 ^ 31.

Record RotaryEncoder : Type := mkEncoder {
  clkPin : Z;
  dtPin : Z;
  position : Z;
  enc_running : bool;
  lastClk : Z;
  lastDt : Z
}.

Definition RotaryEncoder_new (clkPin dtPin : Z) : RotaryEncoder :=
  mkEncoder clkPin dtPin 0 false 1 1.

Definition getPosition (r : RotaryEncoder) : Z := position r.

(** [update()], with the two values that [readPin] returned for the clock
    and the data pin.  The first component is the direction with which the
    callback is called, when it is called. *)
Definition update (clkState dtState : Z) (r : RotaryEncoder)
  : option Z * RotaryEncoder :=
  if negb (clkState =? lastClk r) then
    if negb (dtState =? clkState) then
      (Some 1,
       mkEncoder (clkPin r) (dtPin r) (wrap_int (position r + 1))
                 (enc_running r) clkState dtState)
    else
      (Some (-1),
       mkEncoder (clkPin r) (dtPin r) (wrap_int (position r - 1))
                 (enc_running r) clkState dtState)
  else
    (None,
     mkEncoder (clkPin r) (dtPin r) (position r) (enc_running r)
               clkState dtState).

(** [pollLoop()] over the successive pin readings [(clk, dt)] of its
    iterations: the directions passed to the callback, in order, and the
    encoder afterwards. *)
Fixpoint pollLoop (readings : list (Z * Z)) (r : RotaryEncoder)
  : list Z * RotaryEncoder :=
  match readings with
  | [] => ([], r)
  | (clk, dt) :: rest =>
      let '(d, r1) := update clk dt r in
      let '(ds, r2) := pollLoop rest r1 in
      (match d with Some x => x :: ds | None => ds end, r2)
  end.

End RotaryEncoder.

Module MomentarySwitch.

Definition DEBOUNCE_MS : Z := 10.
Definition MIN_PRESS_MS : Z := 30.

(** A [steady_clock::time_point] is a count of nanoseconds;
    [duration_cast<milliseconds>(d).count()] truncates towards zero. *)
Definition to_ms (d : Z) : Z := Z.quot d 1000000.

Record MomentarySwitch : Type := mkSwitch {
  pin : Z;
  pressed : bool;
  sw_running : bool;
  lastState : Z;
  lastChange : Z;
  lastPressTime : Z
}.

(** The constructor, [now] being the time it reads from the clock. *)
Definition MomentarySwitch_new (pin now : Z) : MomentarySwitch :=
  mkSwitch pin false false 1 now now.

Definition isPressed (s : MomentarySwitch) : bool := pressed s.

(** The two callbacks of a switch. *)
Inductive Callback : Type := PressCallback | ReleaseCallback.

(** One iteration of [pollLoop()], with the value [state] that [readPin]
    returned and the time [now] read from the clock: the callback called in
    this iteration, if any, and the switch afterwards. *)
Definition poll (state now : Z) (s : MomentarySwitch)
  : option Callback * MomentarySwitch :=
  (* Debounce *)
  let s1 :=
    if negb (state =? lastState s)
    then mkSwitch (pin s) (pressed s) (sw_running s) state now
                  (lastPressTime s)
    else s in
  let elapsed := to_ms (now - lastChange s1) in
  if elapsed <? DEBOUNCE_MS then (None, s1)
  (* Button is active low (pressed when pin reads 0) *)
  else if (state =? 0) && negb (pressed s1) then
    (Some PressCallback,
     mkSwitch (pin s1) true (sw_running s1) (lastState s1) (lastChange s1) now)
  else if (state =? 1) && pressed s1 then
    (* Enforce minimum press duration *)
    let pressDuration := to_ms (now - lastPressTime s1) in
    if MIN_PRESS_MS <=? pressDuration then
      (Some ReleaseCallback,
       mkSwitch (pin s1) false (sw_running s1) (lastState s1) (lastChange s1)
                (lastPressTime s1))
    else (None, s1)
  else (None, s1).

(** [pollLoop()] over the successive readings [(state, now)] of its
    iterations: the callbacks called, in order, and the switch afterwards. *)
Fixpoint pollLoop (readings : list (Z * Z)) (s : MomentarySwitch)
  : list Callback * MomentarySwitch :=
  match readings with
  | [] => ([], s)
  | (state, now) :: rest =>
      let '(c, s1) := poll state now s in
      let '(cs, s2) := pollLoop rest s1 in
      (match c with Some x => x :: cs | None => cs end, s2)
  end.

(** The callbacks alternate, beginning with a release if the switch is
    pressed and with a press if it is not. *)
Fixpoint alternate (isPressed : bool) (cs : list Callback) : Prop :=
  match cs with
  | [] => True
  | PressCallback :: rest => isPressed = false /\ alternate true rest
  | ReleaseCallback :: rest => isPressed = true /\ alternate false rest
  end.

(** The readings of a pulse: the pin reads [v] at times less than 10 ms
    after the time [t0]. *)
Definition pulse (v t0 : Z) (readings : list (Z * Z)) : Prop :=
  Forall (fun sn => fst sn = v /\ t0 <= snd sn < t0 + 10 * 1000000) readings.

End MomentarySwitch.

(* ====================================================================== *)
(** * SimulatedController (GPIOController.cpp)                              *)
(* ====================================================================== *)

Module SimulatedController.

Import Ascii AudioEngine.

Record SimulatedController : Type := mkSimulated {
  sim_engine : AudioEngine;
  sim_running : bool
}.

Definition SimulatedController_new (e : AudioEngine) : SimulatedController :=
  mkSimulated e false.

(** [start()] and [stop()]; the help text that [start()] prints is not
    modelled. *)
Definition start (s : SimulatedController) : SimulatedController :=
  mkSimulated (sim_engine s) true.

Definition stop (s : SimulatedController) : SimulatedController :=
  mkSimulated (sim_engine s) false.

(** [processCommand(cmd)], without the text it prints.  [isPlaying] is the
    engine's [isPlaying()]; it asks the envelope, whose sources are not at
    hand, and is taken as a parameter. *)
Definition processCommand (isPlaying : AudioEngine -> bool) (cmd : Ascii.ascii)
  (s : SimulatedController) : SimulatedController :=
  let e := sim_engine s in
  if Ascii.eqb cmd "t"%char then
    if isPlaying e then mkSimulated (release e) (sim_running s)
    else mkSimulated (trigger e) (sim_running s)
  else if Ascii.eqb cmd "p"%char then
    mkSimulated (snd (cyclePitchEnvelope e)) (sim_running s)
  else if Ascii.eqb cmd "s"%char then s
  else if Ascii.eqb cmd "h"%char || Ascii.eqb cmd "?"%char then s
  else if Ascii.eqb cmd "q"%char then mkSimulated e false
  else s.

End SimulatedController.

(* ====================================================================== *)
(** * Notions of the control surface                                        *)
(* ====================================================================== *)

Module ControlNotions.

Import AudioEngine GPIOController.
Local Open Scope Q_scope.

(** Every parameter of the control surface lies in the range to which
    [handleEncoder] clamps it, and the two waveform indices lie in 0..3. *)
Definition ranges_ok (p : Parameters) : Prop :=
  (0 <= p_volume p <= 1)
  /\ (20 <= p_filterFreq p <= 20000)
  /\ (0 <= p_filterRes p <= 95 # 100)
  /\ (0 <= p_delayFeedback p <= 95 # 100)
  /\ (0 <= p_reverbMix p <= 1)
  /\ ((1 # 100) <= p_release p <= 5)
  /\ ((1 # 1000) <= p_delayTime p <= 2)
  /\ (0 <= p_reverbSize p <= 1)
  /\ (0 <= p_oscWaveform p < 4)%Z
  /\ (0 <= p_lfoWaveform p < 4)%Z.


(** The parameters of bank A and of bank B. *)
Definition bankA_values (p : Parameters) : Q * Q * Q * Q * Q :=
  (p_volume p, p_filterFreq p, p_filterRes p, p_delayFeedback p,
   p_reverbMix p).
Definition bankB_values (p : Parameters) : Q * Q * Q * Z * Z :=
  (p_release p, p_delayTime p, p_reverbSize p, p_oscWaveform p,
   p_lfoWaveform p).

(** The callbacks that [start()] hands to the five encoders and to the
    trigger, pitch-envelope and shift buttons. *)
Inductive Event : Type :=
| Turn (encoderIndex direction : Z)
| TriggerPress
| TriggerRelease
| PitchEnvPress
| ShiftPress
| ShiftRelease.

Definition dispatch (ev : Event) (g : GPIOController) : GPIOController :=
  match ev with
  | Turn i dir => handleEncoder i dir g
  | TriggerPress => onTriggerPress g
  | TriggerRelease => onTriggerRelease g
  | PitchEnvPress => onPitchEnvPress g
  | ShiftPress => onShiftPress g
  | ShiftRelease => onShiftRelease g
  end.

(** The control surface after a sequence of callbacks. *)
Definition run (evs : list Event) (g : GPIOController) : GPIOController :=
  fold_left (fun st ev => dispatch ev st) evs g.

(** An event as the hardware produces it: the encoder index is one of 0..4
    and the direction is +1 or -1. *)
Definition from_hardware (ev : Event) : Prop :=
  match ev with
  | Turn i dir => (0 <= i < 5)%Z /\ (dir = 1 \/ dir = -1)%Z
  | _ => True
  end.

End ControlNotions.

(* ====================================================================== *)
(** * AudioOutput and SimulatedAudioOutput (AudioOutput.cpp)                *)
(* ====================================================================== *)

Module AudioOutput.

Import AudioEngine.

(** [totalBuffers] and [underruns] are [std::atomic<uint64_t>]:
    [fetch_add] wraps around at 64 bits. *)
Definition wrap_uint64 (z : Z) : Z := z mod 2 ^ 64.

Record AudioOutput : Type := mkOutput {
  ao_engine : AudioEngine;
  ao_sampleRate : Z;
  ao_bufferSize : Z;
  channels : Z;
  ao_running : bool;
  totalBuffers : Z;
  underruns : Z
}.

(** The constructor; [lastCpuUsage], a time measurement, is not modelled. *)
Definition AudioOutput_new (engine : AudioEngine)
  (sampleRate bufferSize channels : Z) : AudioOutput :=
  mkOutput engine sampleRate bufferSize channels false 0 0.

(** [static_cast<int16_t>(clamp(x, -1.0f, 1.0f) * 32767.0f)], the
    conversion of one sample in [audioLoop]. *)
Definition to_int16 (x : Q) : Z := to_int (clamp x (-1) 1 * 32767)%Q.

(** The buffers that [audioLoop] allocates before its loop. *)
Definition floatBuffer_new (o : AudioOutput) : list Q :=
  repeat 0%Q (Z.to_nat (ao_bufferSize o * channels o)).

(** Writing the samples [src] to the front of [dst], as [process] does
    through the pointer it is given; [None] when they do not fit. *)
Definition write_front (src dst : list Q) : option (list Q) :=
  if (length src <=? length dst)%nat
  then Some (src ++ skipn (length src) dst)
  else None.

(** One iteration of the loop of [audioLoop], with the value [frames] that
    [snd_pcm_writei] returned: the block of 16-bit samples handed to ALSA,
    the float buffer and the output object afterwards.  There is no result
    when [process] runs over the engine's work buffers or over the float
    buffer, or when the block is empty.  The messages printed and the time
    measurement are not modelled. *)
Definition audioLoop_iteration (K : Kernels) (frames : Z)
  (st : list Q * AudioOutput) : option (list Z * (list Q * AudioOutput)) :=
  let '(floatBuffer, o) := st in
  (* Generate audio *)
  match process K (ao_engine o) (Z.to_nat (ao_bufferSize o)) with
  | None => None
  | Some (samples, engine') =>
      match write_front samples floatBuffer with
      | None => None
      | Some floatBuffer' =>
          (* Convert to int16 *)
          let intBuffer := map to_int16 floatBuffer' in
          (* Handle underrun *)
          let underruns' :=
            if frames <? 0 then wrap_uint64 (underruns o + 1)
            else underruns o in
          (* [*std::max_element(...)] of an empty block is undefined *)
          match intBuffer with
          | [] => None
          | _ :: _ =>
              Some (intBuffer,
                    (floatBuffer',
                     mkOutput engine' (ao_sampleRate o) (ao_bufferSize o)
                              (channels o) (ao_running o)
                              (wrap_uint64 (totalBuffers o + 1)) underruns'))
          end
      end
  end.

(** The loop of [audioLoop] over the values returned by the successive
    calls of [snd_pcm_writei]: the blocks handed to ALSA, in order. *)
Fixpoint audioLoop (K : Kernels) (writes : list Z) (st : list Q * AudioOutput)
  : option (list (list Z) * (list Q * AudioOutput)) :=
  match writes with
  | [] => Some ([], st)
  | frames :: rest =>
      match audioLoop_iteration K frames st with
      | None => None
      | Some (block, st1) =>
          match audioLoop K rest st1 with
          | None => None
          | Some (blocks, st2) => Some (block :: blocks, st2)
          end
      end
  end.

(** [getStats()]: the two counters. *)
Definition getStats (o : AudioOutput) : Z * Z := (totalBuffers o, underruns o).

(** ** SimulatedAudioOutput *)




End AudioOutput.

(* ====================================================================== *)
(** * Notions for the Freeverb reverb (Reverb.cpp)                          *)
(* ====================================================================== *)

Module FreeverbNotions.

Import Common Freeverb.
Local Open Scope Q_scope.

(** What a caller can do with a [ReverbEffect]: the four setters and
    [process]. *)
Inductive Call : Type :=
| SetSize (size : Q)
| SetDryWet (mix : Q)
| SetDamping (damp : Q)
| SetWidth (w : Q)
| Process (input : list Q) (numSamples : nat).

Definition call (c : Call) (r : ReverbEffect) : ReverbEffect :=
  match c with
  | SetSize size => setSize size r
  | SetDryWet mix => setDryWet mix r
  | SetDamping damp => setDamping damp r
  | SetWidth w => setWidth w r
  | Process input numSamples => snd (process r input numSamples)
  end.

(** The reverb after a sequence of calls. *)
Definition calls (cs : list Call) (r : ReverbEffect) : ReverbEffect :=
  fold_left (fun st c => call c st) cs r.

(** The parameters lie in [0, 1], the dry gain is [1 - wet], and the
    derived coefficients are the ones [updateCoefficients] computes from the
    parameters, with the feedback in [0.7, 0.98]. *)
Definition coefficients_ok (r : ReverbEffect) : Prop :=
  0 <= roomSize r <= 1
  /\ 0 <= fv_damping r <= 1
  /\ 0 <= wet r <= 1
  /\ 0 <= width r <= 1
  /\ dry r == 1 - wet r
  /\ fv_feedback r == roomSize r * SCALE_ROOM + OFFSET_ROOM
  /\ (7 # 10) <= fv_feedback r <= (98 # 100)
  /\ damp1 r == fv_damping r * SCALE_DAMP
  /\ damp2 r == 1 - damp1 r
  /\ 0 <= damp1 r <= (4 # 10)
  /\ wet1 r + wet2 r == wet r.

(** A comb filter as [init] leaves it for a positive size, at any later
    time: the index is inside the buffer, whose size is [bufferSize]. *)
Definition comb_ready (c : CombFilter) : Prop :=
  cb_bufferSize c = size (cb_buffer c)
  /\ (0 <= cb_index c < cb_bufferSize c)%Z.

(** The comb filter after [process] was called once for each of [inputs],
    and the values returned. *)
Fixpoint CombFilter_run (c : CombFilter) (inputs : list Q)
  (feedback damp1 damp2 : Q) : list Q * CombFilter :=
  match inputs with
  | [] => ([], c)
  | x :: rest =>
      let '(y, c1) := CombFilter_process c x feedback damp1 damp2 in
      let '(ys, c2) := CombFilter_run c1 rest feedback damp1 damp2 in
      (y :: ys, c2)
  end.

End FreeverbNotions.

(* ====================================================================== *)
(** * Concrete instances                                                    *)
(* ====================================================================== *)

Module Instances.

Import AudioEngine.
Local Open Scope Q_scope.

(** Rational stand-ins for [sin] (Bhaskara's approximation on [0, pi], with
    pi taken as 355/113), for [pow] (the exponent truncated to an integer)
    and for [TWO_PI], with which the embedding runs on concrete inputs. *)
Definition mathlib0 : MathLib :=
  mkMathLib
    (fun x => 16 * x * ((355 # 113) - x)
              / (5 * (355 # 113) * (355 # 113) - 4 * x * ((355 # 113) - x)))
    (fun b x => Qpower b (to_int x))
    (710 # 113).

(** Kernels that generate silence and pass the signal on unchanged. *)
Definition bypass : Kernels :=
  mkKernels mathlib0
    (fun o => (0, o))
    (fun l n => (repeat 0 n, l))
    (fun v n => (repeat 0 n, v))
    (fun f x => (x, f))
    (fun d buf n => (firstn n buf, d)).

(** A concrete engine: 48 kHz, blocks of 256 frames. *)
Definition engine0 : AudioEngine := AudioEngine_new 48000 256 (1 # 960) [].

(** A chamber reverb and a Freeverb-style reverb at 48 kHz. *)
Definition chamber0 : Reverb.ReverbEffect := Reverb.ReverbEffect_new 48000 [].
Definition freeverb0 : Freeverb.ReverbEffect := Freeverb.ReverbEffect_new 48000.

(** A player holding two stereo frames, triggered. *)
Definition player0 : SamplePlayer.SamplePlayer :=
  SamplePlayer.mkPlayer 48000 [1 # 2; 1 # 4; -(1 # 8); 1 # 16] 2 48000 true false 0 1.

End Instances.
Export Instances.

(* ====================================================================== *)
(** * Properties                                                            *)
(* ====================================================================== *)

Open Scope Q_scope.

(** ** Comparison and clamping *)

Section Clamping.

Lemma Qltb_lt (x y : Q) : Qltb x y = true <-> x < y.
Proof.
  unfold Qltb. rewrite negb_true_iff.
  split; intro H.
  - apply Qnot_le_lt. intro Hle. apply Qle_bool_iff in Hle. congruence.
  - destruct (Qle_bool y x) eqn:E; [|reflexivity].
    apply Qle_bool_iff in E. exfalso. apply (Qlt_not_le _ _ H E).
Qed.

Lemma Qltb_ge (x y : Q) : Qltb x y = false <-> y <= x.
Proof.
  unfold Qltb. rewrite negb_false_iff. apply Qle_bool_iff.
Qed.

Lemma clamp_below (v lo hi : Q) : v < lo -> clamp v lo hi = lo.
Proof.
  intro H. unfold clamp, std_clamp.
  apply Qltb_lt in H. now rewrite H.
Qed.

Lemma clamp_above (v lo hi : Q) : lo <= hi -> hi < v -> clamp v lo hi = hi.
Proof.
  intros Hlh H. unfold clamp, std_clamp.
  assert (Hge : Qltb v lo = false) by (apply Qltb_ge; lra).
  apply Qltb_lt in H. now rewrite Hge, H.
Qed.

Lemma clamp_inside (v lo hi : Q) : lo <= v <= hi -> clamp v lo hi = v.
Proof.
  intros [H1 H2]. unfold clamp, std_clamp.
  assert (Ha : Qltb v lo = false) by (now apply Qltb_ge).
  assert (Hb : Qltb hi v = false) by (now apply Qltb_ge).
  now rewrite Ha, Hb.
Qed.

Lemma clamp_range (v lo hi : Q) : lo <= hi -> lo <= clamp v lo hi <= hi.
Proof.
  intro Hlh. unfold clamp, std_clamp.
  destruct (Qltb v lo) eqn:E1.
  - lra.
  - apply Qltb_ge in E1.
    destruct (Qltb hi v) eqn:E2.
    + lra.
    + apply Qltb_ge in E2. lra.
Qed.

Lemma clamp_abs_le_1 (x : Q) : Qabs (clamp x (-1) 1) <= 1.
Proof.
  apply Qabs_Qle_condition.
  assert (H : -1 <= clamp x (-1) 1 <= 1) by (apply clamp_range; lra).
  lra.
Qed.

End Clamping.

(** ** The engine's parameter setters *)

Section EngineSetters.

Import AudioEngine.

(** C3.  For every float [v], reading the volume back after
    [setVolume(v)] gives [v] clamped to [0, 1], and for every float [f],
    reading the frequency back after [setFrequency(f)] gives [f] clamped to
    [20, 20000].  The setters are total functions (nothing is thrown): a
    value below the range reads back as the lower bound, a value above it as
    the upper bound, and the value read back is always inside the range. *)
Theorem setVolume_setFrequency_read_back (e : AudioEngine) (v f : Q) :
  getVolume (setVolume v e) = clamp v 0 1
  /\ getFrequency (setFrequency f e) = clamp f 20 20000
  /\ 0 <= getVolume (setVolume v e) <= 1
  /\ 20 <= getFrequency (setFrequency f e) <= 20000
  /\ (v < 0 -> getVolume (setVolume v e) = 0)
  /\ (1 < v -> getVolume (setVolume v e) = 1)
  /\ (0 <= v <= 1 -> getVolume (setVolume v e) = v)
  /\ (f < 20 -> getFrequency (setFrequency f e) = 20)
  /\ (20000 < f -> getFrequency (setFrequency f e) = 20000)
  /\ (20 <= f <= 20000 -> getFrequency (setFrequency f e) = f).
Proof.
  unfold getVolume, setVolume, getFrequency, setFrequency; simpl.
  repeat split.
  - apply clamp_range; lra.
  - apply clamp_range; lra.
  - apply clamp_range; lra.
  - apply clamp_range; lra.
  - apply clamp_below.
  - apply clamp_above; lra.
  - apply clamp_inside.
  - apply clamp_below.
  - apply clamp_above; lra.
  - apply clamp_inside.
Qed.

Lemma setVolume_setFrequency_read_back_witness :
  getVolume (setVolume (-3) engine0) = 0
  /\ getVolume (setVolume 7 engine0) = 1
  /\ getVolume (setVolume (1 # 4) engine0) = (1 # 4)
  /\ getFrequency (setFrequency 5 engine0) = 20
  /\ getFrequency (setFrequency 96000 engine0) = 20000
  /\ getFrequency (setFrequency 440 engine0) = 440.
Proof.
  destruct (setVolume_setFrequency_read_back engine0 (-3) 5)
    as (_ & _ & _ & _ & Hv & _ & _ & Hf & _).
  destruct (setVolume_setFrequency_read_back engine0 7 96000)
    as (_ & _ & _ & _ & _ & Hv' & _ & _ & Hf' & _).
  destruct (setVolume_setFrequency_read_back engine0 (1 # 4) 440)
    as (_ & _ & _ & _ & _ & _ & Hv'' & _ & _ & Hf'').
  exact (conj (Hv eq_refl)
          (conj (Hv' eq_refl)
          (conj (Hv'' ltac:(split; discriminate))
          (conj (Hf eq_refl)
          (conj (Hf' eq_refl)
                (Hf'' ltac:(split; discriminate))))))).
Defined.

(** A waveform index that is not negative selects the waveform whose tag is
    the index modulo 4, one of the four enumerators. *)
Lemma setWaveform_int_nonneg (e : AudioEngine) (index : Z) :
  (0 <= index)%Z ->
  waveformTag (setWaveform_int index e) = (index mod 4)%Z
  /\ lfoWaveformTag (setLfoWaveform_int index e) = (index mod 4)%Z
  /\ (0 <= index mod 4 < 4)%Z.
Proof.
  intro H. unfold waveformTag, lfoWaveformTag, setWaveform_int,
    setLfoWaveform_int; simpl.
  rewrite Z.rem_mod_nonneg by lia.
  repeat split; try apply Z.mod_pos_bound; lia.
Qed.

(** C4.  [setWaveform(-1)] and [setLfoWaveform(-1)]: the C++ remainder
    [-1 % 4] is [-1], so the waveform stored has the tag [-1], which is not
    [(-1) mod 4 = 3] and is none of the four enumerators. *)
Theorem setWaveform_int_negative_index (e : AudioEngine) :
  waveformTag (setWaveform_int (-1) e) = (-1)%Z
  /\ lfoWaveformTag (setLfoWaveform_int (-1) e) = (-1)%Z
  /\ ((-1) mod 4 = 3)%Z
  /\ ~ is_enumerator (osc_waveform (oscillator (setWaveform_int (-1) e)))
  /\ ~ is_enumerator (lfo_waveform (lfo (setLfoWaveform_int (-1) e))).
Proof.
  repeat split; try reflexivity;
    intros [H | [H | [H | H]]]; discriminate H.
Qed.

End EngineSetters.

(** ** The control surface *)

Section ControlSurface.

Import AudioEngine GPIOController.

(** C6.  Pressing shift selects bank B, pressing it again while it is held
    changes nothing (the press handler is idempotent), and releasing shift
    selects bank A, whatever the state of the control surface was. *)
Theorem shift_bank_switching (g : GPIOController) :
  getCurrentBank (onShiftPress g) = B
  /\ onShiftPress (onShiftPress g) = onShiftPress g
  /\ getCurrentBank (onShiftRelease g) = A
  /\ getCurrentBank (onShiftRelease (onShiftPress g)) = A
  /\ getCurrentBank (onShiftRelease (onShiftPress (onShiftPress g))) = A.
Proof.
  repeat split.
Qed.

(** The shift handlers leave the parameters and the engine alone. *)
Lemma shift_keeps_params (g : GPIOController) :
  params (onShiftPress g) = params g /\ engine (onShiftPress g) = engine g
  /\ params (onShiftRelease g) = params g
  /\ engine (onShiftRelease g) = engine g.
Proof.
  repeat split.
Qed.

(** In bank B encoder 1 (index 0) steps the release time by 0.1 s within
    [0.01, 5] and writes it to the engine's envelope. *)
Lemma handleEncoder_release (g : GPIOController) (direction : Z) :
  currentBank g = B ->
  let g' := handleEncoder 0 direction g in
  p_release (params g')
  = clamp (p_release (params g) + (1 # 10) * inject_Z direction) (1 # 100) 5
  /\ env_release (envelope (engine g')) = p_release (params g')
  /\ p_volume (params g') = p_volume (params g)
  /\ getVolume (engine g') = getVolume (engine g).
Proof.
  intros Hb g'. subst g'. unfold handleEncoder. rewrite Hb. simpl.
  repeat split.
Qed.

(** In bank A encoder 1 (index 0) steps the volume by 0.02 within [0, 1] and
    writes it to the engine's volume carrier. *)
Lemma handleEncoder_volume (g : GPIOController) (direction : Z) :
  currentBank g = A ->
  let g' := handleEncoder 0 direction g in
  p_volume (params g')
  = clamp (p_volume (params g) + (2 # 100) * inject_Z direction) 0 1
  /\ getVolume (engine g') == p_volume (params g')
  /\ p_release (params g') = p_release (params g)
  /\ env_release (envelope (engine g')) = env_release (envelope (engine g)).
Proof.
  intros Hb g'. subst g'. unfold handleEncoder. rewrite Hb. simpl.
  repeat split.
  unfold getVolume, setVolume. simpl.
  rewrite (clamp_inside (clamp _ 0 1)); [reflexivity|].
  apply clamp_range; lra.
Qed.

(** C5.  From the default parameters (volume 0.7, release 0.5) and any
    engine: with shift pressed, one +1 tick of encoder 1 makes
    [params.release] 0.6 and writes 0.6 to the engine's release time, the
    volume staying 0.7; after shift is released, one +1 tick of encoder 1
    makes [params.volume] 0.72 and writes 0.72 to the engine's volume, while
    [params.release] and the engine's release time stay 0.6. *)
Theorem bank_switch_scenario (g0 : GPIOController) :
  params g0 = Parameters_default ->
  let g1 := handleEncoder 0 1 (onShiftPress g0) in
  let g2 := handleEncoder 0 1 (onShiftRelease g1) in
  p_volume (params g0) == 7 # 10
  /\ p_release (params g0) == 5 # 10
  /\ getCurrentBank (onShiftPress g0) = B
  /\ p_release (params g1) == 6 # 10
  /\ env_release (envelope (engine g1)) == 6 # 10
  /\ p_volume (params g1) == 7 # 10
  /\ getCurrentBank (onShiftRelease g1) = A
  /\ p_volume (params g2) == 72 # 100
  /\ getVolume (engine g2) == 72 # 100
  /\ p_release (params g2) == 6 # 10
  /\ env_release (envelope (engine g2)) == 6 # 10.
Proof.
  destruct g0 as [e run bank shift p]. cbn [params]. intros ->.
  cbv zeta.
  repeat (refine (conj _ _); [vm_compute; reflexivity|]).
  vm_compute; reflexivity.
Qed.

Lemma bank_switch_scenario_witness :
  let g0 := start (GPIOController_new engine0) in
  let g1 := handleEncoder 0 1 (onShiftPress g0) in
  let g2 := handleEncoder 0 1 (onShiftRelease g1) in
  p_release (params g1) == 6 # 10
  /\ env_release (envelope (engine g1)) == 6 # 10
  /\ p_volume (params g2) == 72 # 100
  /\ getVolume (engine g2) == 72 # 100
  /\ p_release (params g2) == 6 # 10.
Proof.
  intros g0 g1 g2.
  destruct (bank_switch_scenario g0 eq_refl)
    as (_ & _ & _ & H1 & H2 & _ & _ & H3 & H4 & H5 & _).
  exact (conj H1 (conj H2 (conj H3 (conj H4 H5)))).
Defined.

End ControlSurface.

(** ** Counted loops *)

Section Loops.

Context {S : Type}.

Lemma for_loop_succ (n : nat) (body : Z -> S -> S) (s : S) :
  for_loop (Datatypes.S n) body s = body (Z.of_nat n) (for_loop n body s).
Proof.
  unfold for_loop. rewrite seq_S, fold_left_app. reflexivity.
Qed.

(** Invariant rule: [P k] holds of the state after [k] iterations. *)
Lemma for_loop_invariant (P : nat -> S -> Prop) (n : nat)
  (body : Z -> S -> S) (s : S) :
  P O s ->
  (forall k st, (k < n)%nat -> P k st ->
                P (Datatypes.S k) (body (Z.of_nat k) st)) ->
  P n (for_loop n body s).
Proof.
  intros H0 Hstep. induction n as [|n IH].
  - exact H0.
  - rewrite for_loop_succ. apply Hstep; [lia|].
    apply IH. intros k st Hk. apply Hstep. lia.
Qed.

End Loops.

Lemma nth_map_seq {A : Type} (f : nat -> A) (n i : nat) (d : A) :
  (i < n)%nat -> nth i (map f (seq 0 n)) d = f i.
Proof.
  intro Hi.
  rewrite (nth_indep _ d (f O)) by (rewrite length_map, length_seq; exact Hi).
  rewrite (map_nth f), seq_nth by exact Hi. reflexivity.
Qed.

(** ** The chamber reverb *)

Section ChamberReverb.

Import Reverb.

Lemma updateParameters_feedback (r : ReverbEffect) :
  Forall (fun c => cf_feedback c = (4 # 10) + rv_size r * (45 # 100))
         (combFilters (updateParameters r)).
Proof.
  unfold updateParameters; simpl.
  apply Forall_forall. intros c Hc.
  apply in_map_iff in Hc. destruct Hc as [c0 [<- _]]. reflexivity.
Qed.

Lemma updateParameters_length (r : ReverbEffect) :
  length (combFilters (updateParameters r)) = length (combFilters r).
Proof.
  unfold updateParameters; simpl. apply length_map.
Qed.

(** The constructor builds six damped comb filters. *)
Lemma ReverbEffect_new_combs (sampleRate : Z) (phases : list Q) :
  length (combFilters (ReverbEffect_new sampleRate phases)) = NUM_COMB_FILTERS.
Proof.
  unfold ReverbEffect_new. rewrite updateParameters_length. reflexivity.
Qed.

(** C7.  For every float [s], after [setSize(s)] the feedback gain of every
    damped comb filter of the chamber reverb is
    [0.4 + clamp(s, 0, 1) * 0.45], a value strictly below 0.98; [setSize]
    keeps the filters it is given (six after construction). *)
Theorem setSize_comb_feedback (r : ReverbEffect) (s : Q) :
  Forall (fun c =>
            cf_feedback c = (4 # 10) + std_clamp s 0 1 * (45 # 100)
            /\ cf_feedback c < 98 # 100)
         (combFilters (setSize s r))
  /\ length (combFilters (setSize s r)) = length (combFilters r)
  /\ forall sampleRate phases,
       length (combFilters (setSize s (ReverbEffect_new sampleRate phases)))
       = 6%nat.
Proof.
  split; [|split].
  - unfold setSize.
    eapply Forall_impl; [|apply updateParameters_feedback].
    simpl. intros c Hc. split; [exact Hc|].
    rewrite Hc.
    assert (H : 0 <= clamp s 0 1 <= 1) by (apply clamp_range; lra).
    unfold clamp in H. lra.
  - unfold setSize. rewrite updateParameters_length. reflexivity.
  - intros sampleRate phases. unfold setSize.
    rewrite updateParameters_length.
    exact (ReverbEffect_new_combs sampleRate phases).
Qed.

Lemma processEarlyReflections_dryWet (r : ReverbEffect) (input : list Q)
  (n : nat) :
  rv_dryWet (processEarlyReflections r input n) = rv_dryWet r.
Proof.
  unfold processEarlyReflections.
  destruct (for_loop n _ _) as [[bufs wps] out]. reflexivity.
Qed.

(** The samples that [process] writes are the dry/wet mix of the input with
    some wet signal. *)
Lemma process_output_mix (M : MathLib) (r : ReverbEffect) (input : list Q)
  (n : nat) :
  exists wetSignal : nat -> Q,
    fst (process M r input n)
    = map (fun k => rd input (Z.of_nat k) * (1 - rv_dryWet r)
                    + wetSignal k * rv_dryWet r)
          (seq 0 n).
Proof.
  unfold process.
  set (r1 := if (length (earlyBuffer r) <? n)%nat then _ else r).
  assert (H1 : rv_dryWet r1 = rv_dryWet r)
    by (subst r1; destruct (length (earlyBuffer r) <? n)%nat; reflexivity).
  set (r2 := processEarlyReflections r1 input n).
  assert (H2 : rv_dryWet r2 = rv_dryWet r)
    by (subst r2; rewrite processEarlyReflections_dryWet; exact H1).
  destruct (for_loop n _ (copy_into n input (diffusedBuffer r2), _))
    as [diffused inDiff].
  destruct (for_loop n _ (combOutputBuffer r2, _)) as [combOut0 combs].
  destruct (for_loop n _ (combOut0, _)) as [combOut outDiff].
  simpl. rewrite H2.
  exists (fun k => rd (earlyBuffer r2) (Z.of_nat k) * earlyLevel r2
                   + rd combOut (Z.of_nat k)).
  reflexivity.
Qed.

Lemma process_keeps_dryWet (M : MathLib) (r : ReverbEffect) (input : list Q)
  (n : nat) :
  rv_dryWet (snd (process M r input n)) = rv_dryWet r.
Proof.
  unfold process.
  set (r1 := if (length (earlyBuffer r) <? n)%nat then _ else r).
  assert (H1 : rv_dryWet r1 = rv_dryWet r)
    by (subst r1; destruct (length (earlyBuffer r) <? n)%nat; reflexivity).
  set (r2 := processEarlyReflections r1 input n).
  assert (H2 : rv_dryWet r2 = rv_dryWet r)
    by (subst r2; rewrite processEarlyReflections_dryWet; exact H1).
  destruct (for_loop n _ (copy_into n input (diffusedBuffer r2), _))
    as [diffused inDiff].
  destruct (for_loop n _ (combOutputBuffer r2, _)) as [combOut0 combs].
  destruct (for_loop n _ (combOut0, _)) as [combOut outDiff].
  exact H2.
Qed.

Lemma process_dry (M : MathLib) (r : ReverbEffect) (input : list Q)
  (n i : nat) :
  rv_dryWet r == 0 -> (i < n)%nat ->
  length (fst (process M r input n)) = n
  /\ nth i (fst (process M r input n)) 0 == rd input (Z.of_nat i).
Proof.
  intros Hdry Hi.
  destruct (process_output_mix M r input n) as [w ->].
  split.
  - rewrite length_map, length_seq. reflexivity.
  - rewrite nth_map_seq by exact Hi.
    rewrite Hdry. ring.
Qed.

End ChamberReverb.

(** ** The Freeverb-style reverb *)

Section FreeverbReverb.

Import Freeverb.

Lemma process_sample_mix (r : ReverbEffect) (x : Q) :
  exists wetSum : Q,
    fst (process_sample r x)
    = wetSum * (1 # 2) * wet r * SCALE_WET + x * dry r * SCALE_DRY * (1 # 2)
    /\ wet (snd (process_sample r x)) = wet r
    /\ dry (snd (process_sample r x)) = dry r.
Proof.
  unfold process_sample.
  set (s2 := for_loop NUM_ALLPASS allpass_step _).
  exists (outL s2 + outR s2). repeat split.
Qed.

Lemma process_dry_freeverb (r : ReverbEffect) (input : list Q) (n : nat) :
  wet r == 0 -> dry r == 1 ->
  wet (snd (process r input n)) = wet r
  /\ dry (snd (process r input n)) = dry r
  /\ length (fst (process r input n)) = n
  /\ forall i, (i < n)%nat ->
               nth i (fst (process r input n)) 0 == rd input (Z.of_nat i).
Proof.
  intros Hw Hd. unfold process.
  apply (for_loop_invariant
           (fun k (st : list Q * ReverbEffect) =>
              wet (snd st) = wet r /\ dry (snd st) = dry r
              /\ length (fst st) = k
              /\ forall i, (i < k)%nat ->
                           nth i (fst st) 0 == rd input (Z.of_nat i))).
  - cbn [fst snd length]. repeat split. intros i Hi. lia.
  - intros k [out r0] Hk (Hw0 & Hd0 & Hlen & Hnth). cbn [fst snd] in *.
    destruct (process_sample_mix r0 (rd input (Z.of_nat k)))
      as (ws & Hy & Hw1 & Hd1).
    destruct (process_sample r0 (rd input (Z.of_nat k))) as [y r1].
    cbn [fst snd] in *. repeat split.
    + congruence.
    + congruence.
    + rewrite length_app, Hlen. simpl. lia.
    + intros i Hi.
      destruct (Nat.eq_dec i k) as [-> | Hne].
      * rewrite app_nth2 by lia. rewrite Hlen, Nat.sub_diag. cbn [nth].
        rewrite Hy, Hw0, Hd0, Hw, Hd. unfold SCALE_WET, SCALE_DRY. ring.
      * rewrite app_nth1 by lia. apply Hnth. lia.
Qed.

End FreeverbReverb.

(** ** Dry reverb *)

Section DryReverb.

(** C8.  [setDryWet(0)] sets the dry/wet mix of either reverb (the chamber
    reverb and the Freeverb-style one) to 0; with the mix at 0, [process]
    writes, for every input buffer and every number of samples, output
    samples equal to the input samples, and leaves the mix at 0. *)
Theorem dry_reverb_is_identity (M : MathLib) (r : Reverb.ReverbEffect)
  (fr : Freeverb.ReverbEffect) (input : list Q) (n : nat) :
  Reverb.chamber_dry (Reverb.setDryWet 0 r)
  /\ Freeverb.freeverb_dry (Freeverb.setDryWet 0 fr)
  /\ (Reverb.chamber_dry r ->
      let res := Reverb.process M r input n in
      Reverb.chamber_dry (snd res)
      /\ length (fst res) = n
      /\ forall i, (i < n)%nat -> nth i (fst res) 0 == rd input (Z.of_nat i))
  /\ (Freeverb.freeverb_dry fr ->
      let res := Freeverb.process fr input n in
      Freeverb.freeverb_dry (snd res)
      /\ length (fst res) = n
      /\ forall i, (i < n)%nat -> nth i (fst res) 0 == rd input (Z.of_nat i)).
Proof.
  split; [reflexivity|]. split; [split; reflexivity|]. split.
  - intros Hdry res. subst res. unfold Reverb.chamber_dry, Reverb.getDryWet in *.
    rewrite process_keeps_dryWet.
    split; [exact Hdry|]. split.
    + destruct (process_output_mix M r input n) as [w ->].
      rewrite length_map, length_seq. reflexivity.
    + intros i Hi. exact (proj2 (process_dry M r input n i Hdry Hi)).
  - intros [Hw Hd] res. subst res. unfold Freeverb.freeverb_dry, Freeverb.getDryWet in *.
    destruct (process_dry_freeverb fr input n Hw Hd) as (-> & -> & Hl & Hn).
    repeat split; assumption.
Qed.

Lemma dry_reverb_is_identity_witness :
  let input := [1 # 2; -(3 # 4); 1 # 8] in
  nth 1 (fst (Reverb.process mathlib0 (Reverb.setDryWet 0 chamber0) input 3)) 0
  == rd input 1
  /\ nth 1 (fst (Freeverb.process (Freeverb.setDryWet 0 freeverb0) input 3)) 0
     == rd input 1.
Proof.
  intro input.
  destruct (dry_reverb_is_identity mathlib0 (Reverb.setDryWet 0 chamber0)
              (Freeverb.setDryWet 0 freeverb0) input 3)
    as (_ & _ & Hc & Hf).
  destruct (Hc ltac:(reflexivity)) as (_ & _ & H1).
  destruct (Hf ltac:(split; reflexivity)) as (_ & _ & H2).
  exact (conj (H1 1%nat ltac:(lia)) (H2 1%nat ltac:(lia))).
Defined.

(** The first block through the chamber reverb of [chamber0] with the mix at
    0, computed. *)
Example chamber_dry_block :
  map Qred
      (fst (Reverb.process mathlib0 (Reverb.setDryWet 0 chamber0)
                           [1 # 2; -(3 # 4); 1 # 8] 3))
  = [1 # 2; -(3 # 4); 1 # 8].
Proof. vm_compute. reflexivity. Qed.

(** The same block with the mix at 1/2: the delay lines are still empty, so
    the wet signal is zero and the output is half the input. *)
Example chamber_half_wet_block :
  map Qred
      (fst (Reverb.process mathlib0 (Reverb.setDryWet (1 # 2) chamber0)
                           [1 # 2; -(3 # 4); 1 # 8] 3))
  = [1 # 4; -(3 # 8); 1 # 16].
Proof. vm_compute. reflexivity. Qed.

End DryReverb.

(** ** The audio callback of the engine *)

Section EngineProcess.

Import AudioEngine.

(** Splitting every pair that a [let] of the goal takes apart. *)
Ltac split_lets :=
  repeat match goal with
         | |- context [match ?x with pair _ _ => _ end] => destruct x
         end.

Lemma fits_setPitchEnvelopeMode (m : PitchEnvelopeMode) (e : AudioEngine)
  (n : nat) :
  fits n (setPitchEnvelopeMode m e) = fits n e.
Proof. reflexivity. Qed.

(** Within the work buffers [process] has a result. *)
Lemma process_total (K : Kernels) (e : AudioEngine) (n : nat) :
  fits n e = true -> exists out e', process K e n = Some (out, e').
Proof.
  intro Hf. unfold process. rewrite Hf. cbn [negb].
  split_lets. eexists. eexists. reflexivity.
Qed.


(** The samples written are the clamped products of some buffer with the
    volume, each one twice. *)
Lemma process_output_shape (K : Kernels) (e : AudioEngine) (n : nat)
  (out : list Q) (e' : AudioEngine) :
  process K e n = Some (out, e') ->
  exists buf, out = flat_map (out_frame buf (getVolume e)) (seq 0 n).
Proof.
  unfold process. destruct (fits n e); cbn [negb]; [|discriminate].
  split_lets. intro H. injection H as <- _.
  eexists. reflexivity.
Qed.

Lemma flat_map_out_frame (buf : list Q) (vol : Q) (l : list nat) :
  length (flat_map (out_frame buf vol) l) = (2 * length l)%nat
  /\ Forall (fun y => Qabs y <= 1) (flat_map (out_frame buf vol) l).
Proof.
  induction l as [|k l [IHlen IHall]]; cbn [flat_map length].
  - split; [reflexivity | constructor].
  - split.
    + unfold out_frame at 1. cbn [app length]. lia.
    + unfold out_frame at 1. cbn [app].
      constructor; [apply clamp_abs_le_1|].
      constructor; [apply clamp_abs_le_1|]. exact IHall.
Qed.

(** C2.  For every engine state (so for every parameter setting), every
    choice of the generating kernels and every number of frames, every
    sample that [process] writes to the output buffer has an absolute value
    of at most 1; it writes [2 * numFrames] samples, and it has a result
    whenever the frames fit the engine's work buffers. *)
Theorem process_output_bounded (K : Kernels) (e : AudioEngine) (n : nat) :
  (fits n e = true -> exists out e', process K e n = Some (out, e'))
  /\ forall out e',
       process K e n = Some (out, e') ->
       length out = (2 * n)%nat /\ Forall (fun y => Qabs y <= 1) out.
Proof.
  split.
  - apply process_total.
  - intros out e' H.
    destruct (process_output_shape K e n out e' H) as [buf ->].
    destruct (flat_map_out_frame buf (getVolume e) (seq 0 n)) as [Hl Ha].
    rewrite length_seq in Hl. split; assumption.
Qed.

Lemma process_output_bounded_witness :
  exists out e',
    process bypass (setVolume 5 engine0) 3 = Some (out, e')
    /\ length out = 6%nat /\ Forall (fun y => Qabs y <= 1) out.
Proof.
  destruct (process_output_bounded bypass (setVolume 5 engine0) 3)
    as [Htotal Hbound].
  destruct (Htotal ltac:(vm_compute; reflexivity)) as (out & e' & H).
  exists out, e'. split; [exact H|]. exact (Hbound out e' H).
Defined.

(** *** The oscillator frequency *)

Lemma smooth_iter_target (n : nat) (s : SmoothedValue) :
  sv_target (smooth_iter n s) = sv_target s
  /\ sv_coeff (smooth_iter n s) = sv_coeff s.
Proof.
  induction n as [|n [IHt IHc]]; [split; reflexivity|].
  cbn [smooth_iter sv_getNext snd sv_target sv_coeff]. split; assumption.
Qed.

(** A smoother that has reached its target stays there. *)
Lemma smooth_iter_settled (n : nat) (s : SmoothedValue) :
  sv_current s == sv_target s -> sv_current (smooth_iter n s) == sv_target s.
Proof.
  intro H. induction n as [|n IH]; [exact H|].
  cbn [smooth_iter sv_getNext snd sv_current].
  destruct (smooth_iter_target n s) as [-> _].
  rewrite IH. ring.
Qed.

(** With a coefficient in [0, 1] the smoothed value stays between the value
    it started from and its target. *)
Lemma smooth_iter_between (n : nat) (s : SmoothedValue) (lo hi : Q) :
  0 <= sv_coeff s <= 1 ->
  lo <= sv_current s <= hi -> lo <= sv_target s <= hi ->
  lo <= sv_current (smooth_iter n s) <= hi.
Proof.
  intros Hc Hcur Ht. induction n as [|n IH]; [exact Hcur|].
  cbn [smooth_iter sv_getNext snd sv_current].
  destruct (smooth_iter_target n s) as [-> ->].
  set (c := sv_current (smooth_iter n s)) in *.
  set (k := sv_coeff s) in *. set (t := sv_target s) in *.
  assert (E : c + k * (t - c) == (1 - k) * c + k * t) by ring.
  rewrite E. split.
  - assert (H1 : (1 - k) * lo <= (1 - k) * c)
      by (rewrite (Qmult_comm _ lo), (Qmult_comm _ c);
          apply Qmult_le_compat_r; lra).
    assert (H2 : k * lo <= k * t)
      by (rewrite (Qmult_comm _ lo), (Qmult_comm _ t);
          apply Qmult_le_compat_r; lra).
    lra.
  - assert (H1 : (1 - k) * c <= (1 - k) * hi)
      by (rewrite (Qmult_comm _ c), (Qmult_comm _ hi);
          apply Qmult_le_compat_r; lra).
    assert (H2 : k * t <= k * hi)
      by (rewrite (Qmult_comm _ t), (Qmult_comm _ hi);
          apply Qmult_le_compat_r; lra).
    lra.
Qed.

(** The oscillator loop sets, frame after frame, the next value of the
    smoother as the oscillator's frequency. *)
Lemma osc_loop_frequency (K : Kernels) (n : nat) (sm : SmoothedValue) (cf : Q)
  (osc : Oscillator) (buf : list Q) :
  let st := for_loop n (osc_step K) (sm, cf, osc, buf) in
  fst (fst (fst st)) = smooth_iter n sm
  /\ snd (fst (fst st))
     = match n with O => cf | S _ => sv_current (smooth_iter n sm) end.
Proof.
  apply (for_loop_invariant
           (fun k (st : SmoothedValue * Q * Oscillator * list Q) =>
              fst (fst (fst st)) = smooth_iter k sm
              /\ snd (fst (fst st))
                 = match k with
                   | O => cf
                   | S _ => sv_current (smooth_iter k sm)
                   end)).
  - split; reflexivity.
  - intros k [[[sm1 cf1] osc1] buf1] _ [H1 _]. cbn [fst snd] in H1. subst sm1.
    unfold osc_step. cbn [sv_getNext].
    destruct (osc_generateSample K _) as [y osc2].
    split; reflexivity.
Qed.

Lemma process_frequency (K : Kernels) (e : AudioEngine) (n : nat)
  (out : list Q) (e' : AudioEngine) :
  process K e n = Some (out, e') ->
  let sm0 := sv_setTarget (getFrequency e) (frequencySmooth e) in
  frequencySmooth e' = smooth_iter n sm0
  /\ currentFrequency e'
     = match n with
       | O => currentFrequency e
       | S _ => sv_current (smooth_iter n sm0)
       end.
Proof.
  unfold process. destruct (fits n e); cbn [negb]; [|discriminate].
  pose proof (osc_loop_frequency K n
                (sv_setTarget (param_get (baseFrequency e)) (frequencySmooth e))
                (currentFrequency e) (oscillator e) (oscBuffer e)) as Hosc.
  cbv zeta in Hosc.
  destruct (for_loop n (osc_step K) _) as [[[sm cf] osc] ob].
  cbn [fst snd] in Hosc. destruct Hosc as [-> ->].
  split_lets. intro H. injection H as _ <-.
  split; reflexivity.
Qed.

(** [process] does not read the pitch-envelope mode: with another mode the
    samples and the engine afterwards are the same, the mode apart. *)
Lemma process_setPitchEnvelopeMode (K : Kernels) (m : PitchEnvelopeMode)
  (e : AudioEngine) (n : nat) :
  process K (setPitchEnvelopeMode m e) n
  = match process K e n with
    | Some (out, e') => Some (out, setPitchEnvelopeMode m e')
    | None => None
    end.
Proof.
  unfold process. rewrite fits_setPitchEnvelopeMode.
  destruct (fits n e); cbn [negb]; [|reflexivity].
  change (frequencySmooth (setPitchEnvelopeMode m e)) with (frequencySmooth e).
  change (baseFrequency (setPitchEnvelopeMode m e)) with (baseFrequency e).
  change (currentFrequency (setPitchEnvelopeMode m e)) with (currentFrequency e).
  change (oscillator (setPitchEnvelopeMode m e)) with (oscillator e).
  change (oscBuffer (setPitchEnvelopeMode m e)) with (oscBuffer e).
  change (lfo (setPitchEnvelopeMode m e)) with (lfo e).
  change (lfoBuffer (setPitchEnvelopeMode m e)) with (lfoBuffer e).
  change (envelope (setPitchEnvelopeMode m e)) with (envelope e).
  change (envBuffer (setPitchEnvelopeMode m e)) with (envBuffer e).
  change (filter (setPitchEnvelopeMode m e)) with (filter e).
  change (filterBuffer (setPitchEnvelopeMode m e)) with (filterBuffer e).
  change (delay (setPitchEnvelopeMode m e)) with (delay e).
  change (delayBuffer (setPitchEnvelopeMode m e)) with (delayBuffer e).
  change (reverb (setPitchEnvelopeMode m e)) with (reverb e).
  change (dcBlocker (setPitchEnvelopeMode m e)) with (dcBlocker e).
  change (volume (setPitchEnvelopeMode m e)) with (volume e).
  split_lets. reflexivity.
Qed.

Lemma triggered_mode (m : PitchEnvelopeMode) (f0 att : Q) (e : AudioEngine) :
  triggered m f0 att e
  = setPitchEnvelopeMode m (trigger (setAttackTime att (setFrequency f0 e))).
Proof. reflexivity. Qed.

Lemma triggered_smoother (m : PitchEnvelopeMode) (f0 att : Q) (e : AudioEngine) :
  sv_setTarget (getFrequency (triggered m f0 att e))
               (frequencySmooth (triggered m f0 att e))
  = sv_setTarget (clamp f0 20 20000) (frequencySmooth e).
Proof. reflexivity. Qed.

(** C1, as the code has it.  For every base frequency [f0] and every
    pitch-envelope mode, [trigger()] followed by [process] gives the samples
    and the engine that it gives with mode None, the stored mode apart: no
    octave ramp is applied.  The oscillator's frequency is, frame after
    frame, the next value of the frequency smoother on its way to
    [clamp(f0, 20, 20000)]; it stays at that value once the smoother has
    reached it, and with a coefficient in [0, 1] it never leaves the range
    between the smoother's starting value and that target. *)
Theorem pitch_mode_is_ignored (K : Kernels) (e : AudioEngine)
  (m : PitchEnvelopeMode) (f0 att : Q) (n : nat) (out : list Q)
  (e' : AudioEngine) :
  process K (triggered m f0 att e) (S n) = Some (out, e') ->
  let target := clamp f0 20 20000 in
  let sm := smooth_iter (S n) (sv_setTarget target (frequencySmooth e)) in
  (exists e0, process K (triggered PitchNone f0 att e) (S n) = Some (out, e0)
              /\ e' = setPitchEnvelopeMode m e0)
  /\ currentFrequency e' = sv_current sm
  /\ (sv_current (frequencySmooth e) == target ->
      currentFrequency e' == target)
  /\ (forall lo hi,
        0 <= sv_coeff (frequencySmooth e) <= 1 ->
        lo <= sv_current (frequencySmooth e) <= hi ->
        lo <= target <= hi ->
        lo <= currentFrequency e' <= hi).
Proof.
  intros H target sm.
  pose proof (process_frequency K _ _ _ _ H) as [_ Hcur].
  cbv zeta in Hcur. rewrite triggered_smoother in Hcur.
  fold target in Hcur. fold sm in Hcur.
  split; [|split; [exact Hcur|split]].
  - rewrite triggered_mode, process_setPitchEnvelopeMode in H.
    rewrite triggered_mode, process_setPitchEnvelopeMode.
    destruct (process K (trigger (setAttackTime att (setFrequency f0 e))) (S n))
      as [[out1 e1]|]; [|discriminate].
    injection H as <- <-.
    exists (setPitchEnvelopeMode PitchNone e1). split; reflexivity.
  - intro Hs. rewrite Hcur. subst sm.
    apply (smooth_iter_settled (S n)
             (sv_setTarget target (frequencySmooth e))). exact Hs.
  - intros lo hi Hc Hlo Ht. rewrite Hcur. subst sm.
    apply smooth_iter_between; assumption.
Qed.

Lemma pitch_mode_is_ignored_witness :
  exists out e',
    process bypass (triggered PitchDown 200 (1 # 10) engine0) 2
    = Some (out, e')
    /\ (exists e0,
          process bypass (triggered PitchNone 200 (1 # 10) engine0) 2
          = Some (out, e0)
          /\ e' = setPitchEnvelopeMode PitchDown e0)
    /\ 200 <= currentFrequency e' <= 440.
Proof.
  destruct (process_total bypass (triggered PitchDown 200 (1 # 10) engine0) 2
              ltac:(vm_compute; reflexivity)) as (out & e' & H).
  exists out, e'. split; [exact H|].
  destruct (pitch_mode_is_ignored bypass engine0 PitchDown 200 (1 # 10) 1
              out e' H) as (Hsame & _ & _ & Hrange).
  split; [exact Hsame|].
  apply Hrange; vm_compute; split; discriminate.
Defined.

(** C1, as stated, fails.  With mode Up, a base frequency of 200 Hz and an
    attack of 0.1 s, the frequency of the first frame after [trigger()] is
    439.75 Hz for the engine [engine0] (the smoother leaving 440 Hz for
    200 Hz), not within 1 Hz of 100 Hz. *)
Lemma pitch_envelope_up_not_applied :
  exists out e',
    process bypass (triggered PitchUp 200 (1 # 10) engine0) 1 = Some (out, e')
    /\ currentFrequency e' == 43975 # 100
    /\ ~ (Qabs (currentFrequency e' - 100) <= 1).
Proof.
  destruct (process_total bypass (triggered PitchUp 200 (1 # 10) engine0) 1
              ltac:(vm_compute; reflexivity)) as (out & e' & H).
  exists out, e'. split; [exact H|].
  pose proof (process_frequency bypass _ _ _ _ H) as [_ Hcur].
  cbv zeta in Hcur. rewrite Hcur. split.
  - vm_compute. reflexivity.
  - vm_compute. intro Hle. apply Hle. reflexivity.
Qed.

End EngineProcess.

(** ** Vectors written by index *)

Section VectorWrites.

Context {A : Type}.

Lemma length_upd (i : nat) (x : A) (l : list A) : length (upd i x l) = length l.
Proof.
  revert i. induction l as [|h t IH]; intros [|i]; cbn; auto.
Qed.

Lemma nth_error_upd_eq (i : nat) (x : A) (l : list A) :
  (i < length l)%nat -> nth_error (upd i x l) i = Some x.
Proof.
  revert i. induction l as [|h t IH]; intros [|i] H; cbn in *; try lia.
  - reflexivity.
  - apply IH. lia.
Qed.

Lemma nth_error_upd_neq (i j : nat) (x : A) (l : list A) :
  i <> j -> nth_error (upd i x l) j = nth_error l j.
Proof.
  revert i j. induction l as [|h t IH]; intros [|i] [|j] H; cbn; try reflexivity.
  - lia.
  - apply IH. lia.
Qed.

End VectorWrites.

(** ** The sample player *)

Section SamplePlayback.

Import SamplePlayer.

Lemma length_memset_zero (start count : nat) (out : list Q) :
  length (memset_zero start count out) = length out.
Proof.
  revert start. induction count as [|c IH]; intro start; cbn; [reflexivity|].
  rewrite length_upd. apply IH.
Qed.

Lemma memset_zero_inside (start count : nat) (out : list Q) (j : nat) :
  (start <= j < start + count)%nat -> (j < length out)%nat ->
  nth_error (memset_zero start count out) j = Some 0.
Proof.
  revert start. induction count as [|c IH]; intros start Hj Hlen; cbn; [lia|].
  destruct (Nat.eq_dec start j) as [-> | Hne].
  - apply nth_error_upd_eq. rewrite length_memset_zero. exact Hlen.
  - rewrite nth_error_upd_neq by exact Hne. apply IH; lia.
Qed.

(** The frame loop without looping: it has a result, keeps the size of the
    output buffer, and if the playhead is at or past the end of the data at
    some frame [k] of the block, playback is stopped and the buffer is zero
    from frame [k] to the end of the block. *)
Lemma process_loop_end (data : list Q) (vol : Q) (numFrames : nat) :
  Nat.even (length data) = true ->
  forall (todo frame pos : nat) (out : list Q),
    Nat.even pos = true ->
    (frame + todo = numFrames)%nat ->
    (2 * numFrames <= length out)%nat ->
    exists pl pos' out',
      process_loop data vol false numFrames todo frame pos out
      = Some (pl, pos', out')
      /\ length out' = length out
      /\ forall k, (frame <= k < numFrames)%nat ->
                   (length data <= pos + 2 * (k - frame))%nat ->
                   pl = false
                   /\ forall j, (2 * k <= j < 2 * numFrames)%nat ->
                                nth_error out' j = Some 0.
Proof.
  intros Hdata todo.
  induction todo as [|todo IH]; intros frame pos out Hpos Hfr Hout.
  - cbn. exists true, pos, out. repeat split; intros; lia.
  - cbn [process_loop]. cbn [negb andb].
    destruct (length data <=? pos)%nat eqn:Hend; cbn [andb].
    + apply Nat.leb_le in Hend.
      exists false, pos, (memset_zero (frame * 2) ((numFrames - frame) * 2) out).
      split; [reflexivity|]. split; [apply length_memset_zero|].
      intros k Hk _. split; [reflexivity|].
      intros j Hj. apply memset_zero_inside; lia.
    + apply Nat.leb_gt in Hend.
      assert (Hnext : (pos + 1 < length data)%nat).
      { apply Nat.even_spec in Hdata. apply Nat.even_spec in Hpos.
        destruct Hdata as [a Ha]. destruct Hpos as [b Hb]. lia. }
      unfold read.
      destruct (nth_error data (pos + 0)) as [l|] eqn:El;
        [|apply nth_error_None in El; lia].
      destruct (nth_error data (pos + 1)) as [r|] eqn:Er;
        [|apply nth_error_None in Er; lia].
      destruct (IH (S frame) (pos + 2)%nat
                   (upd (frame * 2 + 1) (r * vol)
                        (upd (frame * 2 + 0) (l * vol) out)))
        as (pl & pos' & out' & Hrun & Hlen & Hzero).
      * rewrite Nat.even_add, Hpos. reflexivity.
      * lia.
      * rewrite !length_upd. exact Hout.
      * exists pl, pos', out'. split; [exact Hrun|].
        split; [rewrite Hlen, !length_upd; reflexivity|].
        intros k Hk Hreach. apply Hzero; lia.
Qed.

(** C9.  [process(out, N)] fills the whole block [out[0 .. 2N)] with zeros
    whenever the player is not playing or no sample is loaded, and leaves the
    player as it is.  When the player is playing without looping and the
    playhead is at or past the end of the sample at some frame [k] of the
    block, the player stops ([isPlaying] becomes false) and the block is zero
    from frame [k] on. *)
Theorem process_silence_and_end (p : SamplePlayer) (out : list Q) (n : nat) :
  (2 * n <= length out)%nat ->
  (isPlaying p = false \/ isLoaded p = false ->
   exists out',
     process p out n = Some (out', p)
     /\ length out' = length out
     /\ forall j, (j < 2 * n)%nat -> nth_error out' j = Some 0)
  /\ (isPlaying p = true -> isLoaded p = true -> loop p = false ->
      frame_aligned p ->
      forall k, (k < n)%nat ->
                (length (sampleData p) <= playbackPosition p + 2 * k)%nat ->
                exists out' p',
                  process p out n = Some (out', p')
                  /\ isPlaying p' = false
                  /\ length out' = length out
                  /\ forall j, (2 * k <= j < 2 * n)%nat ->
                               nth_error out' j = Some 0).
Proof.
  intro Hout. split.
  - intro Hidle. unfold process.
    assert (Hc : negb (playing p) || negb (isLoaded p) = true).
    { unfold isPlaying in Hidle. destruct Hidle as [-> | ->]; cbn;
        [reflexivity | apply orb_true_r]. }
    rewrite Hc. eexists. split; [reflexivity|].
    split; [apply length_memset_zero|].
    intros j Hj. apply memset_zero_inside; lia.
  - intros Hplay Hload Hloop [Hdata Hpos] k Hk Hreach.
    unfold process. unfold isPlaying in Hplay. rewrite Hplay, Hload, Hloop.
    cbn [negb orb].
    destruct (process_loop_end (sampleData p) (sp_volume p) n Hdata
                n O (playbackPosition p) out Hpos ltac:(lia) Hout)
      as (pl & pos' & out' & Hrun & Hlen & Hzero).
    rewrite Hrun.
    destruct (Hzero k ltac:(lia) ltac:(lia)) as [-> Hz].
    exists out', (with_playback false pos' p).
    repeat split; assumption.
Qed.

Example process_player0 :
  process player0 (repeat 1 8) 4
  = Some ([(1 # 2) * 1; (1 # 4) * 1; -(1 # 8) * 1; (1 # 16) * 1; 0; 0; 0; 0],
          with_playback false 4 player0).
Proof. reflexivity. Qed.

Lemma process_silence_and_end_witness :
  (exists out',
     process (SamplePlayer_new 48000) (repeat 1 8) 4
     = Some (out', SamplePlayer_new 48000)
     /\ forall j, (j < 8)%nat -> nth_error out' j = Some 0)
  /\ (exists out' p',
        process player0 (repeat 1 8) 4 = Some (out', p')
        /\ isPlaying p' = false
        /\ forall j, (4 <= j < 8)%nat -> nth_error out' j = Some 0).
Proof.
  split.
  - destruct (process_silence_and_end (SamplePlayer_new 48000) (repeat 1 8) 4
                ltac:(cbn; lia)) as [Hidle _].
    destruct (Hidle (or_introl eq_refl)) as (out' & Hrun & _ & Hzero).
    exists out'. split; [exact Hrun | exact Hzero].
  - destruct (process_silence_and_end player0 (repeat 1 8) 4
                ltac:(cbn; lia)) as [_ Hend].
    destruct (Hend eq_refl eq_refl eq_refl (conj eq_refl eq_refl) 2%nat
                ltac:(lia) ltac:(cbn; lia))
      as (out' & p' & Hrun & Hstop & _ & Hzero).
    exists out', p'. repeat split; assumption.
Defined.

(** *** Resampling *)

(** The first index read in the channel loop is inside [input]. *)
Lemma index1_in_range (input : list Q) (ratio : Q) (channels outFrame ch : nat) :
  let inputFrames := (length input / channels)%nat in
  (0 < inputFrames)%nat -> (ch < channels)%nat ->
  (index1 (fst (source_frame ratio inputFrames outFrame)) channels ch
   < length input)%nat.
Proof.
  intros inputFrames Hpos Hch.
  assert (Hsize : (inputFrames * channels <= length input)%nat).
  { subst inputFrames. rewrite Nat.mul_comm. apply Nat.Div0.mul_div_le. }
  assert (Hsrc : (fst (source_frame ratio inputFrames outFrame)
                  < inputFrames)%nat).
  { unfold source_frame.
    destruct (inputFrames <=? _ + 1)%nat eqn:E; cbn [fst].
    - lia.
    - apply Nat.leb_gt in E. lia. }
  unfold index1. nia.
Qed.

(** When the guard [srcFrame + 1 >= inputFrames] fires, the source frame
    becomes the last frame, and the second index read, one frame further, is
    beyond an [input] of whole frames. *)
Lemma index2_past_the_end (input : list Q) (ratio : Q)
  (channels outFrame ch : nat) :
  let inputFrames := (length input / channels)%nat in
  length input = (inputFrames * channels)%nat -> (0 < inputFrames)%nat ->
  (inputFrames
   <= Z.to_nat (to_int (inject_Z (Z.of_nat outFrame) / ratio)) + 1)%nat ->
  (length input
   <= index2 (fst (source_frame ratio inputFrames outFrame)) channels ch)%nat
  /\ read input
          (index2 (fst (source_frame ratio inputFrames outFrame)) channels ch)
     = None.
Proof.
  intros inputFrames Hsize Hpos Hguard.
  assert (Hidx : (length input
                  <= index2 (fst (source_frame ratio inputFrames outFrame))
                            channels ch)%nat).
  { unfold source_frame. apply Nat.leb_le in Hguard. rewrite Hguard.
    cbn [fst]. unfold index2. nia. }
  split; [exact Hidx|]. unfold read. apply nth_error_None. exact Hidx.
Qed.

(** C10.  Resampling one stereo frame from 24000 Hz to 48000 Hz: for the
    first output frame the guard makes frame 0 the source frame, and the read
    of [input[(srcFrame + 1) * channels + ch]] is at index 2 of a vector of
    size 2.  The same happens at the end of a whole decoded MP3 frame of 576
    stereo frames. *)
Theorem resample_reads_past_the_end :
  let input := [1 # 2; 1 # 4] in
  let ratio := inject_Z 48000 / inject_Z 24000 in
  length input = 2%nat
  /\ fst (source_frame ratio 1 0) = 0%nat
  /\ index1 0 2 0 = 0%nat
  /\ index2 0 2 0 = 2%nat
  /\ read input (index2 0 2 0) = None
  /\ resample input 24000 48000 2 = None
  /\ fst (source_frame ratio 576 1150) = 575%nat
  /\ index2 575 2 0 = 1152%nat
  /\ resample (repeat 0 1152) 24000 48000 2 = None.
Proof.
  cbv zeta.
  repeat (refine (conj _ _); [vm_compute; reflexivity|]).
  vm_compute; reflexivity.
Qed.

(** Downsampling the same vectors stays inside them. *)
Example resample_down :
  option_map (map Qred)
    (resample [1 # 2; 1 # 4; 1; 1; 0; 0; 1 # 8; 1 # 8] 48000 24000 2)
  = Some [1 # 2; 1 # 4; 0; 0].
Proof. vm_compute. reflexivity. Qed.

End SamplePlayback.

(** ** The numeric properties in IEEE binary32 *)

Section Binary32Checks.

Import Binary32.
Local Open Scope Z_scope.

(** *** Comparison and clamping (C2, C3) *)

Lemma SFcompare_antisym (x y : spec_float) :
  SFcompare y x = option_map CompOpp (SFcompare x y).
Proof.
  destruct x as [sx|sx| |sx mx ex], y as [sy|sy| |sy my ey];
    cbn [SFcompare option_map CompOpp];
    try reflexivity;
    try (destruct sx; reflexivity); try (destruct sy; reflexivity);
    try (destruct sx, sy; reflexivity).
  pose proof (Pos.compare_cont_antisym mx my Eq) as Ha. cbn [CompOpp] in Ha.
  destruct sx, sy; try reflexivity;
    rewrite (Z.compare_antisym ex ey), <- Ha;
    destruct (ex ?= ey); cbn [CompOpp]; try reflexivity;
    destruct (Pos.compare_cont Eq mx my); reflexivity.
Qed.

Lemma SFcompare_refl (x : spec_float) :
  is_nan x = false -> SFcompare x x = Some Eq.
Proof.
  destruct x as [s|s| |s m e]; cbn [SFcompare is_nan];
    try discriminate; intros _.
  - reflexivity.
  - destruct s; reflexivity.
  - rewrite Z.compare_refl, Pos.compare_cont_refl. destruct s; reflexivity.
Qed.

Lemma SFcompare_nan_r (x y : spec_float) :
  SFcompare x y = None -> is_nan x = false -> is_nan y = true.
Proof.
  destruct x as [sx|sx| |sx mx ex], y as [sy|sy| |sy my ey];
    cbn [SFcompare is_nan]; intros H1 H2; try reflexivity; discriminate.
Qed.

(** The clamp of a number (not NaN) lies between the bounds. *)
Lemma binary32_clamp_bounds (v lo hi : spec_float) :
  is_nan v = false -> is_nan lo = false -> is_nan hi = false ->
  fle lo hi = true ->
  fle lo (clamp v lo hi) = true /\ fle (clamp v lo hi) hi = true.
Proof.
  intros Hv Hlo Hhi Hle. unfold clamp, flt, SFltb.
  destruct (SFcompare v lo) as [[| |]|] eqn:E1.
  2:{ unfold fle, SFleb. rewrite (SFcompare_refl lo Hlo).
      split; [reflexivity | exact Hle]. }
  3:{ apply SFcompare_nan_r in E1; [congruence | exact Hv]. }
  all: destruct (SFcompare hi v) as [[| |]|] eqn:E2.
  all: try (unfold fle, SFleb; rewrite (SFcompare_refl hi Hhi);
            split; [exact Hle | reflexivity]).
  all: try (apply SFcompare_nan_r in E2; [congruence | exact Hhi]).
  all: unfold fle, SFleb;
    rewrite (SFcompare_antisym v lo), E1, (SFcompare_antisym hi v), E2;
    split; reflexivity.
Qed.

Lemma abs_le_one (c : spec_float) :
  fle (fopp one) c = true -> fle c one = true -> fle (fabs c) one = true.
Proof.
  unfold fle, SFleb, fopp, fabs, one.
  destruct c as [s|s| |s m e]; cbn [SFcompare SFopp SFabs negb].
  - intros; reflexivity.
  - destruct s; intros; (reflexivity || discriminate).
  - intros; discriminate.
  - destruct s; [|intros _ H; exact H].
    intros H _. rewrite (Z.compare_antisym e (-23)) in H.
    destruct (e ?= -23); cbn [CompOpp] in *; try reflexivity; try discriminate.
    pose proof (Pos.compare_cont_antisym m 8388608 Eq) as Ha.
    cbn [CompOpp] in Ha. rewrite <- Ha in H.
    destruct (Pos.compare_cont Eq m 8388608); cbn [CompOpp] in *;
      try reflexivity; discriminate.
Qed.

(** The sample [clamp(x, -1.0f, 1.0f)] that [process] writes has an absolute
    value of at most 1 for every binary32 number [x] (not NaN), infinities
    included. *)
Lemma binary32_clamp_abs_le_one (x : spec_float) :
  is_nan x = false -> fle (fabs (clamp x (fopp one) one)) one = true.
Proof.
  intro Hx.
  destruct (binary32_clamp_bounds x (fopp one) one Hx eq_refl eq_refl eq_refl)
    as [H1 H2].
  apply abs_le_one; assumption.
Qed.

(** *** Products with powers of two *)

(** The shift that the next rounding step makes is [k]. *)
Ltac shift_is k :=
  match goal with
  | |- context [shr ?r ?e ?n] =>
      replace n with k by (unfold fexp, emin, prec, emax; lia)
  end.

(** Running the shifts of a rounding step on a mantissa that ends in zeros. *)
Ltac run_shifts :=
  rewrite Pos.mul_comm;
  cbn [Pos.mul shr shr_record_of_loc iter_pos shr_1 shr_m loc_of_shr_record
       round_nearest_even orb Zdigits2 digits2_pos].

Lemma digits2_pos_shift (m : positive) :
  digits2_pos (m * 8388608) = (digits2_pos m + 23)%positive.
Proof.
  rewrite Pos.mul_comm. cbn [Pos.mul digits2_pos]. lia.
Qed.

Lemma digits2_pos_succ (p : positive) :
  Z.pos (digits2_pos (Pos.succ p)) <= Z.pos (digits2_pos p) + 1.
Proof.
  induction p as [p IH|p IH|]; cbn [Pos.succ digits2_pos]; lia.
Qed.

(** A canonical mantissa has 24 digits, or fewer at the lowest exponent. *)
Lemma canonical_cases (m : positive) (e : Z) :
  canonical_mantissa prec emax m e = true ->
  (Z.pos (digits2_pos m) = 24 /\ -149 <= e)
  \/ (Z.pos (digits2_pos m) < 24 /\ e = -149).
Proof.
  unfold canonical_mantissa, fexp, emin, prec, emax. intro H.
  apply Z.eqb_eq in H. lia.
Qed.

(** [x * 1.0f] is [x]. *)
Lemma fmul_one (x : spec_float) : valid x = true -> fmul x one = x.
Proof.
  destruct x as [[|]|[|]| |s m e]; try reflexivity.
  unfold valid, valid_binary, bounded.
  intro H. apply andb_prop in H. destruct H as [Hc Hb].
  unfold fmul, one. cbn [SFmul]. rewrite xorb_false_r.
  unfold binary_round_aux, shr_fexp. cbn [Zdigits2].
  rewrite digits2_pos_shift.
  destruct (canonical_cases m e Hc) as [[Hd Hlo] | [Hd He]];
    shift_is 23; run_shifts;
    shift_is 0; cbn [shr shr_m];
    replace (e + -23 + 23) with e by lia;
    rewrite Hb; reflexivity.
Qed.

(** [x * 2.0f] below the topmost binade: the exponent goes up by one, or, for
    a subnormal number, the mantissa doubles. *)
Lemma fmul_two (s : bool) (m : positive) (e : Z) :
  valid (S754_finite s m e) = true -> e < 104 ->
  fmul (S754_finite s m e) two
  = if Z.pos (digits2_pos m) =? 24 then S754_finite s m (e + 1)
    else S754_finite s (m~0) e.
Proof.
  unfold valid, valid_binary, bounded. intros H He.
  apply andb_prop in H. destruct H as [Hc Hb].
  unfold fmul, two. cbn [SFmul]. rewrite xorb_false_r.
  unfold binary_round_aux, shr_fexp. cbn [Zdigits2].
  rewrite digits2_pos_shift.
  destruct (canonical_cases m e Hc) as [[Hd Hlo] | [Hd ->]].
  - rewrite Hd. cbn [Z.eqb Pos.eqb].
    shift_is 23. run_shifts.
    shift_is 0. cbn [shr shr_m].
    replace (e + -22 + 23 <=? emax - prec) with true
      by (symmetry; apply Z.leb_le; unfold emax, prec; lia).
    f_equal. lia.
  - replace (Z.pos (digits2_pos m) =? 24) with false
      by (symmetry; apply Z.eqb_neq; lia).
    shift_is 22. run_shifts.
    shift_is 0. cbn [shr shr_m]. reflexivity.
Qed.

(** [(x * 2.0f) * 0.5f] is [x] below the topmost binade. *)
Lemma fmul_two_half (s : bool) (m : positive) (e : Z) :
  valid (S754_finite s m e) = true -> e < 104 ->
  fmul (fmul (S754_finite s m e) two) half = S754_finite s m e.
Proof.
  intros Hv He. rewrite (fmul_two s m e Hv He).
  unfold valid, valid_binary, bounded in Hv.
  apply andb_prop in Hv. destruct Hv as [Hc Hb].
  destruct (canonical_cases m e Hc) as [[Hd Hlo] | [Hd ->]].
  - rewrite Hd. cbn [Z.eqb Pos.eqb].
    unfold fmul, half. cbn [SFmul]. rewrite xorb_false_r.
    unfold binary_round_aux, shr_fexp. cbn [Zdigits2].
    rewrite digits2_pos_shift.
    shift_is 23. run_shifts.
    shift_is 0. cbn [shr shr_m].
    replace (e + 1 + -24 + 23 <=? emax - prec) with true
      by (symmetry; apply Z.leb_le; unfold emax, prec; lia).
    f_equal. lia.
  - replace (Z.pos (digits2_pos m) =? 24) with false
      by (symmetry; apply Z.eqb_neq; lia).
    unfold fmul, half. cbn [SFmul]. rewrite xorb_false_r.
    unfold binary_round_aux, shr_fexp. cbn [Zdigits2].
    rewrite digits2_pos_shift. cbn [digits2_pos].
    shift_is 24. run_shifts.
    shift_is 0. cbn [shr shr_m]. reflexivity.
Qed.

(** Half of a finite number is finite. *)
Lemma fmul_half_finite (x : spec_float) :
  valid x = true -> is_finite x = true -> is_finite (fmul x half) = true.
Proof.
  destruct x as [sx|sx| |s m e]; try discriminate; intros Hv _;
    [reflexivity|].
  unfold valid, valid_binary, bounded in Hv.
  apply andb_prop in Hv. destruct Hv as [Hc Hb]. apply Z.leb_le in Hb.
  unfold emax, prec in Hb.
  unfold fmul, half. cbn [SFmul]. rewrite xorb_false_r.
  unfold binary_round_aux, shr_fexp. cbn [Zdigits2].
  rewrite digits2_pos_shift.
  destruct (canonical_cases m e Hc) as [[Hd Hlo] | [Hd ->]];
    [destruct (Z.eq_dec e (-149)) as [-> | Hne]|].
  2:{ (* above the lowest exponent the exponent goes down by one *)
    shift_is 23. run_shifts.
    shift_is 0. cbn [shr shr_m].
    replace (e + -24 + 23 <=? emax - prec) with true
      by (symmetry; apply Z.leb_le; unfold emax, prec; lia).
    reflexivity. }
  (* at the lowest exponent the last bit of the mantissa is rounded *)
  all: shift_is 24;
       replace (-149 + -24) with (-173) by lia;
       rewrite Pos.mul_comm;
       cbn [Pos.mul shr shr_record_of_loc iter_pos shr_1 orb];
       replace (-173 + 24) with (-149) by lia;
       destruct m as [p|p|];
       cbn [shr_m loc_of_shr_record round_nearest_even digits2_pos] in *;
       try (destruct (Z.even (Z.pos p));
            [|change (Z.pos p + 1) with (Z.pos (p + 1));
              rewrite Pos.add_1_r; pose proof (digits2_pos_succ p)]);
       cbn [shr_record_of_loc Zdigits2 Z.even];
       shift_is 0;
       reflexivity.
Qed.

(** *** The dry mix of the reverbs (C8) *)

(** Chamber reverb, [dryWet = 0]: for a finite input sample [x] and a finite
    wet sample, [x * (1.0f - 0.0f) + wet * 0.0f] is [x] itself; only for
    [x = -0.0f] the result can be [+0.0f], which compares equal. *)
Lemma binary32_chamber_mix_dry (x w : spec_float) :
  valid x = true -> is_finite x = true -> is_finite w = true ->
  feq (chamber_mix x w zero) x = true
  /\ (x <> S754_zero true -> chamber_mix x w zero = x).
Proof.
  intros Hv Hx Hw. unfold chamber_mix.
  change (fsub one zero) with one. rewrite (fmul_one x Hv).
  destruct w as [sw|sw| |sw mw ew]; try discriminate Hw;
    destruct x as [sx|sx| |sx mx ex]; try discriminate Hx;
    unfold feq, SFeqb, fadd, fmul, zero;
    cbn [SFmul SFadd SFcompare xorb].
  - destruct sx, sw; split; try reflexivity; intro H; try reflexivity;
      exfalso; apply H; reflexivity.
  - rewrite Z.compare_refl, Pos.compare_cont_refl.
    destruct sx; split; reflexivity.
  - destruct sx, sw; split; try reflexivity; intro H; try reflexivity;
      exfalso; apply H; reflexivity.
  - rewrite Z.compare_refl, Pos.compare_cont_refl.
    destruct sx; split; reflexivity.
Qed.

(** Freeverb-style reverb, [wet = 0] and [dry = 1.0f - wet]: for a finite
    input sample [x] below the topmost binade and a finite comb sum, the
    output [wetMix + dryMix] compares equal to [x]. *)
Lemma binary32_freeverb_mix_dry (x sum : spec_float) :
  valid x = true -> is_finite x = true -> below_top x = true ->
  valid sum = true -> is_finite sum = true ->
  feq (freeverb_mix x sum zero (fsub one zero)) x = true.
Proof.
  intros Hv Hx Ht Hvs Hs. unfold freeverb_mix.
  change (fsub one zero) with one. rewrite (fmul_one x Hv).
  pose proof (fmul_half_finite sum Hvs Hs) as Hw.
  assert (Hwet : exists sw, fmul (fmul (fmul sum half) zero) three
                            = S754_zero sw).
  { destruct (fmul sum half) as [sw|sw| |sw mw ew]; try discriminate Hw;
      eexists; reflexivity. }
  destruct Hwet as [sw ->].
  destruct x as [sx|sx| |sx mx ex]; try discriminate Hx.
  - destruct sx, sw; reflexivity.
  - rewrite (fmul_two_half sx mx ex Hv) by (apply Z.ltb_lt; exact Ht).
    unfold feq, SFeqb, fadd. cbn [SFadd SFcompare].
    rewrite Z.compare_refl, Pos.compare_cont_refl. destruct sx; reflexivity.
Qed.

(** *** Rounding in general *)

(** What follows holds for every mantissa and exponent: the shift of a
    rounding step is a division by a power of two, the rounded mantissa is
    the quotient or its successor, and a carry into the 25th digit moves the
    result to the next binade. *)

Lemma iter_pos_nat {A : Type} (f : A -> A) (p : positive) (x : A) :
  iter_pos f p x = Nat.iter (Pos.to_nat p) f x.
Proof.
  revert x. induction p as [p IH|p IH|]; intro x; cbn [iter_pos].
  - rewrite !IH, Pos2Nat.inj_xI. rewrite <- Nat.iter_add, <- Nat.iter_succ_r.
    f_equal. lia.
  - rewrite !IH, Pos2Nat.inj_xO. rewrite <- Nat.iter_add. f_equal. lia.
  - reflexivity.
Qed.

Lemma shr_1_m (mrs : shr_record) :
  0 <= shr_m mrs -> shr_m (shr_1 mrs) = shr_m mrs / 2.
Proof.
  destruct mrs as [m r s]. cbn [shr_m]. intro Hm.
  destruct m as [|[p|p|]|p]; cbn [shr_1 shr_m]; try lia.
  - reflexivity.
  - rewrite Pos2Z.inj_xI. apply (Z.div_unique _ _ _ 1); lia.
  - rewrite Pos2Z.inj_xO. apply (Z.div_unique _ _ _ 0); lia.
  - reflexivity.
Qed.

Lemma shr_iter_m (n : nat) (mrs : shr_record) :
  0 <= shr_m mrs ->
  shr_m (Nat.iter n shr_1 mrs) = shr_m mrs / 2 ^ Z.of_nat n.
Proof.
  intro Hm. induction n as [|n IH].
  - change (Nat.iter 0 shr_1 mrs) with mrs.
    rewrite Z.pow_0_r, Z.div_1_r. reflexivity.
  - change (Nat.iter (S n) shr_1 mrs) with (shr_1 (Nat.iter n shr_1 mrs)).
    rewrite shr_1_m.
    + rewrite IH, Nat2Z.inj_succ, Z.pow_succ_r by lia.
      rewrite Z.div_div by lia. f_equal. lia.
    + rewrite IH. apply Z.div_pos; lia.
Qed.

Lemma round_nearest_even_range (m : Z) (l : location) :
  m <= round_nearest_even m l <= m + 1.
Proof.
  destruct l as [|[| |]]; cbn [round_nearest_even]; try lia.
  destruct (Z.even m); lia.
Qed.

Ltac gen_pows :=
  repeat match goal with
  | H : context [2 ^ ?k] |- _ =>
      let a := fresh "a" in set (a := 2 ^ k) in *; clearbody a
  | |- context [2 ^ ?k] =>
      let a := fresh "a" in set (a := 2 ^ k) in *; clearbody a
  end; lia.

Lemma digits2_pos_bounds (m : positive) :
  2 ^ (Z.pos (digits2_pos m) - 1) <= Z.pos m < 2 ^ Z.pos (digits2_pos m).
Proof.
  induction m as [m IH|m IH|]; cbn [digits2_pos].
  - rewrite Pos2Z.inj_succ, Pos2Z.inj_xI.
    replace (Z.succ (Z.pos (digits2_pos m)) - 1)
      with (Z.succ (Z.pos (digits2_pos m) - 1)) by lia.
    rewrite !Z.pow_succ_r by lia. gen_pows.
  - rewrite Pos2Z.inj_succ. change (Z.pos m~0) with (2 * Z.pos m).
    replace (Z.succ (Z.pos (digits2_pos m)) - 1)
      with (Z.succ (Z.pos (digits2_pos m) - 1)) by lia.
    rewrite !Z.pow_succ_r by lia. gen_pows.
  - cbn. lia.
Qed.

Lemma shr_m_shift (m : Z) (p : positive) :
  0 <= m ->
  shr_m (iter_pos shr_1 p (shr_record_of_loc m loc_Exact)) = m / 2 ^ Z.pos p.
Proof.
  intro Hm. rewrite iter_pos_nat, shr_iter_m by exact Hm.
  rewrite positive_nat_Z. reflexivity.
Qed.

Lemma round_tail_zero (s : bool) (e1 : Z) : round_tail s 0 e1 = S754_zero s.
Proof.
  unfold round_tail, shr_fexp, shr.
  destruct (fexp prec emax (Zdigits2 0 + e1) - e1) as [|p|p]; try reflexivity.
  rewrite shr_m_shift by lia. rewrite Z.div_0_l by lia. reflexivity.
Qed.

Lemma round_tail_small (s : bool) (m2 : positive) (e1 : Z) :
  Z.pos m2 < 2 ^ 24 -> -149 <= e1 <= 104 ->
  round_tail s (Z.pos m2) e1 = S754_finite s m2 e1.
Proof.
  intros Hm He. unfold round_tail, shr_fexp, shr. cbn [Zdigits2].
  pose proof (digits2_pos_bounds m2) as [Hl _].
  assert (Hd : Z.pos (digits2_pos m2) <= 24).
  { destruct (Z_le_gt_dec (Z.pos (digits2_pos m2)) 24) as [|Hg]; [assumption|].
    assert (2 ^ 24 <= 2 ^ (Z.pos (digits2_pos m2) - 1))
      by (apply Z.pow_le_mono_r; lia).
    lia. }
  destruct (fexp prec emax (Z.pos (digits2_pos m2) + e1) - e1) as [|p|p] eqn:Hn;
    cbn [shr_record_of_loc shr_m].
  - replace (e1 <=? emax - prec) with true; [reflexivity|].
    symmetry. apply Z.leb_le. unfold emax, prec. lia.
  - exfalso. unfold fexp, emin, prec, emax in Hn. lia.
  - replace (e1 <=? emax - prec) with true; [reflexivity|].
    symmetry. apply Z.leb_le. unfold emax, prec. lia.
Qed.

Lemma round_tail_carry (s : bool) (e1 : Z) :
  -149 <= e1 < 104 ->
  round_tail s 16777216 e1 = S754_finite s 8388608 (e1 + 1).
Proof.
  intro He. unfold round_tail, shr_fexp. cbn [Zdigits2 digits2_pos Pos.succ].
  replace (fexp prec emax (25 + e1) - e1) with 1
    by (unfold fexp, emin, prec, emax; lia).
  cbn [shr shr_record_of_loc iter_pos shr_1 shr_m].
  replace (e1 + 1 <=? emax - prec) with true; [reflexivity|].
  symmetry. apply Z.leb_le. unfold emax, prec. lia.
Qed.

Lemma binary_round_aux_tail (s : bool) (m e : Z) :
  binary_round_aux prec emax s m e loc_Exact =
  let '(mrs, e1) := shr_fexp prec emax m e loc_Exact in
  round_tail s (round_nearest_even (shr_m mrs) (loc_of_shr_record mrs)) e1.
Proof.
  unfold binary_round_aux, round_tail.
  destruct (shr_fexp prec emax m e loc_Exact) as [mrs e1]. reflexivity.
Qed.

(** Rounding a positive significand: the three possible outcomes. *)
Lemma binary_round_aux_cases (s : bool) (m : positive) (e : Z) :
  let k := Z.max 0 (fexp prec emax (Z.pos (digits2_pos m) + e) - e) in
  e + k < 104 ->
  binary_round_aux prec emax s (Z.pos m) e loc_Exact = S754_zero s
  \/ (exists m3 : positive,
        binary_round_aux prec emax s (Z.pos m) e loc_Exact
          = S754_finite s m3 (e + k)
        /\ Z.pos m / 2 ^ k <= Z.pos m3 <= Z.pos m / 2 ^ k + 1
        /\ Z.pos m3 < 2 ^ 24)
  \/ (binary_round_aux prec emax s (Z.pos m) e loc_Exact
        = S754_finite s 8388608 (e + k + 1)
      /\ 2 ^ 24 <= Z.pos m / 2 ^ k + 1).
Proof.
  intros k Hk. rewrite binary_round_aux_tail.
  pose proof (digits2_pos_bounds m) as [Hl Hh].
  set (d := Z.pos (digits2_pos m)) in *.
  assert (Hlow : -149 <= e + k)
    by (subst k; unfold fexp, emin, prec, emax; lia).
  assert (Hm1 : Z.pos m / 2 ^ k < 2 ^ 24).
  { apply Z.div_lt_upper_bound; [apply Z.pow_pos_nonneg; lia|].
    rewrite <- Z.pow_add_r by (subst k; lia).
    apply Z.lt_le_trans with (1 := Hh).
    apply Z.pow_le_mono_r; [lia|].
    subst k. unfold fexp, emin, prec, emax. lia. }
  assert (H0 : 0 <= Z.pos m / 2 ^ k)
    by (apply Z.div_pos; [lia | apply Z.pow_pos_nonneg; lia]).
  unfold shr_fexp, shr. cbn [Zdigits2]. fold d.
  assert (Hcase :
    forall m2 : Z, Z.pos m / 2 ^ k <= m2 <= Z.pos m / 2 ^ k + 1 ->
      round_tail s m2 (e + k) = S754_zero s
      \/ (exists m3 : positive,
            round_tail s m2 (e + k) = S754_finite s m3 (e + k)
            /\ Z.pos m / 2 ^ k <= Z.pos m3 <= Z.pos m / 2 ^ k + 1
            /\ Z.pos m3 < 2 ^ 24)
      \/ (round_tail s m2 (e + k) = S754_finite s 8388608 (e + k + 1)
          /\ 2 ^ 24 <= Z.pos m / 2 ^ k + 1)).
  { intros m2 Hm2. destruct m2 as [|p2|p2]; [| |lia].
    - left. apply round_tail_zero.
    - destruct (Z_lt_le_dec (Z.pos p2) (2 ^ 24)) as [Hs | Hc].
      + right. left. exists p2. split; [|split; assumption].
        apply round_tail_small; [assumption | lia].
      + right. right. assert (Hp : Z.pos p2 = 16777216)
          by (change (2 ^ 24) with 16777216 in *; lia).
        rewrite Hp. split; [apply round_tail_carry; lia|].
        change (2 ^ 24) with 16777216 in *. lia. }
  assert (Hex : exists m2 : Z,
    Z.pos m / 2 ^ k <= m2 <= Z.pos m / 2 ^ k + 1
    /\ (let '(mrs, e1) :=
          match fexp prec emax (d + e) - e with
          | Z.pos p =>
              (iter_pos shr_1 p (shr_record_of_loc (Z.pos m) loc_Exact),
               e + (fexp prec emax (d + e) - e))
          | _ => (shr_record_of_loc (Z.pos m) loc_Exact, e)
          end in
        round_tail s (round_nearest_even (shr_m mrs) (loc_of_shr_record mrs)) e1)
       = round_tail s m2 (e + k)).
  { destruct (fexp prec emax (d + e) - e) as [|p|p] eqn:Hn.
    - exists (Z.pos m). replace k with 0 by (subst k; lia).
      rewrite Z.pow_0_r, Z.div_1_r, Z.add_0_r. split; [lia | reflexivity].
    - exists (round_nearest_even
                (shr_m (iter_pos shr_1 p (shr_record_of_loc (Z.pos m) loc_Exact)))
                (loc_of_shr_record
                   (iter_pos shr_1 p (shr_record_of_loc (Z.pos m) loc_Exact)))).
      replace k with (Z.pos p) by (subst k; lia).
      split; [|reflexivity].
      rewrite <- (shr_m_shift (Z.pos m) p) by lia.
      apply round_nearest_even_range.
    - exists (Z.pos m). replace k with 0 by (subst k; lia).
      rewrite Z.pow_0_r, Z.div_1_r, Z.add_0_r. split; [lia | reflexivity]. }
  destruct Hex as (m2 & Hr & Heq). rewrite Heq. apply Hcase. exact Hr.
Qed.


(** *** The comb feedback over the whole range of sizes (C7) *)

Lemma literal_4_10 : literal 4 10 = S754_finite false 13421773 (-25).
Proof. vm_compute. reflexivity. Qed.

Lemma literal_45_100 : literal 45 100 = S754_finite false 15099494 (-25).
Proof. vm_compute. reflexivity. Qed.

Lemma literal_98_100 : literal 98 100 = S754_finite false 16441672 (-24).
Proof. vm_compute. reflexivity. Qed.

Lemma iter_xO (m d : positive) :
  Z.pos (Pos.iter xO m d) = Z.pos m * 2 ^ Z.pos d.
Proof.
  induction d as [|d IH] using Pos.peano_ind.
  - cbn [Pos.iter]. lia.
  - rewrite Pos.iter_succ, Pos2Z.inj_succ, Z.pow_succ_r by lia.
    change (Z.pos (Pos.iter xO m d)~0) with (2 * Z.pos (Pos.iter xO m d)).
    rewrite IH. lia.
Qed.

Lemma digits2_pos_le (m : positive) (j : Z) :
  Z.pos m < 2 ^ j -> Z.pos (digits2_pos m) <= j.
Proof.
  intro H. pose proof (digits2_pos_bounds m) as [Hl _].
  destruct (Z_le_gt_dec (Z.pos (digits2_pos m)) j) as [|Hg]; [assumption|].
  assert (0 <= j).
  { destruct (Z_lt_le_dec j 0); [|assumption].
    rewrite Z.pow_neg_r in H by assumption. lia. }
  assert (2 ^ j <= 2 ^ (Z.pos (digits2_pos m) - 1))
    by (apply Z.pow_le_mono_r; lia).
  lia.
Qed.

Lemma digits2_pos_gt (m : positive) (j : Z) :
  2 ^ j <= Z.pos m -> j < Z.pos (digits2_pos m).
Proof.
  intro H. pose proof (digits2_pos_bounds m) as [_ Hh].
  destruct (Z_lt_le_dec j (Z.pos (digits2_pos m))) as [|Hg]; [assumption|].
  assert (2 ^ Z.pos (digits2_pos m) <= 2 ^ j)
    by (apply Z.pow_le_mono_r; lia).
  lia.
Qed.

Lemma flt_lower_binade (m c : positive) (e e' : Z) :
  e < e' -> flt (S754_finite false m e) (S754_finite false c e') = true.
Proof.
  intro He. unfold flt, SFltb. cbn [SFcompare].
  apply Z.compare_lt_iff in He. rewrite He. reflexivity.
Qed.

Lemma flt_same_binade (m c : positive) (e : Z) :
  Z.pos m < Z.pos c ->
  flt (S754_finite false m e) (S754_finite false c e) = true.
Proof.
  intro Hlt. unfold flt, SFltb. cbn [SFcompare]. rewrite Z.compare_refl.
  rewrite Pos.compare_cont_spec.
  apply Pos2Z.pos_lt_pos, Pos.compare_lt_iff in Hlt.
  rewrite Hlt. reflexivity.
Qed.

(** Adding a number of at most one half to [0.4f] stays below [0.98f]. *)
Lemma fadd_0_4_below (m3 : positive) (er : Z) :
  Z.pos m3 < 2 ^ 24 -> er <= -25 ->
  flt (fadd (S754_finite false 13421773 (-25)) (S754_finite false m3 er))
      (S754_finite false 16441672 (-24)) = true.
Proof.
  intros Hm He. unfold fadd. cbn [SFadd].
  replace (Z.min (-25) er) with er by lia.
  set (kk := -25 - er).
  assert (Hkk : 0 <= kk) by (subst kk; lia).
  assert (Hpk : 0 < 2 ^ kk) by (apply Z.pow_pos_nonneg; lia).
  assert (HA : exists mA : positive,
    fst (shl_align 13421773 (-25) er) = mA
    /\ Z.pos mA = 13421773 * 2 ^ kk).
  { unfold shl_align. destruct (er - -25) as [|p|p] eqn:Hd.
    - exists 13421773%positive. split; [reflexivity|].
      replace kk with 0 by (subst kk; lia). reflexivity.
    - lia.
    - exists (Pos.iter xO 13421773%positive p). split; [reflexivity|].
      rewrite iter_xO. f_equal. f_equal. subst kk. lia. }
  destruct HA as (mA & -> & HmA).
  replace (fst (shl_align m3 er er)) with m3
    by (unfold shl_align; rewrite Z.sub_diag; reflexivity).
  cbn [cond_Zopp Z.add binary_normalize].
  set (M := (mA + m3)%positive).
  assert (HM : Z.pos M = 13421773 * 2 ^ kk + Z.pos m3) by (subst M; lia).
  assert (HMlo : 2 ^ (23 + kk) <= Z.pos M).
  { rewrite Z.pow_add_r by lia. change (2 ^ 23) with 8388608. lia. }
  assert (HMhi : Z.pos M < 30198989 * 2 ^ kk).
  { change (2 ^ 24) with 16777216 in Hm. nia. }
  assert (HMhi' : Z.pos M < 2 ^ (25 + kk)).
  { rewrite Z.pow_add_r by lia. change (2 ^ 25) with 33554432. lia. }
  pose proof (digits2_pos_gt M _ HMlo) as Hd1.
  pose proof (digits2_pos_le M _ HMhi') as Hd2.
  unfold binary_round.
  replace (shl_align M er (fexp prec emax (Z.pos (digits2_pos M) + er)))
    with (M, er).
  2:{ unfold shl_align.
      destruct (fexp prec emax (Z.pos (digits2_pos M) + er) - er) eqn:Hf;
        try reflexivity.
      exfalso. unfold fexp, emin, prec, emax in Hf. subst kk. lia. }
  pose proof (binary_round_aux_cases false M er) as Hc. cbn zeta in Hc.
  set (d := Z.pos (digits2_pos M)) in *.
  replace (Z.max 0 (fexp prec emax (d + er) - er)) with (d - 24) in Hc
    by (unfold fexp, emin, prec, emax; subst kk; lia).
  destruct Hc as [-> | [(m4 & -> & Hm4 & Hm4') | [-> Hup]]];
    [subst kk; lia | reflexivity | |].
  - destruct (Z.eq_dec d (24 + kk)) as [Hd | Hd].
    + apply flt_lower_binade. subst kk. lia.
    + assert (Hd' : d = 25 + kk) by lia.
      replace (er + (d - 24)) with (-24) by (subst kk; lia).
      assert (Hq : Z.pos M / 2 ^ (d - 24) < 15099495).
      { apply Z.div_lt_upper_bound; [apply Z.pow_pos_nonneg; lia|].
        replace (d - 24) with (Z.succ kk) by lia.
        rewrite Z.pow_succ_r by lia. lia. }
      apply flt_same_binade. lia.
  - destruct (Z.eq_dec d (24 + kk)) as [Hd | Hd].
    + replace (er + (d - 24) + 1) with (-24) by (subst kk; lia).
      apply flt_same_binade. lia.
    + exfalso. assert (Hd' : d = 25 + kk) by lia.
      assert (Hq : Z.pos M / 2 ^ (d - 24) < 15099495).
      { apply Z.div_lt_upper_bound; [apply Z.pow_pos_nonneg; lia|].
        replace (d - 24) with (Z.succ kk) by lia.
        rewrite Z.pow_succ_r by lia. lia. }
      change (2 ^ 24) with 16777216 in Hup. lia.
Qed.

Lemma fle_finite_inv (m c : positive) (e e' : Z) :
  fle (S754_finite false m e) (S754_finite false c e') = true ->
  e < e' \/ (e = e' /\ Z.pos m <= Z.pos c).
Proof.
  unfold fle, SFleb. cbn [SFcompare].
  destruct (e ?= e') eqn:He.
  - apply Z.compare_eq_iff in He. intro H. right. split; [exact He|].
    rewrite Pos.compare_cont_spec in H.
    destruct (m ?= c)%positive eqn:Hm; cbn [Pos.switch_Eq] in H.
    + apply Pos.compare_eq_iff in Hm. subst c. lia.
    + apply Pos.compare_lt_iff, Pos2Z.pos_lt_pos in Hm. clear H. lia.
    + discriminate.
  - apply Z.compare_lt_iff in He. intros _. left. exact He.
  - discriminate.
Qed.

Lemma valid_finite_inv (s : bool) (m : positive) (e : Z) :
  valid (S754_finite s m e) = true ->
  Z.pos m < 2 ^ 24 /\ -149 <= e <= 104 /\ (2 ^ 23 <= Z.pos m \/ e = -149).
Proof.
  unfold valid, valid_binary, bounded. intro H.
  apply andb_prop in H. destruct H as [Hc Hb].
  unfold canonical_mantissa in Hc. apply Z.eqb_eq in Hc.
  apply Z.leb_le in Hb.
  pose proof (digits2_pos_bounds m) as [Hl Hh].
  set (d := Z.pos (digits2_pos m)) in *.
  unfold fexp, emin, prec, emax in Hc, Hb.
  assert (Hd : d <= 24) by lia.
  split; [|split].
  - apply Z.lt_le_trans with (1 := Hh). apply Z.pow_le_mono_r; lia.
  - lia.
  - destruct (Z.eq_dec d 24) as [Hd24 | Hd24]; [left | right; lia].
    rewrite Hd24 in Hl. exact Hl.
Qed.

(** [0.4f + c * 0.45f] is below [0.98f] for every [c] between 0 and 1. *)
Lemma baseFeedback_below (c : spec_float) :
  valid c = true -> fle zero c = true -> fle c one = true ->
  flt (baseFeedback c) (literal 98 100) = true.
Proof.
  unfold baseFeedback. rewrite literal_4_10, literal_45_100, literal_98_100.
  destruct c as [s|s| |s m e].
  - intros _ _ _. destruct s; vm_compute; reflexivity.
  - intros _ H1 H2. destruct s; vm_compute in H1, H2; discriminate.
  - intros _ H1 _. vm_compute in H1. discriminate.
  - intros Hv H1 H2.
    destruct s; [vm_compute in H1; discriminate|].
    apply valid_finite_inv in Hv. destruct Hv as (Hm & He & Hn).
    unfold one in H2. apply fle_finite_inv in H2.
    change (2 ^ 24) with 16777216 in Hm. change (2 ^ 23) with 8388608 in Hn.
    destruct H2 as [H2 | [H2 H3]].
    2:{ assert (Hm1 : m = 8388608%positive) by (apply Pos2Z.inj; lia).
        subst m e. vm_compute. reflexivity. }
    unfold fmul. cbn [SFmul xorb].
    pose proof (binary_round_aux_cases false (m * 15099494) (e + -25)) as Hc.
    cbn zeta in Hc.
    assert (HP : Z.pos (m * 15099494) < 2 ^ 48).
    { rewrite Pos2Z.inj_mul. change (2 ^ 48) with (16777216 * 16777216). nia. }
    pose proof (digits2_pos_le _ _ HP) as HdP.
    set (k := Z.max 0 (fexp prec emax
                         (Z.pos (digits2_pos (m * 15099494)) + (e + -25))
                       - (e + -25))) in *.
    assert (Hk : e + -25 + k <= -25)
      by (subst k; unfold fexp, emin, prec, emax; lia).
    destruct Hc as [-> | [(m3 & -> & _ & Hm3) | [-> _]]]; [lia | | |].
    + vm_compute. reflexivity.
    + apply fadd_0_4_below; [exact Hm3 | exact Hk].
    + destruct (Z.eq_dec (e + -25 + k) (-25)) as [Hk' | Hk'].
      * rewrite Hk'. vm_compute. reflexivity.
      * apply fadd_0_4_below; [reflexivity | lia].
Qed.

(** [setSize(s)] followed by [updateParameters]: the feedback
    [0.4f + clamp(s, 0.0f, 1.0f) * 0.45f] compares below [0.98f] for every
    binary32 number [s] (not NaN), with every multiplication and addition
    rounded to nearest even. *)
Lemma binary32_feedback_below (s : spec_float) :
  valid s = true -> is_nan s = false ->
  flt (baseFeedback (clamp s zero one)) (literal 98 100) = true.
Proof.
  intros Hv Hn.
  destruct (binary32_clamp_bounds s zero one Hn eq_refl eq_refl eq_refl)
    as [H1 H2].
  apply baseFeedback_below; [|exact H1|exact H2].
  unfold clamp. destruct (flt s zero); [reflexivity|].
  destruct (flt one s); [reflexivity | exact Hv].
Qed.

(** *** Single values (C5, C7) *)

(** The two sums of the bank-switch scenario: [0.5f + 0.1f * 1] is the float
    [0.6f]; [0.7f + 0.02f * 1] is the float just below [0.72f], one unit in
    the last place away from it. *)
Example binary32_release_tick :
  fadd (literal 5 10) (fmul (literal 1 10) (of_int 1)) = literal 6 10.
Proof. vm_compute. reflexivity. Qed.

Example binary32_volume_tick :
  fadd (literal 7 10) (fmul (literal 2 100) (of_int 1))
  = fpred (literal 72 100).
Proof. vm_compute. reflexivity. Qed.

(** The comb feedback at the two ends of the size range: [0.4f] and
    [0.85f], below [0.98f]. *)
Example binary32_feedback_range :
  baseFeedback zero = literal 4 10
  /\ baseFeedback one = literal 85 100
  /\ flt (baseFeedback one) (literal 98 100) = true.
Proof. vm_compute. repeat split. Qed.

End Binary32Checks.

(** ** The rotary encoders *)

Section Encoders.

Import RotaryEncoder.
Local Open Scope Z_scope.

Lemma wrap_int_add (a b : Z) : wrap_int (wrap_int a + b) = wrap_int (a + b).
Proof.
  unfold wrap_int.
  replace ((a + 2 ^ 31) mod 2 ^ 32 - 2 ^ 31 + b + 2 ^ 31)
    with ((a + 2 ^ 31) mod 2 ^ 32 + b) by ring.
  replace (a + b + 2 ^ 31) with (a + 2 ^ 31 + b) by ring.
  rewrite Zplus_mod_idemp_l. reflexivity.
Qed.

Lemma wrap_int_idem (a : Z) : wrap_int (wrap_int a) = wrap_int a.
Proof.
  rewrite <- (Z.add_0_r (wrap_int a)) at 1.
  rewrite wrap_int_add, Z.add_0_r. reflexivity.
Qed.

Lemma wrap_int_small (a : Z) : - 2 ^ 31 <= a < 2 ^ 31 -> wrap_int a = a.
Proof.
  intro H. unfold wrap_int. rewrite Z.mod_small; lia.
Qed.

Lemma update_cases (clk dt : Z) (r : RotaryEncoder) :
  (clk = lastClk r /\ fst (update clk dt r) = None
   /\ position (snd (update clk dt r)) = position r)
  \/ (clk <> lastClk r /\ dt <> clk /\ fst (update clk dt r) = Some 1
      /\ position (snd (update clk dt r)) = wrap_int (position r + 1))
  \/ (clk <> lastClk r /\ dt = clk /\ fst (update clk dt r) = Some (-1)
      /\ position (snd (update clk dt r)) = wrap_int (position r + -1)).
Proof.
  unfold update.
  destruct (clk =? lastClk r) eqn:Hc; cbn [negb].
  - apply Z.eqb_eq in Hc. left. cbn. auto.
  - apply Z.eqb_neq in Hc. right.
    destruct (dt =? clk) eqn:Hd; cbn [negb fst snd position].
    + apply Z.eqb_eq in Hd. right. auto.
    + apply Z.eqb_neq in Hd. left. auto.
Qed.

Lemma update_lasts (clk dt : Z) (r : RotaryEncoder) :
  lastClk (snd (update clk dt r)) = clk /\ lastDt (snd (update clk dt r)) = dt.
Proof.
  unfold update.
  destruct (clk =? lastClk r); cbn [negb]; [split; reflexivity|].
  destruct (dt =? clk); split; reflexivity.
Qed.

(** X1.  Over any sequence of pin readings, the poll loop of a rotary
    encoder calls the callback only with the directions [+1] and [-1], and
    the position counter moves by the sum of these directions, in 32-bit
    arithmetic: the counter and the callbacks never disagree. *)
Theorem pollLoop_position (readings : list (Z * Z)) (r : RotaryEncoder) :
  wrap_int (position r) = position r ->
  Forall (fun d => d = 1 \/ d = -1) (fst (pollLoop readings r))
  /\ getPosition (snd (pollLoop readings r))
     = wrap_int (getPosition r + fold_right Z.add 0 (fst (pollLoop readings r))).
Proof.
  unfold getPosition. revert r.
  induction readings as [|[clk dt] rest IH]; intros r Hr.
  - cbn [pollLoop fst snd fold_right]. split; [constructor|].
    rewrite Z.add_0_r. symmetry. exact Hr.
  - cbn [pollLoop].
    destruct (update clk dt r) as [d r1] eqn:Hu.
    destruct (pollLoop rest r1) as [ds r2] eqn:Hp.
    pose proof (update_cases clk dt r) as Hc. rewrite Hu in Hc.
    cbn [fst snd] in Hc |- *.
    assert (Hr1 : wrap_int (position r1) = position r1).
    { destruct Hc as [(_ & _ & ->) | [(_ & _ & _ & ->) | (_ & _ & _ & ->)]];
        [exact Hr | apply wrap_int_idem | apply wrap_int_idem]. }
    specialize (IH r1 Hr1). rewrite Hp in IH. cbn [fst snd] in IH.
    destruct IH as [IH1 IH2]. rewrite IH2.
    destruct Hc as [(_ & -> & ->) | [(_ & _ & -> & ->) | (_ & _ & -> & ->)]].
    + split; [exact IH1 | reflexivity].
    + split; [constructor; [left; reflexivity | exact IH1]|].
      cbn [fold_right]. rewrite wrap_int_add. f_equal. ring.
    + split; [constructor; [right; reflexivity | exact IH1]|].
      cbn [fold_right]. rewrite wrap_int_add. f_equal. ring.
Qed.

Lemma pollLoop_position_witness :
  Forall (fun d => d = 1 \/ d = -1)
    (fst (pollLoop [(0, 1); (0, 0); (1, 0); (1, 1)] (RotaryEncoder_new 17 2)))
  /\ getPosition
       (snd (pollLoop [(0, 1); (0, 0); (1, 0); (1, 1)] (RotaryEncoder_new 17 2)))
     = wrap_int
         (getPosition (RotaryEncoder_new 17 2)
          + fold_right Z.add 0
              (fst (pollLoop [(0, 1); (0, 0); (1, 0); (1, 1)]
                             (RotaryEncoder_new 17 2)))).
Proof.
  apply (pollLoop_position [(0, 1); (0, 0); (1, 0); (1, 1)]
                           (RotaryEncoder_new 17 2)).
  reflexivity.
Defined.

(** X2.  While the clock pin keeps the value read last, the poll loop calls
    no callback and leaves the position counter alone, whatever the data
    pin does. *)
Theorem pollLoop_steady_clock (readings : list (Z * Z)) (r : RotaryEncoder) :
  Forall (fun cd => fst cd = lastClk r) readings ->
  fst (pollLoop readings r) = []
  /\ getPosition (snd (pollLoop readings r)) = getPosition r.
Proof.
  unfold getPosition. revert r.
  induction readings as [|[clk dt] rest IH]; intros r H.
  - split; reflexivity.
  - inversion H as [|x l Hx Hl]; subst. cbn [fst] in Hx. subst clk.
    cbn [pollLoop]. unfold update. rewrite Z.eqb_refl. cbn [negb].
    set (r1 := mkEncoder _ _ _ _ _ _).
    assert (H1 : Forall (fun cd => fst cd = lastClk r1) rest) by exact Hl.
    specialize (IH r1 H1).
    destruct (pollLoop rest r1) as [ds r2]. cbn [fst snd] in *.
    destruct IH as [-> ->]. split; reflexivity.
Qed.

Lemma pollLoop_steady_clock_witness :
  fst (pollLoop [(1, 0); (1, 1); (1, 0)] (RotaryEncoder_new 17 2)) = []
  /\ getPosition (snd (pollLoop [(1, 0); (1, 1); (1, 0)]
                                (RotaryEncoder_new 17 2)))
     = getPosition (RotaryEncoder_new 17 2).
Proof.
  apply (pollLoop_steady_clock [(1, 0); (1, 1); (1, 0)]
                               (RotaryEncoder_new 17 2)).
  repeat constructor.
Defined.

(** X3.  A bounce of the clock pin cancels out: when the clock pin changes
    and then returns to its former value while the data pin stays put (pin
    values being 0 or 1), the two callbacks have opposite directions and the
    position counter is back where it was. *)
Theorem clock_bounce_cancels (c d : Z) (r : RotaryEncoder) :
  wrap_int (position r) = position r ->
  (c = 0 \/ c = 1) -> (d = 0 \/ d = 1) ->
  (lastClk r = 0 \/ lastClk r = 1) -> c <> lastClk r ->
  exists x,
    pollLoop [(c, d); (lastClk r, d)] r
    = ([x; - x],
       mkEncoder (clkPin r) (dtPin r) (position r) (enc_running r)
                 (lastClk r) d)
    /\ (x = 1 \/ x = -1).
Proof.
  destruct r as [cp dp pos run lc ld].
  cbn [position lastClk clkPin dtPin enc_running].
  intros Hr Hc Hd Hl Hne.
  assert (E1 : wrap_int (wrap_int (pos + 1) - 1) = pos).
  { replace (wrap_int (pos + 1) - 1) with (wrap_int (pos + 1) + -1) by ring.
    rewrite wrap_int_add. replace (pos + 1 + -1) with pos by ring. exact Hr. }
  assert (E2 : wrap_int (wrap_int (pos - 1) + 1) = pos).
  { rewrite wrap_int_add. replace (pos - 1 + 1) with pos by ring. exact Hr. }
  destruct Hc as [-> | ->], Hd as [-> | ->], Hl as [-> | ->];
    try (exfalso; apply Hne; reflexivity);
    cbn [pollLoop update Z.eqb Pos.eqb negb lastClk position clkPin dtPin
         enc_running];
    rewrite ?E1, ?E2;
    (exists 1; split; [reflexivity | left; reflexivity])
    || (exists (-1); split; [reflexivity | right; reflexivity]).
Qed.

Lemma clock_bounce_cancels_witness :
  exists x,
    pollLoop [(0, 1); (lastClk (RotaryEncoder_new 17 2), 1)]
             (RotaryEncoder_new 17 2)
    = ([x; - x],
       mkEncoder 17 2 0 false (lastClk (RotaryEncoder_new 17 2)) 1)
    /\ (x = 1 \/ x = -1).
Proof.
  apply (clock_bounce_cancels 0 1 (RotaryEncoder_new 17 2)).
  - reflexivity.
  - left; reflexivity.
  - right; reflexivity.
  - right; reflexivity.
  - cbn. lia.
Defined.

End Encoders.

(** ** The momentary switches *)

Section Switches.

Import MomentarySwitch.
Local Open Scope Z_scope.

Lemma to_ms_lt (d k : Z) : 0 < k -> (to_ms d <? k) = false -> k * 1000000 <= d.
Proof.
  unfold to_ms. intros Hk H. apply Z.ltb_ge in H.
  destruct (Z_lt_le_dec d 0) as [Hn | Hp].
  - assert (Z.quot d 1000000 <= 0)
      by (apply Z.quot_le_upper_bound; lia).
    lia.
  - pose proof (Z.quot_rem' d 1000000) as E.
    pose proof (Z.rem_bound_pos d 1000000 Hp ltac:(lia)) as B. lia.
Qed.

Lemma poll_cases (state now : Z) (s : MomentarySwitch) :
  (fst (poll state now s) = Some PressCallback ->
     state = 0 /\ lastState s = 0 /\ pressed s = false
     /\ 10 * 1000000 <= now - lastChange s
     /\ isPressed (snd (poll state now s)) = true)
  /\ (fst (poll state now s) = Some ReleaseCallback ->
     state = 1 /\ lastState s = 1 /\ pressed s = true
     /\ 10 * 1000000 <= now - lastChange s
     /\ 30 * 1000000 <= now - lastPressTime s
     /\ isPressed (snd (poll state now s)) = false)
  /\ (fst (poll state now s) = None ->
     isPressed (snd (poll state now s)) = isPressed s).
Proof.
  unfold poll, isPressed.
  destruct (Z.eqb_spec state (lastState s)) as [Hs | Hs]; cbn [negb].
  - destruct (to_ms (now - lastChange s) <? DEBOUNCE_MS) eqn:Hd;
      [cbn; repeat split; intros; congruence|].
    apply to_ms_lt in Hd; [|reflexivity]. unfold DEBOUNCE_MS in Hd.
    destruct (Z.eqb_spec state 0) as [H0 | H0];
      destruct (Z.eqb_spec state 1) as [H1 | H1];
      destruct (pressed s) eqn:Hp; cbn [andb negb];
      try (cbn [fst snd pressed]; repeat split; intros; try discriminate;
           try lia; try congruence; fail).
    destruct (MIN_PRESS_MS <=? to_ms (now - lastPressTime s)) eqn:Hm;
      cbn [fst snd pressed]; repeat split; intros; try discriminate;
      try lia; try congruence.
    apply Z.leb_le in Hm. apply (to_ms_lt _ 30); [reflexivity|].
    apply Z.ltb_ge. exact Hm.
  - cbn [lastChange]. rewrite Z.sub_diag.
    change (to_ms 0 <? DEBOUNCE_MS) with true.
    cbn. repeat split; intros; congruence.
Qed.

(** X4.  A switch calls its press callback only for a pin that reads 0, has
    read the same for at least 10 ms and is not marked pressed; it calls its
    release callback only for a pin that reads 1, has read the same for at
    least 10 ms, is marked pressed and was pressed at least 30 ms ago.  The
    pressed mark follows the callback. *)
Theorem poll_callback_conditions (state now : Z) (s : MomentarySwitch) :
  (fst (poll state now s) = Some PressCallback ->
     state = 0 /\ lastState s = 0 /\ pressed s = false
     /\ 10 * 1000000 <= now - lastChange s
     /\ isPressed (snd (poll state now s)) = true)
  /\ (fst (poll state now s) = Some ReleaseCallback ->
     state = 1 /\ lastState s = 1 /\ pressed s = true
     /\ 10 * 1000000 <= now - lastChange s
     /\ 30 * 1000000 <= now - lastPressTime s
     /\ isPressed (snd (poll state now s)) = false)
  /\ (fst (poll state now s) = None ->
     isPressed (snd (poll state now s)) = isPressed s).
Proof. exact (poll_cases state now s). Qed.

Lemma poll_pressed (state now : Z) (s : MomentarySwitch) :
  match fst (poll state now s) with
  | Some PressCallback =>
      pressed s = false /\ pressed (snd (poll state now s)) = true
  | Some ReleaseCallback =>
      pressed s = true /\ pressed (snd (poll state now s)) = false
  | None => pressed (snd (poll state now s)) = pressed s
  end.
Proof.
  pose proof (poll_cases state now s) as (H1 & H2 & H3).
  unfold isPressed in *.
  destruct (fst (poll state now s)) as [[|]|].
  - destruct (H1 eq_refl) as (_ & _ & Hp & _ & Hq). split; assumption.
  - destruct (H2 eq_refl) as (_ & _ & Hp & _ & _ & Hq). split; assumption.
  - apply H3. reflexivity.
Qed.

(** X5.  Over any sequence of readings the callbacks of a switch alternate:
    a press is never followed by another press, nor a release by another
    release, and the first callback is a press exactly if the switch is not
    marked pressed. *)
Theorem pollLoop_callbacks_alternate (readings : list (Z * Z))
  (s : MomentarySwitch) :
  alternate (isPressed s) (fst (pollLoop readings s)).
Proof.
  unfold isPressed. revert s.
  induction readings as [|[state now] rest IH]; intro s.
  - exact I.
  - cbn [pollLoop].
    pose proof (poll_pressed state now s) as Hp.
    destruct (poll state now s) as [c s1]. cbn [fst snd] in Hp.
    specialize (IH s1).
    destruct (pollLoop rest s1) as [cs s2]. cbn [fst] in *.
    destruct c as [[|]|].
    + destruct Hp as [Ha Hb]. rewrite Hb in IH. split; assumption.
    + destruct Hp as [Ha Hb]. rewrite Hb in IH. split; assumption.
    + rewrite Hp in IH. exact IH.
Qed.

Lemma to_ms_small (d : Z) : 0 <= d < 10 * 1000000 -> (to_ms d <? DEBOUNCE_MS) = true.
Proof.
  intro H. apply Z.ltb_lt. unfold to_ms, DEBOUNCE_MS.
  apply Z.quot_lt_upper_bound; lia.
Qed.

Lemma pollLoop_within_debounce (v t0 : Z) (readings : list (Z * Z))
  (s : MomentarySwitch) :
  pulse v t0 readings -> lastState s = v -> lastChange s = t0 ->
  fst (pollLoop readings s) = [] /\ snd (pollLoop readings s) = s.
Proof.
  unfold pulse. revert s.
  induction readings as [|[state now] rest IH]; intros s H Hv Ht.
  - split; reflexivity.
  - inversion H as [|x l Hx Hl]; subst. cbn [fst snd] in Hx.
    destruct Hx as [-> Hn].
    cbn [pollLoop]. unfold poll. rewrite Z.eqb_refl. cbn [negb].
    rewrite to_ms_small by lia.
    destruct (IH s Hl eq_refl eq_refl) as [E1 E2].
    destruct (pollLoop rest s) as [cs s2]. cbn [fst snd] in *.
    subst. split; reflexivity.
Qed.

Lemma pollLoop_idle_high (readings : list (Z * Z)) (s : MomentarySwitch) :
  Forall (fun sn => fst sn = 1) readings -> pressed s = false ->
  fst (pollLoop readings s) = []
  /\ pressed (snd (pollLoop readings s)) = false.
Proof.
  revert s. induction readings as [|[state now] rest IH]; intros s H Hp.
  - split; [reflexivity | exact Hp].
  - inversion H as [|x l Hx Hl]; subst. cbn [fst] in Hx. subst state.
    cbn [pollLoop].
    assert (Hq : fst (poll 1 now s) = None
                 /\ pressed (snd (poll 1 now s)) = false).
    { unfold poll.
      destruct (1 =? lastState s); cbn [negb];
        cbn [pressed lastChange];
        match goal with
        | |- context [if ?b then _ else _] => destruct b
        end; cbn [Z.eqb andb fst snd pressed]; try rewrite Hp;
        cbn [negb andb fst snd pressed]; auto. }
    destruct (poll 1 now s) as [c s1]. cbn [fst snd] in Hq.
    destruct Hq as [-> Hp1].
    destruct (IH s1 Hl Hp1) as [E1 E2].
    destruct (pollLoop rest s1) as [cs s2]. cbn [fst snd] in *.
    subst. split; [reflexivity | exact E2].
Qed.

Lemma pollLoop_app (a b : list (Z * Z)) (s : MomentarySwitch) :
  pollLoop (a ++ b) s
  = (fst (pollLoop a s) ++ fst (pollLoop b (snd (pollLoop a s))),
     snd (pollLoop b (snd (pollLoop a s)))).
Proof.
  revert s. induction a as [|[state now] rest IH]; intro s.
  - cbn [app pollLoop fst snd]. destruct (pollLoop b s). reflexivity.
  - cbn [app pollLoop]. destruct (poll state now s) as [c s1].
    rewrite (IH s1). destruct (pollLoop rest s1) as [cs s2].
    cbn [fst snd]. destruct c; reflexivity.
Qed.

(** X6.  A press shorter than the debounce time is ignored: when the pin of
    a released switch goes low at a time [t0], stays low for less than
    10 ms and then reads high again, for however long, no callback is called
    and the switch is never marked pressed. *)
Theorem short_press_is_ignored (t0 : Z) (lows highs : list (Z * Z))
  (s : MomentarySwitch) :
  lastState s = 1 -> pressed s = false ->
  pulse 0 t0 lows -> Forall (fun sn => fst sn = 1) highs ->
  fst (pollLoop ((0, t0) :: lows ++ highs) s) = []
  /\ isPressed (snd (pollLoop ((0, t0) :: lows ++ highs) s)) = false.
Proof.
  intros Hl Hp Hlow Hhigh. unfold isPressed.
  cbn [pollLoop]. unfold poll. rewrite Hl.
  cbn [Z.eqb negb lastChange]. rewrite Z.sub_diag.
  change (to_ms 0 <? DEBOUNCE_MS) with true. cbn iota.
  set (s1 := mkSwitch (pin s) (pressed s) (sw_running s) 0 t0
                      (lastPressTime s)).
  rewrite (pollLoop_app lows highs s1).
  destruct (pollLoop_within_debounce 0 t0 lows s1 Hlow eq_refl eq_refl)
    as [E1 E2].
  rewrite E1, E2. cbn [fst snd app].
  apply pollLoop_idle_high; [exact Hhigh | exact Hp].
Qed.

Lemma short_press_is_ignored_witness :
  fst (pollLoop ((0, 1000) :: [(0, 3000000)] ++ [(1, 50000000)])
                (MomentarySwitch_new 4 0)) = []
  /\ isPressed (snd (pollLoop ((0, 1000) :: [(0, 3000000)] ++ [(1, 50000000)])
                              (MomentarySwitch_new 4 0))) = false.
Proof.
  apply (short_press_is_ignored 1000 [(0, 3000000)] [(1, 50000000)]
                                (MomentarySwitch_new 4 0)).
  - reflexivity.
  - reflexivity.
  - repeat constructor; cbn; lia.
  - repeat constructor.
Defined.

End Switches.

(** ** The control surface: ranges, banks and the engine's copies *)

Section ControlSurfaceInvariants.

Import AudioEngine GPIOController ControlNotions.


Lemma rem_4_range (z : Z) : (0 <= z)%Z -> (0 <= Z.rem z 4 < 4)%Z.
Proof.
  intro H. apply Z.rem_bound_pos; lia.
Qed.

(** The ten cases of an encoder tick: the bank and the index 0..4. *)
Ltac encoder_cases g i :=
  let Hb := fresh "Hb" in
  destruct (currentBank g) eqn:Hb;
  assert (i = 0 \/ i = 1 \/ i = 2 \/ i = 3 \/ i = 4)%Z as
    [-> | [-> | [-> | [-> | ->]]]] by lia;
  unfold handleEncoder; rewrite Hb.

(** An encoder tick keeps every parameter inside its range, for each encoder
    in 0..4, in either bank and for every direction from -4 upwards. *)
Lemma handleEncoder_keeps_ranges (i direction : Z) (g : GPIOController) :
  (0 <= i < 5)%Z -> (-4 <= direction)%Z ->
  ranges_ok (params g) -> ranges_ok (params (handleEncoder i direction g)).
Proof.
  intros Hi Hd (H1 & H2 & H3 & H4 & H5 & H6 & H7 & H8 & H9 & H10).
  encoder_cases g i; simpl;
    unfold ranges_ok; cbn [p_volume p_filterFreq p_filterRes p_delayFeedback
      p_reverbMix p_release p_delayTime p_reverbSize p_oscWaveform
      p_lfoWaveform set_p_volume set_p_filterFreq set_p_filterRes
      set_p_delayFeedback set_p_reverbMix set_p_release set_p_delayTime
      set_p_reverbSize set_p_oscWaveform set_p_lfoWaveform];
    refine (conj _ (conj _ (conj _ (conj _ (conj _ (conj _ (conj _
              (conj _ (conj _ _)))))))));
    try assumption;
    try (apply clamp_range; lra);
    try (apply rem_4_range; lia).
Qed.


Lemma dispatch_keeps_ranges (ev : Event) (g : GPIOController) :
  from_hardware ev -> ranges_ok (params g) ->
  ranges_ok (params (dispatch ev g)).
Proof.
  destruct ev as [i dir| | | | |]; cbn [from_hardware dispatch]; intros H Hr;
    try exact Hr.
  destruct H as [Hi Hd].
  apply handleEncoder_keeps_ranges; [exact Hi | lia | exact Hr].
Qed.


Lemma run_invariant (P : GPIOController -> Prop) (evs : list Event)
  (g : GPIOController) :
  (forall ev st, from_hardware ev -> P st -> P (dispatch ev st)) ->
  Forall from_hardware evs -> P g -> P (run evs g).
Proof.
  intro Hstep. unfold run. revert g.
  induction evs as [|ev rest IH]; intros g Hall Hg; [exact Hg|].
  inversion Hall as [|x l Hx Hl]; subst. cbn [fold_left].
  apply IH; [exact Hl | apply Hstep; assumption].
Qed.

(** X7.  Whatever the user does, the parameters of the control surface stay
    inside their ranges: if they are in range, they still are after any
    sequence of encoder turns and of trigger, pitch-envelope and shift
    presses and releases. *)
Theorem control_surface_stays_in_range (evs : list Event)
  (g : GPIOController) :
  Forall from_hardware evs ->
  ranges_ok (params g) -> ranges_ok (params (run evs g)).
Proof.
  intros Hall Hg.
  apply (run_invariant (fun st => ranges_ok (params st))); try assumption.
  intros ev st. apply dispatch_keeps_ranges.
Qed.


Lemma control_surface_stays_in_range_witness :
  ranges_ok
    (params (run [Turn 0 1; ShiftPress; Turn 3 (-1); ShiftRelease; Turn 2 1]
                 (handleEncoder 2 1 (GPIOController_new engine0)))).
Proof.
  apply (control_surface_stays_in_range
           [Turn 0 1; ShiftPress; Turn 3 (-1); ShiftRelease; Turn 2 1]
           (handleEncoder 2 1 (GPIOController_new engine0))).
  - repeat constructor; cbn; lia.
  - unfold ranges_ok. cbn.
    repeat split; try discriminate; try reflexivity.
Defined.


(** X9.  The two banks do not interfere: a turn of an encoder in bank A
    leaves the five parameters of bank B as they are, a turn in bank B
    leaves the five parameters of bank A as they are, and no turn changes
    the bank, the shift flag or the running flag. *)
Theorem handleEncoder_other_bank (i direction : Z) (g : GPIOController) :
  (0 <= i < 5)%Z ->
  let g' := handleEncoder i direction g in
  (currentBank g = A -> bankB_values (params g') = bankB_values (params g))
  /\ (currentBank g = B ->
      bankA_values (params g') = bankA_values (params g))
  /\ currentBank g' = currentBank g
  /\ shiftPressed g' = shiftPressed g
  /\ running g' = running g.
Proof.
  intros Hi g'. subst g'.
  encoder_cases g i; simpl;
    (split; [intro; try discriminate; reflexivity|]);
    (split; [intro; try discriminate; reflexivity|]);
    repeat split; try reflexivity; try assumption.
Qed.

Lemma handleEncoder_other_bank_witness :
  bankB_values (params (handleEncoder 1 (-1) (GPIOController_new engine0)))
  = bankB_values (params (GPIOController_new engine0)).
Proof.
  destruct (handleEncoder_other_bank 1 (-1) (GPIOController_new engine0)
              ltac:(lia)) as [H _].
  exact (H eq_refl).
Defined.



(** X11.  The default filter resonance 1.0 lies above the range [0, 0.95] of
    the resonance encoder: starting from the default parameters, the first
    turn of encoder 3 in bank A sets the resonance to 0.95 whichever way it
    is turned, and from then on every parameter is in range. *)
Theorem default_resonance_above_range (direction : Z) (g : GPIOController) :
  params g = Parameters_default -> currentBank g = A ->
  (direction = 1 \/ direction = -1)%Z ->
  ~ ranges_ok (params g)
  /\ p_filterRes (params (handleEncoder 2 direction g)) = 95 # 100
  /\ ranges_ok (params (handleEncoder 2 direction g)).
Proof.
  destruct g as [e run bank shift p]. cbn [currentBank params].
  intros -> -> Hd. split; [|split].
  - intros (_ & _ & [_ H] & _). cbn in H. apply H. reflexivity.
  - destruct Hd as [-> | ->]; reflexivity.
  - destruct Hd as [-> | ->]; unfold ranges_ok; cbn;
      repeat split; try discriminate; try reflexivity.
Qed.

Lemma default_resonance_above_range_witness :
  p_filterRes (params (handleEncoder 2 (-1) (GPIOController_new engine0)))
  = 95 # 100.
Proof.
  destruct (default_resonance_above_range (-1) (GPIOController_new engine0)
              eq_refl eq_refl (or_intror eq_refl)) as (_ & H & _).
  exact H.
Defined.

(** X12.  [start()] applies the parameters and marks the control surface
    running; a second [start()] changes nothing; [stop()] clears the running
    mark and nothing else, and does nothing on a control surface that is not
    running. *)
Theorem start_stop_lifecycle (g : GPIOController) :
  running (start g) = true
  /\ start (start g) = start g
  /\ params (start g) = params g
  /\ running (stop g) = false
  /\ engine (stop g) = engine g /\ params (stop g) = params g
  /\ currentBank (stop g) = currentBank g
  /\ (running g = false -> stop g = g
      /\ getVolume (engine (start g)) = clamp (p_volume (params g)) 0 1
      /\ Reverb.getDryWet (reverb (engine (start g)))
         = clamp (p_reverbMix (params g)) 0 1
      /\ Reverb.getSize (reverb (engine (start g)))
         = clamp (p_reverbSize (params g)) 0 1).
Proof.
  unfold start, stop.
  destruct g as [e run bank shift p]. cbn [running params engine currentBank].
  destruct run; cbn [running params engine currentBank];
    repeat split; try discriminate.
Qed.

End ControlSurfaceInvariants.

(** ** The pitch-envelope mode and the simulated control surface *)

Section PitchEnvelopeCycle.

Import Ascii AudioEngine SimulatedController.

Lemma cyclePitchEnvelope_mode (e : AudioEngine) :
  getPitchEnvelopeMode (snd (cyclePitchEnvelope e))
  = match getPitchEnvelopeMode e with
    | PitchNone => PitchUp
    | PitchUp => PitchDown
    | PitchDown => PitchNone
    end.
Proof.
  unfold cyclePitchEnvelope, getPitchEnvelopeMode.
  destruct (param_get (pitchEnvMode e)); reflexivity.
Qed.

Lemma cyclePitchEnvelope_thrice (e : AudioEngine) :
  snd (cyclePitchEnvelope
         (snd (cyclePitchEnvelope (snd (cyclePitchEnvelope e))))) = e.
Proof.
  destruct e as [sr bs osc lf env flt dc dl rv vol bf [m] cf sm b1 b2 b3 b4 b5].
  destruct m; reflexivity.
Qed.


(** X14.  Of the commands of the simulated control surface, only ['t'] and
    ['p'] reach the engine and only ['q'] changes the running flag: every
    other character, the status and help commands included, leaves the
    controller exactly as it is, and three ['p'] commands in a row give the
    engine back unchanged. *)
Theorem processCommand_effects (isPlaying : AudioEngine -> bool)
  (cmd : ascii) (s : SimulatedController) :
  (cmd <> "t"%char -> cmd <> "p"%char ->
     sim_engine (processCommand isPlaying cmd s) = sim_engine s)
  /\ (cmd <> "q"%char ->
     sim_running (processCommand isPlaying cmd s) = sim_running s)
  /\ (cmd <> "t"%char -> cmd <> "p"%char -> cmd <> "q"%char ->
     processCommand isPlaying cmd s = s)
  /\ sim_running (processCommand isPlaying "q" s) = false
  /\ processCommand isPlaying "p"
       (processCommand isPlaying "p" (processCommand isPlaying "p" s)) = s.
Proof.
  assert (H3 : processCommand isPlaying "p"
                 (processCommand isPlaying "p" (processCommand isPlaying "p" s))
               = s).
  { unfold processCommand.
    change (Ascii.eqb "p" "t") with false.
    change (Ascii.eqb "p" "p") with true. cbv iota.
    destruct s as [e run]. cbn [sim_engine sim_running].
    rewrite cyclePitchEnvelope_thrice. reflexivity. }
  refine (conj _ (conj _ (conj _ (conj _ H3)))); try reflexivity;
    unfold processCommand;
    destruct (Ascii.eqb_spec cmd "t") as [Ht | Ht];
    destruct (Ascii.eqb_spec cmd "p") as [Hp | Hp];
    destruct (Ascii.eqb_spec cmd "s") as [Hs | Hs];
    destruct (Ascii.eqb_spec cmd "h") as [Hh | Hh];
    destruct (Ascii.eqb_spec cmd "?") as [Hq' | Hq'];
    destruct (Ascii.eqb_spec cmd "q") as [Hq | Hq];
    cbn [orb]; intros; try contradiction; try reflexivity;
    try (destruct (isPlaying (sim_engine s)); reflexivity);
    try (destruct s; reflexivity).
Qed.

End PitchEnvelopeCycle.

(** ** The engine's callback, block after block *)

Section EngineBlocks.

Import AudioEngine.

Lemma length_wr (l : list Q) (i : Z) (x : Q) : length (wr l i x) = length l.
Proof.
  unfold wr. destruct (i <? 0)%Z; [reflexivity | apply length_upd].
Qed.

Lemma length_copy_into (n : nat) (src dst : list Q) :
  length (copy_into n src dst) = length dst.
Proof.
  unfold copy_into.
  apply (for_loop_invariant (fun _ buf => length buf = length dst)).
  - reflexivity.
  - intros k st _ H. rewrite length_wr. exact H.
Qed.

Lemma length_osc_loop (K : Kernels) (n : nat)
  (st : SmoothedValue * Q * Oscillator * list Q) :
  length (snd (for_loop n (osc_step K) st)) = length (snd st).
Proof.
  apply (for_loop_invariant
           (fun _ (s : SmoothedValue * Q * Oscillator * list Q) =>
              length (snd s) = length (snd st))).
  - reflexivity.
  - intros k [[[sm cf] osc] buf] _ H. unfold osc_step.
    destruct (sv_getNext sm) as [freq sm'].
    destruct (osc_generateSample K (osc_setFrequency freq osc)) as [y osc2].
    cbn [snd] in *. rewrite length_wr. exact H.
Qed.

Lemma length_filter_loop (K : Kernels) (n : nat) (bc : Q) (lb ob : list Q)
  (st : LowPassFilter * list Q) :
  length (snd (for_loop n (filter_step K bc lb ob) st)) = length (snd st).
Proof.
  apply (for_loop_invariant
           (fun _ (s : LowPassFilter * list Q) =>
              length (snd s) = length (snd st))).
  - reflexivity.
  - intros k [f buf] _ H. unfold filter_step.
    destruct (lp_processSample K _ _) as [y f2].
    cbn [snd] in *. rewrite length_wr. exact H.
Qed.

Lemma length_gate_loop (n : nat) (envBuf buf : list Q) :
  length (for_loop n (gate_step envBuf) buf) = length buf.
Proof.
  apply (for_loop_invariant (fun _ b => length b = length buf)).
  - reflexivity.
  - intros k st _ H. unfold gate_step.
    destruct (Qltb _ _); rewrite length_wr; exact H.
Qed.

(** What [process] keeps: the parameters and the sizes of the work
    buffers. *)
Lemma process_keeps (K : Kernels) (e : AudioEngine) (n : nat)
  (out : list Q) (e' : AudioEngine) :
  process K e n = Some (out, e') ->
  volume e' = volume e /\ baseFrequency e' = baseFrequency e
  /\ pitchEnvMode e' = pitchEnvMode e
  /\ sampleRate e' = sampleRate e /\ bufferSize e' = bufferSize e
  /\ length (oscBuffer e') = length (oscBuffer e)
  /\ length (envBuffer e') = length (envBuffer e)
  /\ length (lfoBuffer e') = length (lfoBuffer e)
  /\ length (filterBuffer e') = length (filterBuffer e)
  /\ length (delayBuffer e') = length (delayBuffer e).
Proof.
  unfold process. destruct (fits n e); cbn [negb]; [|discriminate].
  pose proof (length_osc_loop K n
                (sv_setTarget (param_get (baseFrequency e)) (frequencySmooth e),
                 currentFrequency e, oscillator e, oscBuffer e)) as Hosc.
  destruct (for_loop n (osc_step K) _) as [[[sm cf] osc] oscBuf].
  destruct (lfo_generate K (lfo e) n) as [lfoOut lfo'].
  destruct (env_generate K (envelope e) n) as [envOut env'].
  pose proof (length_filter_loop K n (lp_getCutoff (filter e))
                (copy_into n lfoOut (lfoBuffer e)) oscBuf
                (filter e, filterBuffer e)) as Hflt.
  destruct (for_loop n (filter_step K _ _ _) _) as [flt1 filtBuf1].
  destruct (dl_process K (delay e) _ n) as [delayOut delay'].
  destruct (Reverb.process (math K) (reverb e) _ n) as [revOut reverb'].
  destruct (dc_process (dcBlocker e) _) as [dcOut dc'].
  intro H. injection H as _ <-.
  cbn [volume baseFrequency pitchEnvMode sampleRate bufferSize oscBuffer
       envBuffer lfoBuffer filterBuffer delayBuffer fst snd] in *.
  repeat (refine (conj _ _); [reflexivity|]).
  refine (conj Hosc (conj _ (conj _ (conj _ _))));
    rewrite ?length_copy_into, ?length_gate_loop; try reflexivity.
  exact Hflt.
Qed.

Lemma fits_lengths (n : nat) (e e' : AudioEngine) :
  length (oscBuffer e') = length (oscBuffer e) ->
  length (envBuffer e') = length (envBuffer e) ->
  length (lfoBuffer e') = length (lfoBuffer e) ->
  length (filterBuffer e') = length (filterBuffer e) ->
  length (delayBuffer e') = length (delayBuffer e) ->
  fits n e' = fits n e.
Proof.
  intros H1 H2 H3 H4 H5. unfold fits. rewrite H1, H2, H3, H4, H5. reflexivity.
Qed.

Lemma nth_flat_map_out_frame (buf : list Q) (vol : Q) (n i : nat) :
  (i < n)%nat ->
  nth (2 * i) (flat_map (out_frame buf vol) (seq 0 n)) 0
  = clamp (rd buf (Z.of_nat i) * vol) (-1) 1
  /\ nth (2 * i + 1) (flat_map (out_frame buf vol) (seq 0 n)) 0
     = clamp (rd buf (Z.of_nat i) * vol) (-1) 1.
Proof.
  intro Hi.
  assert (G : forall (l : list nat) (j : nat), (j < length l)%nat ->
            nth (2 * j) (flat_map (out_frame buf vol) l) 0
            = clamp (rd buf (Z.of_nat (nth j l O)) * vol) (-1) 1
            /\ nth (2 * j + 1) (flat_map (out_frame buf vol) l) 0
               = clamp (rd buf (Z.of_nat (nth j l O)) * vol) (-1) 1).
  { induction l as [|k l IH]; intros j Hj; [cbn in Hj; lia|].
    cbn [flat_map]. unfold out_frame at 1. unfold out_frame at 2.
    destruct j as [|j].
    - split; reflexivity.
    - cbn [length] in Hj.
      replace (2 * S j)%nat with (S (S (2 * j))) by lia.
      replace (S (S (2 * j)) + 1)%nat with (S (S (2 * j + 1))) by lia.
      cbn [app nth]. apply IH. lia. }
  destruct (G (seq 0 n) i) as [G1 G2]; [rewrite length_seq; exact Hi|].
  rewrite seq_nth in G1, G2 by exact Hi. cbn [Nat.add] in G1, G2.
  split; assumption.
Qed.

(** X15.  The engine writes the same sample to both channels: in the block
    that [process] returns, the left sample [out[2i]] and the right sample
    [out[2i+1]] of every frame are equal. *)
Theorem process_is_dual_mono (K : Kernels) (e : AudioEngine) (n i : nat)
  (out : list Q) (e' : AudioEngine) :
  process K e n = Some (out, e') -> (i < n)%nat ->
  nth (2 * i) out 0 = nth (2 * i + 1) out 0.
Proof.
  intros H Hi.
  destruct (process_output_shape K e n out e' H) as [buf ->].
  destruct (nth_flat_map_out_frame buf (getVolume e) n i Hi) as [-> ->].
  reflexivity.
Qed.

Lemma process_is_dual_mono_witness :
  exists out e',
    process bypass engine0 4 = Some (out, e')
    /\ nth (2 * 3) out 0 = nth (2 * 3 + 1) out 0.
Proof.
  destruct (process_total bypass engine0 4 ltac:(vm_compute; reflexivity))
    as (out & e' & H).
  exists out, e'. split; [exact H|].
  apply (process_is_dual_mono bypass engine0 4 3 out e' H). lia.
Defined.





Lemma rd_wr_eq (l : list Q) (i : nat) (x : Q) :
  (i < length l)%nat -> rd (wr l (Z.of_nat i) x) (Z.of_nat i) = x.
Proof.
  intro H. unfold rd, wr.
  replace (Z.of_nat i <? 0)%Z with false by (symmetry; apply Z.ltb_ge; lia).
  rewrite Nat2Z.id.
  apply (nth_error_nth _ _ 0). apply nth_error_upd_eq. exact H.
Qed.

Lemma rd_wr_neq (l : list Q) (i j : nat) (x : Q) :
  i <> j -> rd (wr l (Z.of_nat i) x) (Z.of_nat j) = rd l (Z.of_nat j).
Proof.
  intro H. unfold rd, wr.
  replace (Z.of_nat i <? 0)%Z with false by (symmetry; apply Z.ltb_ge; lia).
  rewrite !Nat2Z.id.
  destruct (nth_error l j) as [y|] eqn:E.
  - rewrite (nth_error_nth _ _ 0 E).
    apply (nth_error_nth _ _ 0). rewrite nth_error_upd_neq by exact H. exact E.
  - rewrite (nth_overflow l 0) by (apply nth_error_None; exact E).
    apply nth_overflow. rewrite length_upd. apply nth_error_None. exact E.
Qed.

(** X18.  The envelope loop of [process] is a hard gate: in a buffer that
    holds the [n] frames, every sample whose envelope value is below 0.001
    becomes exactly 0, every other sample is multiplied by its envelope
    value, and the samples from frame [n] on are not touched. *)
Theorem envelope_gate (envBuf buf : list Q) (n : nat) :
  (n <= length buf)%nat ->
  let gated := for_loop n (gate_step envBuf) buf in
  length gated = length buf
  /\ (forall i, (i < n)%nat ->
        rd gated (Z.of_nat i)
        = if Qltb (rd envBuf (Z.of_nat i)) (1 # 1000) then 0
          else rd buf (Z.of_nat i) * rd envBuf (Z.of_nat i))
  /\ (forall i, (n <= i)%nat -> rd gated (Z.of_nat i) = rd buf (Z.of_nat i)).
Proof.
  intros Hn gated. subst gated.
  split; [apply length_gate_loop|].
  apply (for_loop_invariant
    (fun k st =>
       length st = length buf /\
       (forall i, (i < k)%nat ->
          rd st (Z.of_nat i)
          = if Qltb (rd envBuf (Z.of_nat i)) (1 # 1000) then 0
            else rd buf (Z.of_nat i) * rd envBuf (Z.of_nat i))
       /\ (forall i, (k <= i)%nat -> rd st (Z.of_nat i) = rd buf (Z.of_nat i)))).
  - split; [reflexivity|]. split; [intros i Hi; lia | reflexivity].
  - intros k st Hk (Hlen & Hlow & Hhigh).
    assert (Hstep : gate_step envBuf (Z.of_nat k) st
                    = wr st (Z.of_nat k)
                         (if Qltb (rd envBuf (Z.of_nat k)) (1 # 1000) then 0
                          else rd buf (Z.of_nat k) * rd envBuf (Z.of_nat k))).
    { unfold gate_step. rewrite (Hhigh k (Nat.le_refl k)).
      destruct (Qltb _ _); reflexivity. }
    rewrite Hstep. split; [rewrite length_wr; exact Hlen|]. split.
    + intros i Hi. destruct (Nat.eq_dec i k) as [-> | Hne].
      * apply rd_wr_eq. lia.
      * rewrite rd_wr_neq by (intro E; apply Hne; symmetry; exact E).
        apply Hlow. lia.
    + intros i Hi. rewrite rd_wr_neq by lia. apply Hhigh. lia.
Qed.

Lemma envelope_gate_witness :
  let gated :=
    for_loop 2 (gate_step [1 # 2; 1 # 2000; 1]) [1 # 4; 1 # 4; 1 # 4] in
  rd gated 0 = (1 # 4) * (1 # 2) /\ rd gated 1 = 0 /\ rd gated 2 = 1 # 4.
Proof.
  intro gated.
  destruct (envelope_gate [1 # 2; 1 # 2000; 1] [1 # 4; 1 # 4; 1 # 4] 2
              ltac:(cbn; lia)) as (_ & Hlow & Hhigh).
  exact (conj (Hlow 0%nat ltac:(lia))
              (conj (Hlow 1%nat ltac:(lia)) (Hhigh 2%nat ltac:(lia)))).
Defined.

End EngineBlocks.

(** ** The audio output *)

Section AudioOutputLoop.

Import AudioEngine AudioOutput.

Lemma to_int_bounds (q : Q) (b : Z) :
  (0 <= b)%Z -> inject_Z (- b) <= q <= inject_Z b -> (- b <= to_int q <= b)%Z.
Proof.
  intros Hb [Hlo Hhi]. unfold to_int. destruct q as [n d].
  unfold Qle in Hlo, Hhi. cbn [Qnum Qden inject_Z] in *.
  rewrite Z.mul_1_r in Hlo, Hhi.
  destruct (Z_lt_le_dec n 0) as [Hn | Hn].
  - split.
    + rewrite <- (Z.opp_involutive n), Z.quot_opp_l by lia.
      apply -> Z.opp_le_mono.
      apply Z.quot_le_upper_bound; lia.
    + assert (Z.quot n (Z.pos d) <= 0)%Z
        by (apply Z.quot_le_upper_bound; lia).
      lia.
  - split.
    + assert (0 <= Z.quot n (Z.pos d))%Z by (apply Z.quot_pos; lia). lia.
    + apply Z.quot_le_upper_bound; lia.
Qed.

Lemma to_int16_bounds (x : Q) : (- 32767 <= to_int16 x <= 32767)%Z.
Proof.
  unfold to_int16.
  assert (H : -1 <= clamp x (-1) 1 <= 1) by (apply clamp_range; lra).
  apply (to_int_bounds (clamp x (-1) 1 * 32767) 32767); [lia|].
  replace (inject_Z (- (32767))) with (- (32767 # 1)) by reflexivity.
  change (inject_Z 32767) with (32767 # 1). lra.
Qed.

(** X19.  The conversion to 16-bit samples never leaves the range of
    [int16_t]: for every float sample [x], the value
    [clamp(x, -1, 1) * 32767] truncated to an integer lies in
    [-32767, 32767]; samples at or beyond full scale map to -32767 and
    32767 (so -32768 is never produced), and silence maps to 0. *)
Theorem to_int16_range (x : Q) :
  (- 32767 <= to_int16 x <= 32767)%Z
  /\ (1 <= x -> to_int16 x = 32767%Z)
  /\ (x <= -1 -> to_int16 x = (- 32767)%Z)
  /\ to_int16 0 = 0%Z.
Proof.
  split; [|split; [|split]].
  - apply to_int16_bounds.
  - intro H. unfold to_int16, clamp, std_clamp.
    replace (Qltb x (-1)) with false by (symmetry; apply Qltb_ge; lra).
    destruct (Qltb 1 x) eqn:E; [reflexivity|].
    apply Qltb_ge in E. unfold to_int.
    assert (Hx : x == 1) by lra.
    destruct x as [n d]. unfold Qeq in Hx. cbn [Qnum Qden Qmult] in *.
    rewrite Z.mul_1_r, Z.mul_1_l in Hx. subst n.
    rewrite Pos.mul_1_r. rewrite Z.mul_comm. apply Z.quot_mul. lia.
  - intro H. unfold to_int16, clamp, std_clamp.
    destruct (Qltb x (-1)) eqn:E; [reflexivity|].
    apply Qltb_ge in E.
    replace (Qltb 1 x) with false by (symmetry; apply Qltb_ge; lra).
    unfold to_int.
    assert (Hx : x == -1) by lra.
    destruct x as [n d]. unfold Qeq in Hx. cbn [Qnum Qden Qmult] in *.
    rewrite Z.mul_1_r in Hx. subst n.
    rewrite Pos.mul_1_r.
    replace (-1 * Z.pos d * 32767)%Z with (- 32767 * Z.pos d)%Z by ring.
    apply Z.quot_mul. lia.
  - reflexivity.
Qed.

Lemma length_write_front (src dst out : list Q) :
  write_front src dst = Some out -> length out = length dst.
Proof.
  unfold write_front. destruct (length src <=? length dst)%nat eqn:E;
    [|discriminate].
  apply Nat.leb_le in E. intro H. injection H as <-.
  rewrite length_app, length_skipn. lia.
Qed.

Lemma process_length (K : Kernels) (e : AudioEngine) (n : nat)
  (out : list Q) (e' : AudioEngine) :
  process K e n = Some (out, e') -> length out = (2 * n)%nat.
Proof.
  intro H. destruct (process_output_shape K e n out e' H) as [buf ->].
  destruct (flat_map_out_frame buf (getVolume e) (seq 0 n)) as [Hl _].
  rewrite length_seq in Hl. exact Hl.
Qed.

Lemma process_fits_again (K : Kernels) (e : AudioEngine) (n : nat)
  (out : list Q) (e' : AudioEngine) :
  process K e n = Some (out, e') -> fits n e' = fits n e.
Proof.
  intro H.
  destruct (process_keeps K e n out e' H)
    as (_ & _ & _ & _ & _ & H1 & H2 & H3 & H4 & H5).
  apply fits_lengths; assumption.
Qed.

Lemma audioLoop_iteration_cases (K : Kernels) (frames : Z) (fb : list Q)
  (o : AudioOutput) (block : list Z) (fb' : list Q) (o' : AudioOutput) :
  audioLoop_iteration K frames (fb, o) = Some (block, (fb', o')) ->
  totalBuffers o' = wrap_uint64 (totalBuffers o + 1)
  /\ underruns o'
     = (if (frames <? 0)%Z then wrap_uint64 (underruns o + 1) else underruns o)
  /\ length fb' = length fb
  /\ block = map to_int16 fb'
  /\ ao_bufferSize o' = ao_bufferSize o /\ channels o' = channels o
  /\ fits (Z.to_nat (ao_bufferSize o)) (ao_engine o')
     = fits (Z.to_nat (ao_bufferSize o)) (ao_engine o).
Proof.
  unfold audioLoop_iteration.
  destruct (process K (ao_engine o) (Z.to_nat (ao_bufferSize o)))
    as [[samples engine']|] eqn:Hp; [|discriminate].
  destruct (write_front samples fb) as [fb1|] eqn:Hw; [|discriminate].
  destruct (map to_int16 fb1) as [|s rest] eqn:Hm; [discriminate|].
  intro H. injection H as <- <- <-.
  cbn [totalBuffers underruns ao_bufferSize channels ao_engine].
  repeat split.
  - apply (length_write_front _ _ _ Hw).
  - symmetry. exact Hm.
  - apply (process_fits_again K _ _ _ _ Hp).
Qed.

(** The number of underruns among the results of [snd_pcm_writei]. *)
Lemma audioLoop_counts (K : Kernels) (writes : list Z) :
  forall (fb : list Q) (o : AudioOutput) (blocks : list (list Z))
         (fb' : list Q) (o' : AudioOutput),
  (0 <= underruns o <= totalBuffers o)%Z ->
  (totalBuffers o + Z.of_nat (length writes) < 2 ^ 64)%Z ->
  audioLoop K writes (fb, o) = Some (blocks, (fb', o')) ->
  totalBuffers o' = (totalBuffers o + Z.of_nat (length writes))%Z
  /\ underruns o'
     = (underruns o
        + Z.of_nat (length (List.filter (fun f => (f <? 0)%Z) writes)))%Z
  /\ length blocks = length writes
  /\ Forall (fun block =>
               length block = length fb
               /\ Forall (fun s => (- 32767 <= s <= 32767)%Z) block) blocks.
Proof.
  induction writes as [|frames rest IH];
    intros fb o blocks fb' o' Hu Ht H.
  - cbn [audioLoop] in H. injection H as <- <- <-.
    cbn [length List.filter]. rewrite !Z.add_0_r. repeat split. constructor.
  - cbn [audioLoop] in H.
    destruct (audioLoop_iteration K frames (fb, o)) as [[b [fb1 o1]]|] eqn:Hi;
      [|discriminate].
    destruct (audioLoop K rest (fb1, o1)) as [[bs [fb2 o2]]|] eqn:Hr;
      [|discriminate].
    injection H as <- <- <-.
    destruct (audioLoop_iteration_cases K frames fb o b fb1 o1 Hi)
      as (Ht1 & Hu1 & Hl1 & Hb1 & _).
    cbn [length] in Ht. rewrite Nat2Z.inj_succ in Ht.
    assert (Ht1' : totalBuffers o1 = (totalBuffers o + 1)%Z).
    { rewrite Ht1. unfold wrap_uint64. apply Z.mod_small. lia. }
    assert (Hu1' : underruns o1
                   = (underruns o + (if (frames <? 0)%Z then 1 else 0))%Z).
    { rewrite Hu1. destruct (frames <? 0)%Z; [|lia].
      unfold wrap_uint64. apply Z.mod_small. lia. }
    destruct (IH fb1 o1 bs fb2 o2) as (IH1 & IH2 & IH3 & IH4).
    + rewrite Ht1', Hu1'. destruct (frames <? 0)%Z; lia.
    + rewrite Ht1'. lia.
    + exact Hr.
    + rewrite IH1, IH2, Ht1', Hu1'. cbn [length List.filter].
      split; [lia|]. split.
      { destruct (frames <? 0)%Z; cbn [length]; lia. }
      split; [lia|]. constructor.
      * split; [rewrite Hb1, length_map; exact Hl1|].
        rewrite Hb1. apply Forall_map. apply Forall_forall.
        intros x _. apply to_int16_bounds.
      * rewrite <- Hl1. exact IH4.
Qed.

(** X20.  The statistics of the audio output are exact: starting from the
    counters of a new output object, after the loop has run over the
    results of fewer than 2^64 ALSA writes, [getStats()] gives the number of
    iterations and the number of writes that failed, so the underruns never
    exceed the buffers; every block handed to ALSA has the size of the float
    buffer and all its samples lie in [-32767, 32767]. *)
Theorem audioLoop_statistics (K : Kernels) (writes : list Z) (fb : list Q)
  (o : AudioOutput) (blocks : list (list Z)) (fb' : list Q)
  (o' : AudioOutput) :
  totalBuffers o = 0%Z -> underruns o = 0%Z ->
  (Z.of_nat (length writes) < 2 ^ 64)%Z ->
  audioLoop K writes (fb, o) = Some (blocks, (fb', o')) ->
  getStats o'
  = (Z.of_nat (length writes),
     Z.of_nat (length (List.filter (fun f => (f <? 0)%Z) writes)))
  /\ (underruns o' <= totalBuffers o')%Z
  /\ length blocks = length writes
  /\ Forall (fun block =>
               length block = length fb
               /\ Forall (fun s => (- 32767 <= s <= 32767)%Z) block) blocks.
Proof.
  intros Ht Hu Hlen H.
  destruct (audioLoop_counts K writes fb o blocks fb' o') as (H1 & H2 & H3 & H4);
    [lia | lia | exact H|].
  unfold getStats. rewrite H1, H2, Ht, Hu. cbn [Z.add].
  split; [reflexivity|]. split; [|split; assumption].
  apply Nat2Z.inj_le. apply filter_length_le.
Qed.

Lemma audioLoop_total (K : Kernels) (writes : list Z) :
  forall (fb : list Q) (o : AudioOutput),
  fits (Z.to_nat (ao_bufferSize o)) (ao_engine o) = true ->
  (0 < 2 * Z.to_nat (ao_bufferSize o) <= length fb)%nat ->
  exists res, audioLoop K writes (fb, o) = Some res.
Proof.
  induction writes as [|frames rest IH]; intros fb o Hf Hl.
  - eexists. reflexivity.
  - cbn [audioLoop].
    assert (Hi : exists b fb1 o1,
               audioLoop_iteration K frames (fb, o) = Some (b, (fb1, o1))).
    { unfold audioLoop_iteration.
      destruct (process_total K _ _ Hf) as (samples & engine' & Hp).
      rewrite Hp. pose proof (process_length K _ _ _ _ Hp) as Hs.
      unfold write_front.
      replace (length samples <=? length fb)%nat with true
        by (symmetry; apply Nat.leb_le; lia).
      destruct samples as [|s0 samples]; [cbn in Hs; lia|].
      cbn [app map]. eexists. eexists. eexists. reflexivity. }
    destruct Hi as (b & fb1 & o1 & Hi). rewrite Hi.
    destruct (audioLoop_iteration_cases K frames fb o b fb1 o1 Hi)
      as (_ & _ & Hl1 & _ & Hbs & _ & Hf1).
    destruct (IH fb1 o1) as [[bs st2] Hr].
    + rewrite Hbs, Hf1. exact Hf.
    + rewrite Hbs, Hl1. exact Hl.
    + rewrite Hr. eexists. reflexivity.
Qed.

Lemma audioLoop_statistics_witness :
  exists blocks fb' o',
    audioLoop bypass [256; -32; 256]%Z
      (floatBuffer_new (AudioOutput_new engine0 48000 256 2),
       AudioOutput_new engine0 48000 256 2) = Some (blocks, (fb', o'))
    /\ getStats o' = (3, 1)%Z.
Proof.
  destruct (audioLoop_total bypass [256; -32; 256]%Z
              (floatBuffer_new (AudioOutput_new engine0 48000 256 2))
              (AudioOutput_new engine0 48000 256 2)
              ltac:(vm_compute; reflexivity)
              ltac:(unfold floatBuffer_new; rewrite repeat_length; cbn; lia))
    as [[blocks [fb' o']] H].
  exists blocks, fb', o'. split; [exact H|].
  exact (proj1 (audioLoop_statistics bypass [256; -32; 256]%Z
                  (floatBuffer_new (AudioOutput_new engine0 48000 256 2))
                  (AudioOutput_new engine0 48000 256 2) blocks fb' o'
                  eq_refl eq_refl ltac:(cbn; lia) H)).
Defined.





End AudioOutputLoop.

(** ** The sample player, block after block *)

Section SamplePlayerBlocks.

Import SamplePlayer.

(** The frame loop inside the sample: [todo] frames are copied with the
    volume applied, and nothing else in the buffer changes. *)
Lemma process_loop_inside (data : list Q) (vol : Q) (looping : bool)
  (numFrames : nat) :
  forall (todo frame pos : nat) (out : list Q),
    (pos + 2 * todo <= length data)%nat ->
    (2 * (frame + todo) <= length out)%nat ->
    exists out',
      process_loop data vol looping numFrames todo frame pos out
      = Some (true, (pos + 2 * todo)%nat, out')
      /\ length out' = length out
      /\ (forall j, (j < 2 * todo)%nat ->
            nth_error out' (2 * frame + j) = Some (nth (pos + j) data 0 * vol))
      /\ (forall i, (i < 2 * frame)%nat \/ (2 * (frame + todo) <= i)%nat ->
            nth_error out' i = nth_error out i).
Proof.
  induction todo as [|todo IH]; intros frame pos out Hd Ho.
  - exists out. cbn [process_loop]. rewrite Nat.mul_0_r, Nat.add_0_r.
    repeat split; intros; lia.
  - cbn [process_loop].
    replace (length data <=? pos)%nat with false
      by (symmetry; apply Nat.leb_gt; lia).
    cbn [andb]. unfold read.
    rewrite (nth_error_nth' data 0) by lia.
    rewrite (nth_error_nth' data 0) by lia.
    destruct (IH (S frame) (pos + 2)%nat
                 (upd (frame * 2 + 1) (nth (pos + 1) data 0 * vol)
                      (upd (frame * 2 + 0) (nth (pos + 0) data 0 * vol) out)))
      as (out' & Hrun & Hlen & Hin & Hout); [lia | rewrite !length_upd; lia|].
    exists out'. rewrite Hrun.
    split; [do 3 f_equal; lia|].
    split; [rewrite Hlen, !length_upd; reflexivity|].
    split.
    + intros j Hj.
      destruct (Nat.lt_ge_cases j 2) as [Hlt | Hge].
      * rewrite Hout by lia.
        destruct j as [|[|j]]; [| |lia].
        -- rewrite nth_error_upd_neq by lia.
           replace (2 * frame + 0)%nat with (frame * 2 + 0)%nat by lia.
           apply nth_error_upd_eq. lia.
        -- replace (2 * frame + 1)%nat with (frame * 2 + 1)%nat by lia.
           apply nth_error_upd_eq. rewrite length_upd. lia.
      * replace (2 * frame + j)%nat with (2 * S frame + (j - 2))%nat by lia.
        rewrite Hin by lia. do 2 f_equal. f_equal. lia.
    + intros i Hi. rewrite Hout by lia.
      rewrite !nth_error_upd_neq by lia. reflexivity.
Qed.

(** X23.  Inside the sample, [process] copies: when the player is playing
    and the block of [n] frames ends at or before the end of the sample, the
    first [2n] samples of the buffer become the samples at the playhead
    multiplied by the volume, the rest of the buffer is left alone, the
    playhead advances by [2n] and the player keeps playing. *)
Theorem process_copies_block (p : SamplePlayer) (out : list Q) (n : nat) :
  isPlaying p = true -> (0 < n)%nat ->
  (playbackPosition p + 2 * n <= length (sampleData p))%nat ->
  (2 * n <= length out)%nat ->
  exists out',
    process p out n
    = Some (out', with_playback true (playbackPosition p + 2 * n) p)
    /\ length out' = length out
    /\ (forall j, (j < 2 * n)%nat ->
          nth_error out' j
          = Some (nth (playbackPosition p + j) (sampleData p) 0 * sp_volume p))
    /\ (forall i, (2 * n <= i)%nat -> nth_error out' i = nth_error out i).
Proof.
  intros Hplay Hn Hd Ho. unfold process, isPlaying in *. rewrite Hplay.
  assert (Hload : isLoaded p = true).
  { unfold isLoaded. destruct (sampleData p); [cbn in Hd; lia | reflexivity]. }
  rewrite Hload. cbn [negb orb].
  destruct (process_loop_inside (sampleData p) (sp_volume p) (loop p) n
              n O (playbackPosition p) out Hd ltac:(lia))
    as (out' & Hrun & Hlen & Hin & Hout).
  rewrite Hrun. exists out'. split; [reflexivity|].
  split; [exact Hlen|]. split.
  - intros j Hj. apply (Hin j Hj).
  - intros i Hi. apply Hout. right. lia.
Qed.

Lemma process_copies_block_witness :
  exists out',
    process player0 (repeat 1 6) 2
    = Some (out', with_playback true 4 player0)
    /\ nth_error out' 2 = Some (-(1 # 8) * 1)
    /\ nth_error out' 5 = Some 1.
Proof.
  destruct (process_copies_block player0 (repeat 1 6) 2 eq_refl
              ltac:(lia) ltac:(cbn; lia) ltac:(cbn; lia))
    as (out' & Hrun & _ & Hin & Hout).
  exists out'. split; [exact Hrun|].
  split; [exact (Hin 2%nat ltac:(lia)) | exact (Hout 5%nat ltac:(lia))].
Defined.

(** The frame loop on whole stereo frames: it always has a result, the
    playhead stays on a frame start, and with looping it never stops. *)
Lemma process_loop_aligned (data : list Q) (vol : Q) (looping : bool)
  (numFrames : nat) :
  Nat.even (length data) = true -> (0 < length data)%nat ->
  forall (todo frame pos : nat) (out : list Q),
    Nat.even pos = true ->
    exists pl pos' out',
      process_loop data vol looping numFrames todo frame pos out
      = Some (pl, pos', out')
      /\ Nat.even pos' = true
      /\ length out' = length out
      /\ (looping = true -> pl = true).
Proof.
  intros Hdata Hne.
  induction todo as [|todo IH]; intros frame pos out Hpos.
  - exists true, pos, out. repeat split. exact Hpos.
  - cbn [process_loop].
    destruct ((length data <=? pos)%nat && negb looping) eqn:Hstop.
    + exists false, pos, (memset_zero (frame * 2) ((numFrames - frame) * 2) out).
      split; [reflexivity|]. split; [exact Hpos|].
      split; [apply length_memset_zero|].
      intros ->. rewrite andb_false_r in Hstop. discriminate.
    + set (pos1 := if (length data <=? pos)%nat then O else pos).
      assert (Hp1 : Nat.even pos1 = true /\ (pos1 < length data)%nat).
      { subst pos1. destruct (length data <=? pos)%nat eqn:E.
        - split; [reflexivity | exact Hne].
        - apply Nat.leb_gt in E. split; assumption. }
      destruct Hp1 as [Hev Hlt].
      assert (Hnext : (pos1 + 1 < length data)%nat).
      { apply Nat.even_spec in Hdata. apply Nat.even_spec in Hev.
        destruct Hdata as [a Ha]. destruct Hev as [b Hb]. lia. }
      unfold read.
      destruct (nth_error data (pos1 + 0)) as [l|] eqn:El;
        [|apply nth_error_None in El; lia].
      destruct (nth_error data (pos1 + 1)) as [r|] eqn:Er;
        [|apply nth_error_None in Er; lia].
      destruct (IH (S frame) (pos1 + 2)%nat
                   (upd (frame * 2 + 1) (r * vol)
                        (upd (frame * 2 + 0) (l * vol) out)))
        as (pl & pos' & out' & Hrun & Hev' & Hlen & Hloop).
      * rewrite Nat.even_add, Hev. reflexivity.
      * exists pl, pos', out'. split; [exact Hrun|].
        split; [exact Hev'|].
        split; [rewrite Hlen, !length_upd; reflexivity | exact Hloop].
Qed.

Lemma frame_alignment_is_kept_aux (p : SamplePlayer) (out : list Q) (n : nat) :
  frame_aligned p ->
  exists out' p', process p out n = Some (out', p') /\ frame_aligned p'.
Proof.
  intros [Hdata Hpos]. unfold process.
  destruct (negb (playing p) || negb (isLoaded p)) eqn:Hidle.
  - exists (memset_zero 0 (n * 2) out), p.
    split; [reflexivity | split; assumption].
  - apply orb_false_elim in Hidle. destruct Hidle as [Hplay Hload].
    apply negb_false_iff in Hload.
    assert (Hne : (0 < length (sampleData p))%nat).
    { unfold isLoaded in Hload. destruct (sampleData p);
        [discriminate | cbn; lia]. }
    destruct (process_loop_aligned (sampleData p) (sp_volume p) (loop p) n
                Hdata Hne n O (playbackPosition p) out Hpos)
      as (pl & pos' & out' & Hrun & Hev & _ & _).
    rewrite Hrun. exists out', (with_playback pl pos' p).
    split; [reflexivity | split; assumption].
Qed.

(** X24.  A player whose sample data consists of whole stereo frames and
    whose playhead stands on a frame start stays that way: [trigger],
    [stop] and [process] keep it so, [process] never reads outside the
    sample data, and with looping switched on [process] never stops the
    player. *)
Theorem frame_alignment_is_kept (p : SamplePlayer) (out : list Q) (n : nat) :
  frame_aligned p ->
  frame_aligned (trigger p) /\ frame_aligned (stop p)
  /\ exists out' p',
       process p out n = Some (out', p')
       /\ frame_aligned p'
       /\ sampleData p' = sampleData p
       /\ length out' = length out
       /\ (isPlaying p = true -> isLoaded p = true -> loop p = true ->
           isPlaying p' = true).
Proof.
  intros [Hdata Hpos]. unfold frame_aligned.
  split; [|split].
  - unfold trigger. destruct (negb (isLoaded p)); split; assumption || reflexivity.
  - split; [exact Hdata | reflexivity].
  - unfold process.
    destruct (negb (playing p) || negb (isLoaded p)) eqn:Hidle.
    + exists (memset_zero 0 (n * 2) out), p.
      split; [reflexivity|]. split; [split; assumption|].
      split; [reflexivity|]. split; [apply length_memset_zero|].
      intros H _ _. exact H.
    + apply orb_false_elim in Hidle. destruct Hidle as [Hplay Hload].
      apply negb_false_iff in Hplay. apply negb_false_iff in Hload.
      assert (Hne : (0 < length (sampleData p))%nat).
      { unfold isLoaded in Hload. destruct (sampleData p);
          [discriminate | cbn; lia]. }
      destruct (process_loop_aligned (sampleData p) (sp_volume p) (loop p) n
                  Hdata Hne n O (playbackPosition p) out Hpos)
        as (pl & pos' & out' & Hrun & Hev & Hlen & Hloop).
      rewrite Hrun. exists out', (with_playback pl pos' p).
      split; [reflexivity|]. split; [split; assumption|].
      split; [reflexivity|]. split; [exact Hlen|].
      intros _ _ Hl. apply Hloop. exact Hl.
Qed.

Lemma frame_alignment_is_kept_witness :
  frame_aligned (trigger player0) /\ frame_aligned (stop player0)
  /\ exists out' p',
       process (setLoop true player0) (repeat 0 12) 6 = Some (out', p')
       /\ frame_aligned p' /\ isPlaying p' = true.
Proof.
  destruct (frame_alignment_is_kept player0 [] 0 (conj eq_refl eq_refl))
    as (H1 & H2 & _).
  destruct (frame_alignment_is_kept (setLoop true player0) (repeat 0 12) 6
              (conj eq_refl eq_refl))
    as (_ & _ & out' & p' & Hrun & Ha & _ & _ & Hl).
  split; [exact H1|]. split; [exact H2|].
  exists out', p'. split; [exact Hrun|]. split; [exact Ha|].
  apply Hl; reflexivity.
Defined.

(** *** Splitting a block *)

Lemma upd_app_l {A : Type} (i : nat) (x : A) (a b : list A) :
  (i < length a)%nat -> upd i x (a ++ b) = upd i x a ++ b.
Proof.
  revert i. induction a as [|h t IH]; intros [|i] H; cbn in *; try lia.
  - reflexivity.
  - f_equal. apply IH. lia.
Qed.

Lemma upd_app_r {A : Type} (i : nat) (x : A) (a b : list A) :
  upd (length a + i) x (a ++ b) = a ++ upd i x b.
Proof.
  induction a as [|h t IH]; cbn [length app Nat.add upd].
  - reflexivity.
  - f_equal. exact IH.
Qed.

Lemma memset_zero_outside (start count : nat) (out : list Q) (j : nat) :
  (j < start)%nat \/ (start + count <= j)%nat ->
  nth_error (memset_zero start count out) j = nth_error out j.
Proof.
  revert start. induction count as [|c IH]; intros start Hj; cbn [memset_zero];
    [reflexivity|].
  rewrite nth_error_upd_neq by lia. apply IH. lia.
Qed.

Lemma memset_zero_app_r (start count : nat) (a b : list Q) :
  memset_zero (length a + start) count (a ++ b)
  = a ++ memset_zero start count b.
Proof.
  revert start. induction count as [|c IH]; intro start; cbn [memset_zero];
    [reflexivity|].
  replace (S (length a + start)) with (length a + S start)%nat by lia.
  rewrite IH. apply upd_app_r.
Qed.

Lemma memset_zero_tail (start c1 c2 : nat) (a b : list Q) :
  (start + c1 = length a)%nat -> c2 = length b ->
  memset_zero start (c1 + c2) (a ++ b)
  = memset_zero start c1 a ++ repeat 0 c2.
Proof.
  intros Ha Hb. apply nth_error_ext. intro j.
  destruct (Nat.lt_ge_cases j start) as [H1 | H1].
  - rewrite memset_zero_outside by lia.
    rewrite nth_error_app1 by lia.
    rewrite nth_error_app1 by (rewrite length_memset_zero; lia).
    rewrite memset_zero_outside by lia. reflexivity.
  - destruct (Nat.lt_ge_cases j (length a + length b)) as [H2 | H2].
    + rewrite memset_zero_inside by (rewrite ?length_app; lia).
      destruct (Nat.lt_ge_cases j (length a)) as [H3 | H3].
      * rewrite nth_error_app1 by (rewrite length_memset_zero; lia).
        rewrite memset_zero_inside by lia. reflexivity.
      * rewrite nth_error_app2 by (rewrite length_memset_zero; lia).
        rewrite length_memset_zero.
        rewrite nth_error_repeat by lia. reflexivity.
    + transitivity (@None Q); [|symmetry]; apply nth_error_None.
      * rewrite length_memset_zero, length_app. lia.
      * rewrite length_app, length_memset_zero, repeat_length. lia.
Qed.

Lemma memset_zero_whole (l : list Q) (c : nat) :
  c = length l -> memset_zero 0 c l = repeat 0 c.
Proof.
  intro Hc.
  pose proof (memset_zero_tail 0 0 c [] l eq_refl Hc) as H.
  cbn [Nat.add app memset_zero] in H. exact H.
Qed.

(** The second part of a block, after a prefix [a] of [k] frames. *)
Lemma process_loop_shift (data : list Q) (vol : Q) (looping : bool)
  (k m : nat) (a : list Q) :
  length a = (2 * k)%nat ->
  forall (todo frame pos : nat) (o : list Q),
    (frame + todo = m)%nat ->
    process_loop data vol looping (k + m) todo (k + frame) pos (a ++ o)
    = match process_loop data vol looping m todo frame pos o with
      | Some (pl, pos', b) => Some (pl, pos', a ++ b)
      | None => None
      end.
Proof.
  intro Ha. induction todo as [|todo IH]; intros frame pos o Hf.
  - reflexivity.
  - cbn [process_loop].
    destruct ((length data <=? pos)%nat && negb looping).
    + do 2 f_equal.
      replace ((k + frame) * 2)%nat with (length a + frame * 2)%nat by lia.
      replace ((k + m - (k + frame)) * 2)%nat with ((m - frame) * 2)%nat by lia.
      apply memset_zero_app_r.
    + destruct (read data _) as [l|]; [|reflexivity].
      destruct (read data _) as [r|]; [|reflexivity].
      replace ((k + frame) * 2 + 0)%nat with (length a + (frame * 2 + 0))%nat
        by lia.
      replace ((k + frame) * 2 + 1)%nat with (length a + (frame * 2 + 1))%nat
        by lia.
      rewrite !upd_app_r.
      replace (S (k + frame)) with (k + S frame)%nat by lia.
      apply IH. lia.
Qed.

(** The first part of a block of [n + m] frames behaves as a block of [n]
    frames, then the second part takes over, or the rest is silence. *)
Lemma process_loop_prefix (data : list Q) (vol : Q) (looping : bool)
  (n m : nat) (o2 : list Q) :
  length o2 = (2 * m)%nat ->
  forall (todo frame pos : nat) (o1 : list Q),
    (frame + todo = n)%nat -> length o1 = (2 * n)%nat ->
    process_loop data vol looping (n + m) (todo + m) frame pos (o1 ++ o2)
    = match process_loop data vol looping n todo frame pos o1 with
      | Some (true, pos1, a) =>
          process_loop data vol looping (n + m) m n pos1 (a ++ o2)
      | Some (false, pos1, a) => Some (false, pos1, a ++ repeat 0 (2 * m))
      | None => None
      end.
Proof.
  intro H2. induction todo as [|todo IH]; intros frame pos o1 Hf H1.
  - cbn [process_loop Nat.add]. replace frame with n by lia. reflexivity.
  - cbn [process_loop Nat.add].
    destruct ((length data <=? pos)%nat && negb looping).
    + do 2 f_equal.
      replace ((n + m - frame) * 2)%nat with ((n - frame) * 2 + 2 * m)%nat
        by lia.
      apply memset_zero_tail; lia.
    + destruct (read data _) as [l|]; [|reflexivity].
      destruct (read data _) as [r|]; [|reflexivity].
      rewrite upd_app_l by lia.
      rewrite upd_app_l by (rewrite length_upd; lia).
      apply IH; [lia | rewrite !length_upd; exact H1].
Qed.

Lemma process_loop_length (data : list Q) (vol : Q) (looping : bool)
  (numFrames : nat) :
  forall (todo frame pos : nat) (out : list Q) pl pos' out',
    process_loop data vol looping numFrames todo frame pos out
    = Some (pl, pos', out') ->
    length out' = length out.
Proof.
  induction todo as [|todo IH]; intros frame pos out pl pos' out' H.
  - cbn in H. injection H as _ _ <-. reflexivity.
  - cbn [process_loop] in H.
    destruct ((length data <=? pos)%nat && negb looping).
    + injection H as _ _ <-. apply length_memset_zero.
    + destruct (read data _) as [l|]; [|discriminate].
      destruct (read data _) as [r|]; [|discriminate].
      rewrite (IH _ _ _ _ _ _ H), !length_upd. reflexivity.
Qed.

(** X25.  The sound does not depend on how the stream is cut into blocks: a
    block of [n] frames followed by a block of [m] frames gives the same
    samples and leaves the player in the same state as one block of [n + m]
    frames, whether the player is idle, plays, loops or reaches the end of
    the sample on the way. *)
Theorem process_block_split (p p1 p2 : SamplePlayer) (n m : nat)
  (o1 o2 a b : list Q) :
  length o1 = (2 * n)%nat -> length o2 = (2 * m)%nat ->
  process p o1 n = Some (a, p1) -> process p1 o2 m = Some (b, p2) ->
  process p (o1 ++ o2) (n + m) = Some (a ++ b, p2).
Proof.
  intros H1 H2. unfold process.
  destruct (negb (playing p) || negb (isLoaded p)) eqn:Hidle.
  - intro E. injection E as <- <-. rewrite Hidle.
    intro E. injection E as <- <-.
    do 2 f_equal.
    rewrite (memset_zero_whole o1) by lia.
    rewrite (memset_zero_whole o2) by lia.
    rewrite (memset_zero_whole (o1 ++ o2)) by (rewrite length_app; lia).
    rewrite <- repeat_app. f_equal. lia.
  - pose proof (process_loop_prefix (sampleData p) (sp_volume p) (loop p)
                  n m o2 H2 n O (playbackPosition p) o1 eq_refl H1) as Hpre.
    destruct (process_loop (sampleData p) (sp_volume p) (loop p) n n 0
                           (playbackPosition p) o1)
      as [[[pl1 pos1] a1]|] eqn:Hrun1; [|discriminate].
    intro E. injection E as <- <-.
    pose proof (process_loop_length _ _ _ _ _ _ _ _ _ _ _ Hrun1) as Hla.
    rewrite Hpre.
    change (isLoaded (with_playback pl1 pos1 p)) with (isLoaded p).
    cbn [playing sampleData with_playback sp_volume loop playbackPosition].
    apply orb_false_elim in Hidle. destruct Hidle as [_ Hload].
    rewrite Hload.
    destruct pl1; cbn [negb orb].
    + pose proof (process_loop_shift (sampleData p) (sp_volume p) (loop p)
                    n m a1 ltac:(lia) m O pos1 o2 eq_refl) as Hsh.
      rewrite Nat.add_0_r in Hsh. rewrite Hsh.
      destruct (process_loop (sampleData p) (sp_volume p) (loop p) m m 0
                             pos1 o2)
        as [[[pl2 pos2] b2]|]; [|discriminate].
      intro E. injection E as <- <-. reflexivity.
    + intro E. injection E as <- <-.
      rewrite (memset_zero_whole o2) by lia.
      replace (m * 2)%nat with (2 * m)%nat by lia. reflexivity.
Qed.

Lemma process_block_split_witness :
  exists a b p1 p2,
    process player0 (repeat 1 2) 1 = Some (a, p1)
    /\ process p1 (repeat 1 6) 3 = Some (b, p2)
    /\ process player0 (repeat 1 2 ++ repeat 1 6) (1 + 3) = Some (a ++ b, p2).
Proof.
  destruct (frame_alignment_is_kept_aux player0 (repeat 1 2) 1
              (conj eq_refl eq_refl)) as (a & p1 & Ha & Hal).
  destruct (frame_alignment_is_kept_aux p1 (repeat 1 6) 3 Hal)
    as (b & p2 & Hb & _).
  exists a, b, p1, p2. split; [exact Ha|]. split; [exact Hb|].
  exact (process_block_split player0 p1 p2 1 3 (repeat 1 2) (repeat 1 6) a b
           eq_refl eq_refl Ha Hb).
Defined.

End SamplePlayerBlocks.


(** ** Resampling: which rates are safe *)

Section ResampleBounds.

Import SamplePlayer.

Lemma to_int_floor (q : Q) : 0 <= q -> to_int q = Qfloor q.
Proof.
  intro H. unfold to_int. destruct q as [n d]. cbn [Qnum Qden Qfloor].
  unfold Qle in H. cbn in H. apply Z.quot_div_nonneg; lia.
Qed.

Lemma to_int_le (q : Q) : 0 <= q -> inject_Z (to_int q) <= q.
Proof.
  intro H. rewrite (to_int_floor q H). apply Qfloor_le.
Qed.

Lemma to_int_gt (q : Q) : 0 <= q -> q < inject_Z (to_int q) + 1.
Proof.
  intro H. rewrite (to_int_floor q H).
  pose proof (Qlt_floor q) as L. rewrite inject_Z_plus in L. exact L.
Qed.

Lemma to_int_nonneg (q : Q) : 0 <= q -> (0 <= to_int q)%Z.
Proof.
  intro H. rewrite (to_int_floor q H).
  change 0%Z with (Qfloor 0). apply Qfloor_resp_le. exact H.
Qed.

Lemma inject_nat_to_int (q : Q) :
  0 <= q -> inject_Z (Z.of_nat (Z.to_nat (to_int q))) = inject_Z (to_int q).
Proof.
  intro H. rewrite Z2Nat.id by (apply to_int_nonneg; exact H). reflexivity.
Qed.

Lemma Qdiv_nonneg (x r : Q) : 0 <= x -> 0 < r -> 0 <= x / r.
Proof.
  intros Hx Hr. unfold Qdiv. apply Qmult_le_0_compat; [exact Hx|].
  apply Qlt_le_weak. apply Qinv_lt_0_compat. exact Hr.
Qed.

Lemma inject_nat_nonneg (n : nat) : 0 <= inject_Z (Z.of_nat n).
Proof.
  change 0 with (inject_Z 0). rewrite <- Zle_Qle. lia.
Qed.

Lemma inject_nat_lt (a b : nat) :
  inject_Z (Z.of_nat a) < inject_Z (Z.of_nat b) -> (a < b)%nat.
Proof.
  intro H. rewrite <- Zlt_Qlt in H. lia.
Qed.

(** Going down in rate, the source frame of an output frame is followed by
    another input frame: the guard does not fire. *)
Lemma source_frame_down (r : Q) (inputFrames outFrame : nat) :
  0 < r -> r < 1 ->
  inject_Z (Z.of_nat (S outFrame)) <= inject_Z (Z.of_nat inputFrames) * r ->
  (Z.to_nat (to_int (inject_Z (Z.of_nat outFrame) / r)) + 1 < inputFrames)%nat.
Proof.
  intros Hr0 Hr1 Hout.
  set (srcPos := inject_Z (Z.of_nat outFrame) / r).
  assert (Hpos : 0 <= srcPos)
    by (apply Qdiv_nonneg; [apply inject_nat_nonneg | exact Hr0]).
  assert (Hmul : srcPos * r == inject_Z (Z.of_nat outFrame)).
  { unfold srcPos. rewrite Qmult_comm. apply Qmult_div_r. intro E.
    rewrite E in Hr0. apply (Qlt_irrefl 0). exact Hr0. }
  assert (Hlt : srcPos < inject_Z (Z.of_nat inputFrames) - 1).
  { apply (Qmult_lt_r _ _ r Hr0). rewrite Hmul.
    rewrite Nat2Z.inj_succ in Hout. unfold Z.succ in Hout.
    rewrite inject_Z_plus in Hout. change (inject_Z 1) with 1 in Hout.
    set (a := inject_Z (Z.of_nat outFrame)) in *.
    set (b := inject_Z (Z.of_nat inputFrames)) in *.
    assert (E : (b - 1) * r == b * r - r) by ring. rewrite E. lra. }
  pose proof (to_int_le srcPos Hpos) as Hfl.
  assert (H : inject_Z (Z.of_nat (Z.to_nat (to_int srcPos) + 1))
              < inject_Z (Z.of_nat inputFrames)).
  { rewrite Nat2Z.inj_add, inject_Z_plus, (inject_nat_to_int srcPos Hpos).
    change (inject_Z (Z.of_nat 1)) with 1. lra. }
  apply inject_nat_lt. exact H.
Qed.

Lemma loop_opt_total {S : Type} (body : nat -> S -> option S)
  (P : S -> Prop) (idxs : list nat) (s : S) :
  P s ->
  (forall i st, In i idxs -> P st -> exists st', body i st = Some st' /\ P st') ->
  exists s', loop_opt body idxs s = Some s' /\ P s'.
Proof.
  revert s. induction idxs as [|i rest IH]; intros s Hs Hstep.
  - exists s. split; [reflexivity | exact Hs].
  - cbn [loop_opt].
    destruct (Hstep i s (or_introl eq_refl) Hs) as (st' & -> & Hst').
    apply IH; [exact Hst'|].
    intros j st Hj. apply Hstep. right. exact Hj.
Qed.

Lemma loop_opt_fails {S : Type} (body : nat -> S -> option S)
  (idxs : list nat) (i : nat) (s : S) :
  In i idxs -> (forall st, body i st = None) -> loop_opt body idxs s = None.
Proof.
  revert s. induction idxs as [|j rest IH]; intros s Hin Hfail; [destruct Hin|].
  cbn [loop_opt]. destruct Hin as [-> | Hin].
  - rewrite Hfail. reflexivity.
  - destruct (body j s) as [s'|]; [|reflexivity]. apply IH; assumption.
Qed.

Lemma ratio_bounds (inputRate outputRate : Z) :
  (0 < outputRate)%Z -> (0 < inputRate)%Z ->
  0 < inject_Z outputRate / inject_Z inputRate
  /\ ((outputRate < inputRate)%Z ->
      inject_Z outputRate / inject_Z inputRate < 1)
  /\ ((2 * inputRate <= outputRate)%Z ->
      2 <= inject_Z outputRate / inject_Z inputRate).
Proof.
  intros Ho Hi.
  assert (Hi' : 0 < inject_Z inputRate)
    by (change 0 with (inject_Z 0); rewrite <- Zlt_Qlt; exact Hi).
  assert (Ho' : 0 < inject_Z outputRate)
    by (change 0 with (inject_Z 0); rewrite <- Zlt_Qlt; exact Ho).
  split; [|split].
  - apply Qlt_shift_div_l; [exact Hi'|]. lra.
  - intro H. apply Qlt_shift_div_r; [exact Hi'|].
    rewrite Qmult_1_l. rewrite <- Zlt_Qlt. exact H.
  - intro H. apply Qle_shift_div_l; [exact Hi'|].
    change 2 with (inject_Z 2). rewrite <- inject_Z_mult, <- Zle_Qle. exact H.
Qed.

(** X26.  Resampling to a lower rate never reads outside the input: for
    [0 < outputRate < inputRate] and at least one channel, the guard for the
    last frame never fires, every index read lies inside the input vector,
    and [resample] returns [outputFrames * channels] samples, where
    [outputFrames] is [inputFrames * outputRate / inputRate] rounded
    down. *)
Theorem resample_down_is_safe (input : list Q) (inputRate outputRate : Z)
  (channels : nat) :
  (0 < outputRate < inputRate)%Z -> (0 < channels)%nat ->
  let ratio := inject_Z outputRate / inject_Z inputRate in
  let inputFrames := (length input / channels)%nat in
  let outputFrames :=
    Z.to_nat (to_int (inject_Z (Z.of_nat inputFrames) * ratio)) in
  (forall outFrame ch, (outFrame < outputFrames)%nat -> (ch < channels)%nat ->
     let srcFrame := fst (source_frame ratio inputFrames outFrame) in
     (index1 srcFrame channels ch < length input)%nat
     /\ (index2 srcFrame channels ch < length input)%nat)
  /\ exists output,
       resample input inputRate outputRate channels = Some output
       /\ length output = (outputFrames * channels)%nat.
Proof.
  intros [Ho Hlt] Hch ratio inputFrames outputFrames.
  destruct (ratio_bounds inputRate outputRate Ho ltac:(lia))
    as (Hr0 & Hr1 & _). specialize (Hr1 Hlt). fold ratio in Hr0, Hr1.
  assert (Hsize : (inputFrames * channels <= length input)%nat).
  { subst inputFrames. rewrite Nat.mul_comm. apply Nat.Div0.mul_div_le. }
  assert (Hprod : 0 <= inject_Z (Z.of_nat inputFrames) * ratio).
  { apply Qmult_le_0_compat; [apply inject_nat_nonneg | lra]. }
  assert (Hguard : forall outFrame, (outFrame < outputFrames)%nat ->
            (Z.to_nat (to_int (inject_Z (Z.of_nat outFrame) / ratio)) + 1
             < inputFrames)%nat).
  { intros outFrame Hout. apply source_frame_down; [exact Hr0 | exact Hr1|].
    apply Qle_trans with (inject_Z (Z.of_nat outputFrames)).
    - rewrite <- Zle_Qle. lia.
    - subst outputFrames. rewrite (inject_nat_to_int _ Hprod).
      apply to_int_le. exact Hprod. }
  assert (Hidx : forall outFrame ch,
            (outFrame < outputFrames)%nat -> (ch < channels)%nat ->
            source_frame ratio inputFrames outFrame
            = (Z.to_nat (to_int (inject_Z (Z.of_nat outFrame) / ratio)),
               inject_Z (Z.of_nat outFrame) / ratio
               - inject_Z (Z.of_nat
                   (Z.to_nat (to_int (inject_Z (Z.of_nat outFrame) / ratio)))))
            /\ (index1 (fst (source_frame ratio inputFrames outFrame))
                       channels ch < length input)%nat
            /\ (index2 (fst (source_frame ratio inputFrames outFrame))
                       channels ch < length input)%nat).
  { intros outFrame ch Hout Hc. specialize (Hguard outFrame Hout).
    unfold source_frame.
    replace (inputFrames <=? _ + 1)%nat with false
      by (symmetry; apply Nat.leb_gt; exact Hguard).
    cbn [fst]. unfold index1, index2. split; [reflexivity|]. split; nia. }
  split.
  - intros outFrame ch Hout Hc srcFrame. subst srcFrame.
    destruct (Hidx outFrame ch Hout Hc) as (_ & H1 & H2). split; assumption.
  - unfold resample.
    replace (inputRate =? outputRate)%Z with false
      by (symmetry; apply Z.eqb_neq; lia).
    fold ratio inputFrames outputFrames.
    apply (loop_opt_total _
             (fun out => length out = (outputFrames * channels)%nat)).
    + apply repeat_length.
    + intros outFrame out Hin Hlen. apply in_seq in Hin.
      unfold resample_frame.
      destruct (source_frame ratio inputFrames outFrame) as [srcFrame frac]
        eqn:Hsrc.
      apply (loop_opt_total _
               (fun o => length o = (outputFrames * channels)%nat));
        [exact Hlen|].
      intros ch o Hc Ho'. apply in_seq in Hc.
      destruct (Hidx outFrame ch ltac:(lia) ltac:(lia)) as (_ & H1 & H2).
      rewrite Hsrc in H1, H2. cbn [fst] in H1, H2.
      unfold resample_channel, read.
      destruct (nth_error input (index1 srcFrame channels ch)) as [s1|] eqn:E1;
        [|apply nth_error_None in E1; lia].
      destruct (nth_error input (index2 srcFrame channels ch)) as [s2|] eqn:E2;
        [|apply nth_error_None in E2; lia].
      eexists. split; [reflexivity|]. rewrite length_upd. exact Ho'.
Qed.

Lemma resample_down_is_safe_witness :
  exists output,
    resample [1 # 2; 1 # 4; 1; 1; 0; 0; 1 # 8; 1 # 8] 48000 24000 2
    = Some output
    /\ length output
       = (Z.to_nat
            (to_int (inject_Z (Z.of_nat (8 / 2))
                     * (inject_Z 24000 / inject_Z 48000))) * 2)%nat.
Proof.
  destruct (resample_down_is_safe [1 # 2; 1 # 4; 1; 1; 0; 0; 1 # 8; 1 # 8]
              48000 24000 2 ltac:(lia) ltac:(lia)) as [_ H].
  exact H.
Defined.

(** Going up in rate by a factor of two or more, the last output frame lands
    on the last input frame: the guard fires there. *)
Lemma source_frame_up (r : Q) (inputFrames : nat) :
  2 <= r -> (1 <= inputFrames)%nat ->
  let outputFrames :=
    Z.to_nat (to_int (inject_Z (Z.of_nat inputFrames) * r)) in
  (1 <= outputFrames)%nat
  /\ (inputFrames
      <= Z.to_nat (to_int (inject_Z (Z.of_nat (outputFrames - 1)) / r)) + 1)%nat.
Proof.
  intros Hr Hin outputFrames.
  set (b := inject_Z (Z.of_nat inputFrames)) in *.
  assert (Hb : 1 <= b)
    by (unfold b; change 1 with (inject_Z 1); rewrite <- Zle_Qle; lia).
  assert (Hx : 2 <= b * r) by nra.
  assert (Hx0 : 0 <= b * r) by lra.
  pose proof (to_int_le _ Hx0) as Hle.
  pose proof (to_int_gt _ Hx0) as Hgt.
  assert (HF : (2 <= to_int (b * r))%Z).
  { rewrite (to_int_floor _ Hx0). change 2%Z with (Qfloor 2).
    apply Qfloor_resp_le. exact Hx. }
  assert (Hout : Z.of_nat (outputFrames - 1) = (to_int (b * r) - 1)%Z)
    by (unfold outputFrames; lia).
  split; [unfold outputFrames; lia|].
  rewrite Hout. set (F := to_int (b * r)) in *.
  assert (HFq : inject_Z (F - 1) == inject_Z F - 1)
    by (unfold Z.sub; rewrite inject_Z_plus; reflexivity).
  assert (Hsrc : b - 1 <= inject_Z (F - 1) / r).
  { apply Qle_shift_div_l; [lra|]. rewrite HFq.
    assert (E : (b - 1) * r == b * r - r) by ring. rewrite E. lra. }
  assert (Hpos : 0 <= inject_Z (F - 1) / r) by lra.
  assert (Hfl : (Z.of_nat inputFrames - 1
                 <= to_int (inject_Z (F - 1) / r))%Z).
  { rewrite (to_int_floor _ Hpos).
    rewrite <- (Qfloor_Z (Z.of_nat inputFrames - 1)).
    apply Qfloor_resp_le.
    assert (E : inject_Z (Z.of_nat inputFrames - 1) == b - 1)
      by (unfold Z.sub, b; rewrite inject_Z_plus; reflexivity).
    rewrite E. exact Hsrc. }
  lia.
Qed.

(** X27.  Resampling to a rate at least twice the input rate always reads
    past the end of the input, whatever the samples are: on the last output
    frame the guard sets [srcFrame = inputFrames - 1], and the second read of
    the last channel is at index [(inputFrames + 1) * channels - 1], which is
    not below [input.size()]. *)
Theorem resample_up_reads_past_the_end (input : list Q)
  (inputRate outputRate : Z) (channels : nat) :
  (0 < inputRate)%Z -> (2 * inputRate <= outputRate)%Z ->
  (0 < channels)%nat -> (channels <= length input)%nat ->
  resample input inputRate outputRate channels = None.
Proof.
  intros Hi Hlt Hch Hlen.
  destruct (ratio_bounds inputRate outputRate ltac:(lia) Hi) as (_ & _ & Hr).
  specialize (Hr Hlt).
  unfold resample.
  replace (inputRate =? outputRate)%Z with false
    by (symmetry; apply Z.eqb_neq; lia).
  set (ratio := inject_Z outputRate / inject_Z inputRate) in *.
  set (inputFrames := (length input / channels)%nat).
  assert (Hframes : (1 <= inputFrames)%nat).
  { unfold inputFrames. apply Nat.div_le_lower_bound; lia. }
  destruct (source_frame_up ratio inputFrames Hr Hframes) as [Hout Hguard].
  set (outputFrames :=
         Z.to_nat (to_int (inject_Z (Z.of_nat inputFrames) * ratio))) in *.
  apply (loop_opt_fails _ _ (outputFrames - 1)%nat).
  { apply in_seq. lia. }
  intro st. unfold resample_frame, source_frame.
  replace (inputFrames <=? _ + 1)%nat with true
    by (symmetry; apply Nat.leb_le; exact Hguard).
  apply (loop_opt_fails _ _ (channels - 1)%nat).
  { apply in_seq. lia. }
  intro o. unfold resample_channel, read.
  assert (Hpast : (length input <= index2 (inputFrames - 1) channels
                                     (channels - 1))%nat).
  { unfold index2.
    pose proof (Nat.mul_succ_div_gt (length input) channels ltac:(lia)) as H.
    fold inputFrames in H. nia. }
  apply nth_error_None in Hpast. rewrite Hpast.
  destruct (nth_error input (index1 (inputFrames - 1) channels (channels - 1)));
    reflexivity.
Qed.

Lemma resample_up_reads_past_the_end_witness :
  resample [1 # 2; 1 # 4; 1; 1; 0; 0] 22050 44100 2 = None.
Proof.
  apply (resample_up_reads_past_the_end [1 # 2; 1 # 4; 1; 1; 0; 0] 22050 44100 2);
    cbn; lia.
Defined.

End ResampleBounds.

(** ** The Freeverb reverb: coefficients and delay lines *)

Section FreeverbCoefficients.

Import Freeverb FreeverbNotions.

Lemma std_clamp_unit (v : Q) : 0 <= std_clamp v 0 1 <= 1.
Proof.
  apply (clamp_range v 0 1). discriminate.
Qed.

Lemma updateCoefficients_ok (r : ReverbEffect) :
  0 <= roomSize r <= 1 -> 0 <= fv_damping r <= 1 -> 0 <= wet r <= 1 ->
  0 <= width r <= 1 -> dry r == 1 - wet r ->
  coefficients_ok (updateCoefficients r).
Proof.
  intros Hs Hd Hw Hwd Hdry.
  unfold coefficients_ok, updateCoefficients.
  cbn [roomSize fv_damping wet width dry fv_feedback damp1 damp2 wet1 wet2].
  unfold SCALE_ROOM, OFFSET_ROOM, SCALE_DAMP.
  assert (Hfb : Qltb (98 # 100) (roomSize r * (28 # 100) + (7 # 10)) = false)
    by (apply Qltb_ge; lra).
  rewrite Hfb.
  refine (conj Hs (conj Hd (conj Hw (conj Hwd (conj Hdry
            (conj _ (conj _ (conj _ (conj _ (conj _ _)))))))))).
  - reflexivity.
  - lra.
  - reflexivity.
  - reflexivity.
  - lra.
  - field.
Qed.

Lemma process_sample_parameters (r : ReverbEffect) (x : Q) :
  let r' := snd (process_sample r x) in
  roomSize r' = roomSize r /\ fv_damping r' = fv_damping r
  /\ wet r' = wet r /\ width r' = width r /\ dry r' = dry r
  /\ fv_feedback r' = fv_feedback r /\ damp1 r' = damp1 r
  /\ damp2 r' = damp2 r /\ wet1 r' = wet1 r /\ wet2 r' = wet2 r.
Proof.
  unfold process_sample. cbn. repeat split.
Qed.

Lemma process_keeps_coefficients (r : ReverbEffect) (input : list Q)
  (n : nat) :
  coefficients_ok r -> coefficients_ok (snd (process r input n)).
Proof.
  intro H. unfold process.
  apply (for_loop_invariant
           (fun _ (st : list Q * ReverbEffect) => coefficients_ok (snd st))).
  - exact H.
  - intros k [out r0] _ Hk. cbn [snd] in *.
    pose proof (process_sample_parameters r0 (rd input (Z.of_nat k))) as P.
    destruct (process_sample r0 (rd input (Z.of_nat k))) as [y r1].
    cbn [snd] in *.
    destruct P as (P1 & P2 & P3 & P4 & P5 & P6 & P7 & P8 & P9 & P10).
    unfold coefficients_ok.
    rewrite P1, P2, P3, P4, P5, P6, P7, P8, P9, P10. exact Hk.
Qed.

Lemma call_keeps_coefficients (c : Call) (r : ReverbEffect) :
  coefficients_ok r -> coefficients_ok (call c r).
Proof.
  intro H. pose proof H as (Hs & Hd & Hw & Hwd & Hdry & _).
  destruct c as [size | mix | damp | w | input n]; cbn [call].
  - apply updateCoefficients_ok; cbn; try assumption. apply std_clamp_unit.
  - apply updateCoefficients_ok; cbn; try assumption;
      [apply std_clamp_unit | reflexivity].
  - apply updateCoefficients_ok; cbn; try assumption. apply std_clamp_unit.
  - apply updateCoefficients_ok; cbn; try assumption. apply std_clamp_unit.
  - apply process_keeps_coefficients. exact H.
Qed.

(** X28.  A Freeverb reverb keeps its coefficients consistent for its whole
    life: after the constructor and any sequence of [setSize], [setDryWet],
    [setDamping], [setWidth] (with any arguments) and [process] calls, the
    parameters lie in [0, 1], [dry = 1 - wet], the comb feedback is
    [roomSize * 0.28 + 0.7] and lies in [0.7, 0.98] (the clamp at 0.98 in
    [updateCoefficients] never has to act), [damp1 = damping * 0.4] with
    [damp2 = 1 - damp1], and [wet1 + wet2 = wet]. *)
Theorem freeverb_coefficients_stay_consistent (sampleRate : Z)
  (cs : list Call) :
  coefficients_ok (calls cs (ReverbEffect_new sampleRate)).
Proof.
  unfold calls.
  assert (H0 : coefficients_ok (ReverbEffect_new sampleRate)).
  { unfold ReverbEffect_new. apply updateCoefficients_ok; cbn;
      try (split; discriminate); try reflexivity. }
  revert H0. generalize (ReverbEffect_new sampleRate).
  induction cs as [|c rest IH]; intros r Hr; cbn [fold_left].
  - exact Hr.
  - apply IH. apply call_keeps_coefficients. exact Hr.
Qed.

End FreeverbCoefficients.

Section FreeverbDelayLines.

Import Freeverb FreeverbNotions.

Lemma rd_wr_same (l : list Q) (i : Z) (x : Q) :
  (0 <= i < size l)%Z -> rd (wr l i x) i = x.
Proof.
  unfold size. intro H. rewrite <- (Z2Nat.id i) by lia.
  apply rd_wr_eq. lia.
Qed.

Lemma rd_wr_other (l : list Q) (i j : Z) (x : Q) :
  (0 <= i)%Z -> (0 <= j)%Z -> i <> j -> rd (wr l i x) j = rd l j.
Proof.
  intros Hi Hj H. rewrite <- (Z2Nat.id i), <- (Z2Nat.id j) by lia.
  apply rd_wr_neq. lia.
Qed.

Lemma next_index (n i : Z) :
  (0 <= i < n)%Z -> (if (n <=? i + 1)%Z then 0 else i + 1)%Z = ((i + 1) mod n)%Z.
Proof.
  intro H. destruct (Z.leb_spec n (i + 1)).
  - replace (i + 1)%Z with n by lia. symmetry. apply Z.mod_same. lia.
  - symmetry. apply Z.mod_small. lia.
Qed.

Lemma mod_shift_neq (n i t : Z) :
  (0 <= i < n)%Z -> (1 <= t < n)%Z -> ((i + t) mod n)%Z <> i.
Proof.
  intros Hi Ht E.
  pose proof (Z.div_mod (i + t) n ltac:(lia)) as D. rewrite E in D.
  assert (Hq : (t = n * ((i + t) / n))%Z) by lia.
  set (q := ((i + t) / n)%Z) in *. clearbody q.
  assert (Hcase : (q <= 0 \/ 1 <= q)%Z) by lia.
  destruct Hcase; nia.
Qed.

(** One call of the comb filter: what it returns, where it writes, and
    where the index goes. *)
Lemma CombFilter_process_step (c : CombFilter) (x fb d1 d2 : Q) :
  comb_ready c ->
  let c' := snd (CombFilter_process c x fb d1 d2) in
  fst (CombFilter_process c x fb d1 d2) = rd (cb_buffer c) (cb_index c)
  /\ comb_ready c'
  /\ cb_bufferSize c' = cb_bufferSize c
  /\ cb_index c' = ((cb_index c + 1) mod cb_bufferSize c)%Z
  /\ rd (cb_buffer c') (cb_index c) = x + cb_filterStore c' * fb
  /\ (forall j, (0 <= j)%Z -> j <> cb_index c ->
        rd (cb_buffer c') j = rd (cb_buffer c) j).
Proof.
  intros [Hsize Hidx]. unfold CombFilter_process.
  cbn [fst snd cb_buffer cb_bufferSize cb_index cb_filterStore].
  rewrite (next_index _ _ Hidx).
  refine (conj eq_refl (conj _ (conj eq_refl (conj eq_refl (conj _ _))))).
  - split; cbn [cb_buffer cb_bufferSize cb_index].
    + unfold size. rewrite length_wr. exact Hsize.
    + apply Z.mod_pos_bound. lia.
  - apply rd_wr_same. rewrite <- Hsize. exact Hidx.
  - intros j Hj Hne. apply rd_wr_other; [lia | exact Hj |].
    intro E. apply Hne. symmetry. exact E.
Qed.

Lemma CombFilter_run_cons (c : CombFilter) (x : Q) (rest : list Q)
  (fb d1 d2 : Q) :
  CombFilter_run c (x :: rest) fb d1 d2
  = (fst (CombFilter_process c x fb d1 d2)
       :: fst (CombFilter_run (snd (CombFilter_process c x fb d1 d2))
                              rest fb d1 d2),
     snd (CombFilter_run (snd (CombFilter_process c x fb d1 d2))
                         rest fb d1 d2)).
Proof.
  cbn [CombFilter_run].
  destruct (CombFilter_process c x fb d1 d2) as [y c1]. cbn [fst snd].
  destruct (CombFilter_run c1 rest fb d1 d2) as [ys c2]. reflexivity.
Qed.

Lemma CombFilter_run_outputs (xs : list Q) (c : CombFilter) (fb d1 d2 : Q) :
  comb_ready c -> (Z.of_nat (length xs) <= cb_bufferSize c)%Z ->
  fst (CombFilter_run c xs fb d1 d2)
  = map (fun k => rd (cb_buffer c)
                     ((cb_index c + Z.of_nat k) mod cb_bufferSize c))
        (seq 0 (length xs)).
Proof.
  revert c. induction xs as [|x rest IH]; intros c Hc Hlen; [reflexivity|].
  rewrite CombFilter_run_cons. cbn [fst length seq map].
  destruct (CombFilter_process_step c x fb d1 d2 Hc)
    as (Hy & Hc1 & Hn & Hi & _ & Hkeep).
  pose proof Hc as [_ Hidx].
  cbn [length] in Hlen.
  rewrite Hy, Z.add_0_r, (Z.mod_small _ _ Hidx). f_equal.
  rewrite IH by (try exact Hc1; rewrite Hn; lia).
  rewrite <- seq_shift, map_map.
  apply map_ext_in. intros k Hk. apply in_seq in Hk.
  rewrite Hn, Hi, Zplus_mod_idemp_l.
  replace (cb_index c + 1 + Z.of_nat k)%Z
    with (cb_index c + Z.of_nat (S k))%Z by lia.
  apply Hkeep.
  - apply Z.mod_pos_bound. lia.
  - apply mod_shift_neq; [exact Hidx | lia].
Qed.

Lemma CombFilter_run_ready (xs : list Q) (c : CombFilter) (fb d1 d2 : Q) :
  comb_ready c ->
  comb_ready (snd (CombFilter_run c xs fb d1 d2))
  /\ cb_bufferSize (snd (CombFilter_run c xs fb d1 d2)) = cb_bufferSize c
  /\ cb_index (snd (CombFilter_run c xs fb d1 d2))
     = ((cb_index c + Z.of_nat (length xs)) mod cb_bufferSize c)%Z.
Proof.
  revert c. induction xs as [|x rest IH]; intros c Hc.
  - cbn. rewrite Z.add_0_r. pose proof Hc as [_ Hidx].
    rewrite (Z.mod_small _ _ Hidx). auto.
  - rewrite CombFilter_run_cons. cbn [snd].
    destruct (CombFilter_process_step c x fb d1 d2 Hc)
      as (_ & Hc1 & Hn & Hi & _).
    destruct (IH _ Hc1) as (R & N & I).
    rewrite N, I, Hn, Hi, Zplus_mod_idemp_l. cbn [length].
    refine (conj R (conj eq_refl _)). f_equal. lia.
Qed.

(** X29.  A Freeverb comb filter is a delay line of [bufferSize] samples:
    over the next [bufferSize] calls it returns the samples it holds,
    oldest first, whatever the inputs, the feedback and the damping are; and
    the sample that a call stores, [input + filterStore * feedback], is
    the value returned exactly [bufferSize] calls later. *)
Theorem comb_is_a_delay_line (c : CombFilter) (x x' : Q) (xs mid : list Q)
  (fb d1 d2 : Q) :
  comb_ready c ->
  ((Z.of_nat (length xs) <= cb_bufferSize c)%Z ->
     fst (CombFilter_run c xs fb d1 d2)
     = map (fun k => rd (cb_buffer c)
                        ((cb_index c + Z.of_nat k) mod cb_bufferSize c))
           (seq 0 (length xs)))
  /\ (Z.of_nat (length mid) = (cb_bufferSize c - 1)%Z ->
      let c1 := snd (CombFilter_process c x fb d1 d2) in
      let c2 := snd (CombFilter_run c1 mid fb d1 d2) in
      fst (CombFilter_process c2 x' fb d1 d2) = x + cb_filterStore c1 * fb).
Proof.
  intro Hc. split.
  - intro Hlen. apply CombFilter_run_outputs; assumption.
  - intros Hmid c1 c2.
    destruct (CombFilter_process_step c x fb d1 d2 Hc)
      as (_ & Hc1 & Hn & Hi & Hw & _).
    fold c1 in Hc1, Hn, Hi, Hw.
    pose proof Hc as [_ Hidx].
    destruct (CombFilter_run_ready mid c1 fb d1 d2 Hc1) as (Hc2 & Hn2 & Hi2).
    fold c2 in Hc2, Hn2, Hi2.
    destruct (CombFilter_process_step c2 x' fb d1 d2 Hc2) as (Hy & _).
    rewrite Hy, Hi2, Hn, Hi, Zplus_mod_idemp_l, Hmid.
    replace (cb_index c + 1 + (cb_bufferSize c - 1))%Z
      with (cb_index c + 1 * cb_bufferSize c)%Z by lia.
    rewrite Z.mod_add by lia. rewrite (Z.mod_small _ _ Hidx).
    (* the slot written by the first call is untouched by the calls between *)
    clear Hy.
    assert (Hkeep : forall (ys : list Q) (d : CombFilter) (t : Z),
              comb_ready d -> cb_bufferSize d = cb_bufferSize c ->
              (1 <= t)%Z -> (t + Z.of_nat (length ys) <= cb_bufferSize c)%Z ->
              cb_index d = ((cb_index c + t) mod cb_bufferSize c)%Z ->
              rd (cb_buffer (snd (CombFilter_run d ys fb d1 d2))) (cb_index c)
              = rd (cb_buffer d) (cb_index c)).
    { induction ys as [|y rest IH]; intros d t Hd Hnd Ht Hlen Hid;
        [reflexivity|].
      rewrite CombFilter_run_cons. cbn [snd]. cbn [length] in Hlen.
      destruct (CombFilter_process_step d y fb d1 d2 Hd)
        as (_ & Hd1 & Hn1 & Hi1 & _ & Hk).
      rewrite (IH _ (t + 1)%Z Hd1); try lia.
      - apply Hk; [lia|]. rewrite Hid. intro E.
        apply (mod_shift_neq (cb_bufferSize c) (cb_index c) t Hidx);
          [lia | symmetry; exact E].
      - rewrite Hi1, Hnd, Hid, Zplus_mod_idemp_l. f_equal. lia. }
    unfold c2. rewrite (Hkeep mid c1 1%Z Hc1 Hn); try lia.
    exact Hw.
Qed.

Lemma comb_is_a_delay_line_witness :
  fst (CombFilter_process
         (snd (CombFilter_run
                 (snd (CombFilter_process (CombFilter_init 3) (1 # 2)
                         (84 # 100) (2 # 10) (8 # 10)))
                 [1 # 3; 1 # 4] (84 # 100) (2 # 10) (8 # 10)))
         (1 # 5) (84 # 100) (2 # 10) (8 # 10))
  = (1 # 2)
    + cb_filterStore (snd (CombFilter_process (CombFilter_init 3) (1 # 2)
                             (84 # 100) (2 # 10) (8 # 10))) * (84 # 100).
Proof.
  destruct (comb_is_a_delay_line (CombFilter_init 3) (1 # 2) (1 # 5) []
              [1 # 3; 1 # 4] (84 # 100) (2 # 10) (8 # 10)
              ltac:(split; [reflexivity | cbn; lia]))
    as [_ H].
  apply H. reflexivity.
Defined.

End FreeverbDelayLines.

(** ** Waveform indices *)

Section WaveformIndices.

Import AudioEngine.

Lemma is_enumerator_tag (w : Waveform) :
  is_enumerator w <-> (0 <= tag w < 4)%Z.
Proof.
  destruct w as [t]. unfold is_enumerator, Sine, Square, Saw, Triangle.
  cbn [tag]. split.
  - intros [H | [H | [H | H]]]; injection H as ->; lia.
  - intro H.
    assert (C : (t = 0 \/ t = 1 \/ t = 2 \/ t = 3)%Z) by lia.
    destruct C as [-> | [-> | [-> | ->]]]; auto.
Qed.

Lemma rem_4_enumerator (index : Z) :
  (0 <= Z.rem index 4 < 4)%Z <-> (0 <= index)%Z \/ (4 | index)%Z.
Proof.
  split.
  - intros [H _]. destruct (Z.lt_ge_cases index 0) as [Hneg | Hpos];
      [right | left; exact Hpos].
    apply Z.rem_divide; [lia|].
    pose proof (Z.rem_nonpos index 4 ltac:(lia) ltac:(lia)). lia.
  - intros [Hpos | Hdiv].
    + apply Z.rem_bound_pos; lia.
    + apply Z.rem_divide in Hdiv; [|lia]. rewrite Hdiv. lia.
Qed.

(** X30.  [setWaveform(int)] and [setLfoWaveform(int)] store one of the four
    waveforms exactly when the index is not negative or is a multiple of 4;
    the tag stored is then the index modulo 4.  Every other index stores a
    negative tag between -3 and -1. *)
Theorem setWaveform_int_enumerator (e : AudioEngine) (index : Z) :
  (is_enumerator (osc_waveform (oscillator (setWaveform_int index e)))
   <-> (0 <= index)%Z \/ (4 | index)%Z)
  /\ (is_enumerator (lfo_waveform (lfo (setLfoWaveform_int index e)))
      <-> (0 <= index)%Z \/ (4 | index)%Z)
  /\ lfoWaveformTag (setLfoWaveform_int index e)
     = waveformTag (setWaveform_int index e)
  /\ ((0 <= index)%Z \/ (4 | index)%Z ->
      waveformTag (setWaveform_int index e) = (index mod 4)%Z)
  /\ (~ ((0 <= index)%Z \/ (4 | index)%Z) ->
      (-3 <= waveformTag (setWaveform_int index e) <= -1)%Z).
Proof.
  assert (Ho : osc_waveform (oscillator (setWaveform_int index e))
               = static_cast_Waveform (Z.rem index 4)) by reflexivity.
  assert (Hl : lfo_waveform (lfo (setLfoWaveform_int index e))
               = static_cast_Waveform (Z.rem index 4)) by reflexivity.
  unfold waveformTag, lfoWaveformTag. rewrite Ho, Hl.
  rewrite !is_enumerator_tag. cbn [tag static_cast_Waveform].
  refine (conj (rem_4_enumerator index) (conj (rem_4_enumerator index)
            (conj eq_refl (conj _ _)))).
  - intros [Hpos | Hdiv].
    + apply Z.rem_mod_nonneg; lia.
    + pose proof Hdiv as Hmod. apply Z.mod_divide in Hmod; [|lia].
      apply Z.rem_divide in Hdiv; [|lia]. lia.
  - intro H.
    assert (Hneg : (index < 0)%Z) by lia.
    pose proof (Z.rem_bound_pos_neg index 4 ltac:(lia) ltac:(lia)) as Hb.
    assert (Hnz : Z.rem index 4 <> 0%Z).
    { intro E. apply H. right. apply Z.rem_divide; [lia | exact E]. }
    lia.
Qed.

End WaveformIndices.
